(** * VisualTools: the slideshow pipeline

    A shallow embedding of the slideshow tool of VisualTools:
    - [SlideshowProcessor] (slideshow-processor.ts): per-slide timing, the
      filter graph text, and the staged run against the engine;
    - [FFmpegManager] (ffmpeg-manager.js/.ts) and [StateManager]
      (state-manager.js/.ts): the engine handle and the shared state;
    - [SlideshowController.generate] (slideshow-controller.ts): validation
      of the inputs before a run;
    - [ProgressBar] (progress-bar.ts): the display of the progress value.

    Conventions. A JavaScript number that the code uses as a count or an
    index is a [nat] or a [Z]; a duration, an offset or a frame count is
    a double ([Double.t]: the finite doubles by their exact rational
    value, the two infinities and NaN), and [+], [-], [*] and [/] on them
    round to the nearest double as IEEE 754 prescribes; a string is a
    [string] of ASCII characters.  An [async] function is a state-passing
    function over [World]; the outcomes of the calls into the browser and
    into ffmpeg.wasm are read from an [Env]. *)

From Stdlib Require Import Ascii String Sorted QArith Qround Qabs Qpower Lqa.
From Stdlib Require SpecFloat.
From stdpp Require Import base strings pretty list gmap.

Local Open Scope Z_scope.

(** ** Double-precision numbers

    A finite double is kept as the rational number it stands for.  The
    sign of a zero is not kept: the slideshow never divides by a number
    that can be zero and prints both zeros alike.  [round] is the rounding that every
    arithmetic operation and every decimal literal goes through. *)

Module Double.

Inductive t := Finite (q : Q) | PosInf | NegInf | NaN.

(** For [0 < x], the exponent [e] with [2^e <= x < 2^(e+1)]. *)
Definition ilog2 (x : Q) : Z :=
  let e := Z.log2 (Qnum x) - Z.log2 (Z.pos (Qden x)) in
  if Qle_bool (2 ^ e) x then e else e - 1.

(** The exponent of the last place of the doubles around [x]: 53 bits
    of precision, and nothing finer than 2^-1074. *)
Definition cexp (x : Q) : Z := Z.max (ilog2 x - 52) (-1074).

(** The nearest integer, the even one on a tie. *)
Definition rne (q : Q) : Z :=
  let f := Qfloor q in
  match (q - inject_Z f ?= 1 # 2)%Q with
  | Lt => f
  | Gt => f + 1
  | Eq => if Z.even f then f else f + 1
  end.

Definition round_pos (x : Q) : Q :=
  (inject_Z (rne (x / 2 ^ cexp x)) * 2 ^ cexp x)%Q.

(** The double nearest to a real number (round to nearest, ties to
    even), with overflow to the infinities. *)
Definition round (x : Q) : t :=
  match (x ?= 0)%Q with
  | Eq => Finite 0
  | Gt => let r := round_pos x in
          if Qle_bool (2 ^ 1024) r then PosInf else Finite (Qred r)
  | Lt => let r := round_pos (- x) in
          if Qle_bool (2 ^ 1024) r then NegInf else Finite (Qred (- r))
  end.

(** An integer of the code, as a number. *)
Definition of_Z (z : Z) : t := round (inject_Z z).

Definition neg (x : t) : t :=
  match x with
  | Finite a => Finite (Qred (- a))
  | PosInf => NegInf
  | NegInf => PosInf
  | NaN => NaN
  end.

(** [x + y], [x - y], [x * y] and [x / y]: the exact result, rounded;
    the infinities and NaN as IEEE 754 has them. *)
Definition add (x y : t) : t :=
  match x, y with
  | NaN, _ | _, NaN => NaN
  | Finite a, Finite b => round (a + b)
  | PosInf, NegInf | NegInf, PosInf => NaN
  | PosInf, _ | _, PosInf => PosInf
  | NegInf, _ | _, NegInf => NegInf
  end.

Definition sub (x y : t) : t := add x (neg y).

Definition sign_inf (negative : bool) : t := if negative then NegInf else PosInf.

Definition is_neg (x : t) : bool :=
  match x with
  | Finite a => Qnum a <? 0
  | NegInf => true
  | _ => false
  end.

Definition is_zero (x : t) : bool :=
  match x with Finite a => Qeq_bool a 0 | _ => false end.

Definition mul (x y : t) : t :=
  match x, y with
  | NaN, _ | _, NaN => NaN
  | Finite a, Finite b => round (a * b)
  | _, _ =>
      if is_zero x || is_zero y then NaN
      else sign_inf (xorb (is_neg x) (is_neg y))
  end.

(** A zero divisor counts as +0. *)
Definition div (x y : t) : t :=
  match x, y with
  | NaN, _ | _, NaN => NaN
  | Finite a, Finite b =>
      if Qeq_bool b 0
      then (if Qeq_bool a 0 then NaN else sign_inf (is_neg x))
      else round (a / b)
  | Finite _, _ => Finite 0
  | _, Finite _ => sign_inf (xorb (is_neg x) (is_neg y))
  | _, _ => NaN
  end.

(** [Math.ceil]. *)
Definition ceil (x : t) : t :=
  match x with
  | Finite a => Finite (inject_Z (Qceiling a))
  | _ => x
  end.

(** [x < y] and [x === y]; every comparison with NaN is false. *)
Definition ltb (x y : t) : bool :=
  match x, y with
  | NaN, _ | _, NaN => false
  | Finite a, Finite b => negb (Qle_bool b a)
  | NegInf, NegInf | PosInf, _ => false
  | NegInf, _ => true
  | Finite _, PosInf => true
  | Finite _, NegInf => false
  end.

Definition eqb (x y : t) : bool :=
  match x, y with
  | Finite a, Finite b => Qeq_bool a b
  | PosInf, PosInf | NegInf, NegInf => true
  | _, _ => false
  end.

(** [Math.max] of two numbers. *)
Definition max (x y : t) : t :=
  match x, y with
  | NaN, _ | _, NaN => NaN
  | _, _ => if ltb x y then y else x
  end.

(** [!(x < lo || x > hi)] for a number [x]. *)
Definition between (lo hi x : t) : bool :=
  match x with
  | NaN => false
  | _ => negb (ltb x lo) && negb (ltb hi x)
  end.

(** [x || y] picks [y] when [x] is falsy: zero or NaN. *)
Definition falsy (x : t) : bool :=
  match x with
  | Finite a => Qeq_bool a 0
  | NaN => true
  | _ => false
  end.

End Double.

(** The same numbers in the Standard Library's specification of the
    IEEE 754 formats ([SpecFloat], at 53 bits and the exponent bound
    1024), against which the arithmetic above is checked on a grid of
    values ([arithmetic_agrees_with_SpecFloat]). *)
Definition of_spec (x : SpecFloat.spec_float) : Double.t :=
  match x with
  | SpecFloat.S754_zero _ => Double.Finite 0
  | SpecFloat.S754_infinity s => if s then Double.NegInf else Double.PosInf
  | SpecFloat.S754_nan => Double.NaN
  | SpecFloat.S754_finite s m e =>
      Double.Finite (inject_Z (if s then Z.neg m else Z.pos m) * 2 ^ e)
  end.

Definition same_number (x y : Double.t) : bool :=
  match x, y with
  | Double.NaN, Double.NaN => true
  | _, _ => Double.eqb x y
  end.

(** Zero, 30, -1.75, 0.1, 0.501, 8.3, a subnormal number, the largest
    double, an infinity and NaN. *)
Definition samples : list SpecFloat.spec_float :=
  map (fun me => SpecFloat.binary_normalize 53 1024 me.1 me.2 false)
      [(0, 0); (30, 0); (-7, -2);
       (3602879701896397, -55); (4512606826625237, -53); (4672484613396071, -49);
       (-5, -1074); (9007199254740991, 971)]
  ++ [SpecFloat.S754_infinity true; SpecFloat.S754_nan].

Definition agree
    (f : SpecFloat.spec_float -> SpecFloat.spec_float -> SpecFloat.spec_float)
    (g : Double.t -> Double.t -> Double.t) : bool :=
  forallb (fun x =>
             forallb (fun y => same_number (of_spec (f x y)) (g (of_spec x) (of_spec y)))
                     samples)
          samples.

(** ** JavaScript numbers and strings *)

Module Js.

(** [Math.round] of a finite number: the nearest integer, ties towards
    +infinity.  [Math.round] keeps an infinity; in [Z] it is kept as
    2^1024, which is larger than every finite double.  (NaN does not
    arise from the finite ratios of an [Env].) *)
Definition math_round (x : Double.t) : Z :=
  match x with
  | Double.Finite q => Qfloor (q + (1 # 2))%Q
  | Double.PosInf => 2 ^ 1024
  | Double.NegInf => - 2 ^ 1024
  | Double.NaN => 0
  end.

Definition math_floor (x : Q) : Z := Qfloor x.

Definition digit (d : Z) : ascii := pretty_N_char (Z.to_N d).

(** For [0 < x], the [n] with [10^(n-1) <= x < 10^n]: an estimate from
    the binary exponent, corrected by comparison. *)
Definition decimal_exponent (x : Q) : Z :=
  let est := Double.ilog2 x * 30103 / 100000 in
  if Qle_bool (10 ^ (est + 1)) x then est + 2
  else if Qle_bool (10 ^ est) x then est + 1
  else est.

(** The digits of [Number::toString]: the least [k] for which some
    integer [s] of [k] digits has [s * 10^(n-k)] rounding to [x]; of two
    such integers the one nearer to [x], the even one on a tie. *)
Fixpoint shortest_digits (fuel : nat) (k : Z) (x : Q) (n : Z) : Z * Z :=
  let scale := (10 ^ (n - k))%Q in
  let lo := Qfloor (x / scale) in
  match fuel with
  | O => (lo, k)
  | S fuel' =>
      let below := (inject_Z lo * scale)%Q in
      let above := (inject_Z (lo + 1) * scale)%Q in
      let ok_below := Double.eqb (Double.round below) (Double.Finite x) in
      let ok_above := Double.eqb (Double.round above) (Double.Finite x) in
      if ok_below && ok_above then
        match (x - below ?= above - x)%Q with
        | Lt => (lo, k)
        | Gt => (lo + 1, k)
        | Eq => (if Z.even lo then lo else lo + 1, k)
        end
      else if ok_below then (lo, k)
      else if ok_above then (lo + 1, k)
      else shortest_digits fuel' (k + 1) x n
  end.

Definition zeros (n : Z) : string := String.concat "" (replicate (Z.to_nat n) "0").

(** The layout of [Number::toString] for the digits [ds] and the
    position [n] of the decimal point. *)
Definition layout (ds : string) (n : Z) : string :=
  let k := Z.of_nat (String.length ds) in
  if (k <=? n) && (n <=? 21) then ds +:+ zeros (n - k)
  else if (0 <? n) && (n <=? 21) then
    substring 0 (Z.to_nat n) ds +:+ "." +:+ substring (Z.to_nat n) (Z.to_nat (k - n)) ds
  else if (-6 <? n) && (n <=? 0) then "0." +:+ zeros (- n) +:+ ds
  else
    let e := n - 1 in
    let exponent := (if e <? 0 then "-" else "+") +:+ pretty (Z.abs e) in
    if k =? 1 then ds +:+ "e" +:+ exponent
    else substring 0 1 ds +:+ "." +:+ substring 1 (Z.to_nat (k - 1)) ds
           +:+ "e" +:+ exponent.

Definition positive_to_string (x : Q) : string :=
  let n := decimal_exponent x in
  let (s, k) := shortest_digits 17 1 x n in
  if s =? 10 ^ k then layout "1" (n + 1) else layout (pretty s) n.

(** [Number.prototype.toString], which a template literal applies to a
    number (ECMA-262, Number::toString with radix 10). *)
Definition number_to_string (x : Double.t) : string :=
  match x with
  | Double.NaN => "NaN"
  | Double.PosInf => "Infinity"
  | Double.NegInf => "-Infinity"
  | Double.Finite q =>
      if Qeq_bool q 0 then "0"
      else (if Qnum q <? 0 then "-" else "") +:+ positive_to_string (Qabs q)
  end.

(** [x.toFixed(2)], after ECMA-262 (Number.prototype.toFixed): a number
    that is not finite is printed by [number_to_string]; the sign is
    split off; a magnitude of at least 10^21 is printed by
    [number_to_string]; and otherwise [n] is the integer nearest to
    [100 * |x|] (the larger one on a tie), printed with a point before
    its last two digits. *)
Definition toFixed2 (x : Double.t) : string :=
  match x with
  | Double.Finite q =>
      let s := if Qnum q <? 0 then "-" else "" in
      let a := Qabs q in
      if Qle_bool (inject_Z (10 ^ 21)) a then s +:+ number_to_string (Double.Finite a)
      else
        let n := Qfloor (a * 100 + (1 # 2))%Q in
        s +:+ pretty (n / 100)
          +:+ "." +:+ String (digit (n mod 100 / 10)) (String (digit (n mod 10)) "")
  | _ => number_to_string x
  end.

(** [s.split(sep)] for a one-character separator: the segments between
    the separators, one more than there are separators. *)
Fixpoint split_go (sep : ascii) (cur : string) (s : string) : list string :=
  match s with
  | "" => [cur]
  | String c s' =>
      if Ascii.eqb c sep then cur :: split_go sep "" s'
      else split_go sep (cur +:+ String c "") s'
  end.

Definition split (sep : ascii) (s : string) : list string := split_go sep "" s.

(** [toLowerCase]: the strings of the model are ASCII, where it turns
    A-Z into a-z and keeps every other character. *)
Definition lower_char (c : ascii) : ascii :=
  let n := nat_of_ascii c in
  if ((65 <=? n) && (n <=? 90))%nat then ascii_of_nat (n + 32) else c.

Fixpoint toLowerCase (s : string) : string :=
  match s with
  | "" => ""
  | String c s' => String (lower_char c) (toLowerCase s')
  end.

End Js.

(** ** Configuration (config.ts) *)

Module CONFIG.
Definition MAX_FILES_SLIDESHOW : nat := 20.
Definition ACCEPTED_FORMATS : list string := [".png"; ".jpg"; ".jpeg"].
Definition ACCEPTED_MIME_TYPES : list string := ["image/png"; "image/jpeg"].
Definition MAX_FILE_SIZE : Z := 50 * 1024 * 1024.
Definition DISPLAY_DURATION : Double.t := Double.round (15 # 10).
Definition TRANSITION_DURATION : Double.t := Double.round (5 # 10).
Definition VIDEO_FPS : Double.t := Double.of_Z 30.
Definition DISPLAY_DURATION_MIN : Double.t := Double.round (5 # 10).
Definition DISPLAY_DURATION_MAX : Double.t := Double.of_Z 10.
Definition TRANSITION_DURATION_MIN : Double.t := Double.round (1 # 10).
Definition TRANSITION_DURATION_MAX : Double.t := Double.of_Z 3.
End CONFIG.

Module MESSAGES.
Definition LOADING_FFMPEG : string := "Loading FFmpeg (one-time, ~10MB)...".
Definition ANALYZING_IMAGES : string := "Analyzing images...".
Definition GENERATING_VIDEO : string := "Generating video...".
Definition PROCESSING_COMPLETE : string := "Processing complete!".
Definition ERROR_FILE_TOO_LARGE : string := "File size exceeds 50MB limit".
Definition ERROR_INVALID_FORMAT : string := "Only PNG and JPG images are supported".
Definition ERROR_MAX_FILES : string := "Maximum 20 images allowed".
Definition ERROR_MIN_FILES_SLIDESHOW : string := "Please upload at least 2 images".
Definition ERROR_FFMPEG_LOAD : string := "Failed to load FFmpeg. Please try again.".
Definition ERROR_PROCESSING : string := "An error occurred during processing".
Definition ERROR_NO_SHAREDARRAYBUFFER : string :=
  "Your browser does not support SharedArrayBuffer. Please use a modern browser with CORS isolation.".
End MESSAGES.

(** ** The filter-graph compiler (SlideshowProcessor, pure part) *)

Record SlideshowProcessor := {
  displayDuration : Double.t;
  transitionDuration : Double.t;
  fps : Double.t
}.

(** The constructor. *)
Definition new_SlideshowProcessor : SlideshowProcessor :=
  {| displayDuration := CONFIG.DISPLAY_DURATION;
     transitionDuration := CONFIG.TRANSITION_DURATION;
     fps := CONFIG.VIDEO_FPS |}.

Section Compiler.

Variable this : SlideshowProcessor.

Definition calculateDuration (index total : Z) : Double.t :=
  if (index =? 0) || (index =? total - 1)
  then Double.add (displayDuration this)
                  (Double.div (transitionDuration this) (Double.of_Z 2))
  else Double.add (displayDuration this) (transitionDuration this).

(** The statement pushed by iteration [i] of the first loop of
    [buildFilterComplex]. *)
Definition transform_statement (numImages : nat) (width height : Z) (i : nat) : string :=
  let duration := calculateDuration (Z.of_nat i) (Z.of_nat numImages) in
  let frameCount := Double.ceil (Double.mul duration (fps this)) in
  let loopCount := Double.max (Double.of_Z 0) (Double.sub frameCount (Double.of_Z 1)) in
  "[" +:+ pretty i +:+ ":v]scale=" +:+ pretty width +:+ ":" +:+ pretty height
    +:+ ":force_original_aspect_ratio=decrease,"
    +:+ "pad=" +:+ pretty width +:+ ":" +:+ pretty height +:+ ":(ow-iw)/2:(oh-ih)/2:black,"
    +:+ "setsar=1,fps=" +:+ Js.number_to_string (fps this) +:+ ",format=yuva420p,"
    +:+ "loop=loop=" +:+ Js.number_to_string loopCount +:+ ":size=1:start=0,"
    +:+ "trim=duration=" +:+ Js.number_to_string duration
    +:+ ",setpts=PTS-STARTPTS[v" +:+ pretty i +:+ "]".

(** The three labels of iteration [i] of the second loop. *)
Definition inputA (i : nat) : string :=
  if (i =? 0)%nat then "v" +:+ pretty i else "vout" +:+ pretty i.

Definition inputB (i : nat) : string := "v" +:+ pretty (i + 1)%nat.

Definition outputLabel (numImages : nat) (i : nat) : string :=
  if Z.of_nat i =? Z.of_nat numImages - 2 then "vfinal"
  else "vout" +:+ pretty (i + 1)%nat.

Definition xfade_statement (numImages : nat) (i : nat) (offset : Double.t) : string :=
  "[" +:+ inputA i +:+ "][" +:+ inputB i +:+ "]xfade=transition=fade:duration="
    +:+ Js.number_to_string (transitionDuration this)
    +:+ ":offset=" +:+ Js.toFixed2 offset
    +:+ "[" +:+ outputLabel numImages i +:+ "]".

(** [for (let i = 0; i < numImages; i++)], with [k] iterations left. *)
Fixpoint transform_loop (numImages : nat) (width height : Z) (k i : nat) : list string :=
  match k with
  | O => []
  | S k' => transform_statement numImages width height i
              :: transform_loop numImages width height k' (S i)
  end.

(** [for (let i = 0; i < numImages - 1; i++)], threading [offset]. *)
Fixpoint xfade_loop (numImages : nat) (k i : nat) (offset : Double.t) : list string :=
  match k with
  | O => []
  | S k' => xfade_statement numImages i offset
              :: xfade_loop numImages k' (S i) (Double.add offset (displayDuration this))
  end.

(** The array [filters] at the end of [buildFilterComplex]. *)
Definition filters (numImages : nat) (width height : Z) : list string :=
  transform_loop numImages width height numImages 0%nat
    ++ xfade_loop numImages (numImages - 1)%nat 0%nat (displayDuration this).

Definition buildFilterComplex (numImages : nat) (width height : Z) : string :=
  String.concat ";" (filters numImages width height).

(** The argument vector that [process] hands to the engine. *)
Definition ffmpegArgs (inputFiles : list string) (filterComplex outputFile : string)
  : list string :=
  flat_map (fun file => ["-i"; file]) inputFiles
    ++ ["-filter_complex"; filterComplex;
        "-map"; "[vfinal]";
        "-c:v"; "libx264";
        "-pix_fmt"; "yuv420p";
        "-preset"; "fast";
        "-movflags"; "+faststart";
        "-y";
        outputFile].

End Compiler.

(** ** Files, the shared state and the engine *)

Definition Bytes := list Byte.byte.

(** A browser [File]: name, MIME type, size and content; [file_dims] is
    what loading it into an [Image] gives (its natural width and height,
    or [None] when [onerror] fires). *)
Record File := {
  file_name : string;
  file_type : string;
  file_size : Z;
  file_data : Bytes;
  file_dims : option (Z * Z)
}.

(** The keys of [stateManager.state] that the slideshow tool touches. *)
Record AppState := {
  ffmpegLoaded : bool;
  ffmpegLoading : bool;
  processing : bool;
  progress : Z;
  progressMessage : string;
  error : option string
}.

(** One [key: value] entry of the object given to [setState]. *)
Inductive Update :=
| ffmpegLoaded_to (b : bool)
| ffmpegLoading_to (b : bool)
| processing_to (b : bool)
| progress_to (z : Z)
| progressMessage_to (s : string)
| error_to (e : option string).

(** Who called [setState] (kept in the trace only). *)
Inductive Origin := Orchestrator | Manager | EngineCallback | UserInterface.

Global Instance Origin_eq_dec : EqDecision Origin.
Proof. solve_decision. Defined.

(** What a run does to the state and to the engine, in order. *)
Inductive Event :=
| SetProgress (who : Origin) (value : Z)
| EngineLoad
| EngineWrite (name : string)
| EngineExec (args : list string)
| EngineRead (name : string)
| EngineDelete (name : string).

Global Instance Event_eq_dec : EqDecision Event.
Proof. solve_decision. Defined.

Record World := {
  state : AppState;             (* stateManager.state *)
  waiting : list nat;           (* subscribers of 'ffmpegLoaded' left by initialize *)
  resolved : list (nat * bool); (* their promises, once resolved *)
  loaded : bool;                (* ffmpegManager.loaded *)
  vfs : gmap string Bytes;      (* the engine's working storage *)
  trace : list Event
}.

(** The constructors of [StateManager] and [FFmpegManager]. *)
Definition new_AppState : AppState :=
  {| ffmpegLoaded := false; ffmpegLoading := false; processing := false;
     progress := 0; progressMessage := ""; error := None |}.

Definition new_World : World :=
  {| state := new_AppState; waiting := []; resolved := []; loaded := false;
     vfs := ∅; trace := [] |}.

Definition with_state (s : AppState) (w : World) : World :=
  {| state := s; waiting := waiting w; resolved := resolved w;
     loaded := loaded w; vfs := vfs w; trace := trace w |}.

Definition with_loaded (b : bool) (w : World) : World :=
  {| state := state w; waiting := waiting w; resolved := resolved w;
     loaded := b; vfs := vfs w; trace := trace w |}.

Definition with_vfs (m : gmap string Bytes) (w : World) : World :=
  {| state := state w; waiting := waiting w; resolved := resolved w;
     loaded := loaded w; vfs := m; trace := trace w |}.

Definition log (es : list Event) (w : World) : World :=
  {| state := state w; waiting := waiting w; resolved := resolved w;
     loaded := loaded w; vfs := vfs w; trace := trace w ++ es |}.

Module StateManager.

(** [this.state[key] !== value] *)
Definition changed (s : AppState) (u : Update) : bool :=
  match u with
  | ffmpegLoaded_to b => negb (Bool.eqb (ffmpegLoaded s) b)
  | ffmpegLoading_to b => negb (Bool.eqb (ffmpegLoading s) b)
  | processing_to b => negb (Bool.eqb (processing s) b)
  | progress_to z => negb (progress s =? z)
  | progressMessage_to m => negb (String.eqb (progressMessage s) m)
  | error_to e => negb (bool_decide (error s = e))
  end.

(** [this.state[key] = value] *)
Definition assign (s : AppState) (u : Update) : AppState :=
  match u with
  | ffmpegLoaded_to b =>
      {| ffmpegLoaded := b; ffmpegLoading := ffmpegLoading s; processing := processing s;
         progress := progress s; progressMessage := progressMessage s; error := error s |}
  | ffmpegLoading_to b =>
      {| ffmpegLoaded := ffmpegLoaded s; ffmpegLoading := b; processing := processing s;
         progress := progress s; progressMessage := progressMessage s; error := error s |}
  | processing_to b =>
      {| ffmpegLoaded := ffmpegLoaded s; ffmpegLoading := ffmpegLoading s; processing := b;
         progress := progress s; progressMessage := progressMessage s; error := error s |}
  | progress_to z =>
      {| ffmpegLoaded := ffmpegLoaded s; ffmpegLoading := ffmpegLoading s;
         processing := processing s;
         progress := z; progressMessage := progressMessage s; error := error s |}
  | progressMessage_to m =>
      {| ffmpegLoaded := ffmpegLoaded s; ffmpegLoading := ffmpegLoading s;
         processing := processing s;
         progress := progress s; progressMessage := m; error := error s |}
  | error_to e =>
      {| ffmpegLoaded := ffmpegLoaded s; ffmpegLoading := ffmpegLoading s;
         processing := processing s;
         progress := progress s; progressMessage := progressMessage s; error := e |}
  end.

(** [notify(key, value)] for the subscribers that live in [World]: the
    callbacks that [FFmpegManager.initialize] leaves on 'ffmpegLoaded',
    each of which unsubscribes itself and resolves its promise with the
    new value.  The subscribers of the other keys are user-interface
    components (see [ProgressBar]). *)
Definition notify (w : World) (u : Update) : World :=
  match u with
  | ffmpegLoaded_to b =>
      {| state := state w; waiting := [];
         resolved := resolved w ++ map (fun c => (c, b)) (waiting w);
         loaded := loaded w; vfs := vfs w; trace := trace w |}
  | _ => w
  end.

Definition progress_events (who : Origin) (updates : list Update) : list Event :=
  flat_map (fun u => match u with progress_to z => [SetProgress who z] | _ => [] end)
           updates.

(** One turn of the loop over [Object.entries(updates)]. *)
Definition apply_update (acc : AppState * list Update) (u : Update)
  : AppState * list Update :=
  let (s, changedKeys) := acc in
  if changed s u then (assign s u, changedKeys ++ [u]) else (s, changedKeys).

Definition setState (who : Origin) (updates : list Update) (w : World) : World :=
  let (s, changedKeys) := foldl apply_update (state w, []) updates in
  let w1 := log (progress_events who updates) (with_state s w) in
  foldl notify w1 changedKeys.

Definition subscribe_ffmpegLoaded (caller : nat) (w : World) : World :=
  {| state := state w; waiting := waiting w ++ [caller]; resolved := resolved w;
     loaded := loaded w; vfs := vfs w; trace := trace w |}.

End StateManager.

(** ** Asynchronous code as state passing *)

(** How an awaited call ends: it returns, it throws, or it stays
    suspended on an event that no step of the run itself produces. *)
Inductive Outcome (A : Type) :=
| Return (a : A)
| Throw (message : string)
| Pending.
Arguments Return {A} a.
Arguments Throw {A} message.
Arguments Pending {A}.

Definition M (A : Type) : Type := World -> Outcome A * World.

Definition ret {A} (a : A) : M A := fun w => (Return a, w).

Definition throw {A} (message : string) : M A := fun w => (Throw message, w).

Definition bind {A B} (m : M A) (k : A -> M B) : M B :=
  fun w =>
    match m w with
    | (Return a, w') => k a w'
    | (Throw e, w') => (Throw e, w')
    | (Pending, w') => (Pending, w')
    end.

(** A synchronous statement that cannot throw. *)
Definition sync (f : World -> World) : M unit := fun w => (Return tt, f w).

(** [try { m } catch (error) { handler error }] *)
Definition try_catch {A} (m : M A) (handler : string -> M A) : M A :=
  fun w =>
    match m w with
    | (Throw e, w') => handler e w'
    | r => r
    end.

(** [try { m } finally { f }], for an [f] that cannot throw. *)
Definition try_finally {A} (m : M A) (f : World -> World) : M A :=
  fun w =>
    match m w with
    | (Pending, w') => (Pending, w')
    | (o, w') => (o, f w')
    end.

Notation "'let*' x ':=' m 'in' k" := (bind m (fun x => k))
  (at level 10, x pattern, m at level 100, k at level 200).
Notation "m ';;' k" := (bind m (fun _ => k))
  (at level 100, k at level 200, right associativity).

(** How [ffmpeg.exec] ends: it rejects, or it resolves, having written
    the output file or not. *)
Inductive ExecResult :=
| ExecRejects
| ExecResolves (output : option Bytes).

(** The answers of the browser and of ffmpeg.wasm during one run. *)
Record Env := {
  sharedArrayBuffer : bool;     (* typeof SharedArrayBuffer !== 'undefined' *)
  load_progress : list Q;       (* 'progress' events while ffmpeg.load is pending *)
  load_ok : bool;               (* ffmpeg.load resolves (or rejects) *)
  write_ok : string -> bool;    (* ffmpeg.writeFile(name, _) resolves (or rejects) *)
  exec_progress : list Q;       (* 'progress' events while ffmpeg.exec is pending *)
  exec_result : ExecResult
}.

(** ** image-analyzer.ts *)

Definition getImageDimensions (file : File) : option (Z * Z) := file_dims file.

(** [Math.max(...l)] for a list that is not empty ([process] has checked
    that before); on the empty list JavaScript gives -Infinity, which the
    model does not have. *)
Definition math_max (l : list Z) : Z :=
  match l with
  | [] => 0
  | x :: l' => foldl Z.max x l'
  end.

(** [Promise.all] rejects as soon as one image fails to load. *)
Definition analyzeImages (files : list File) : M (Z * Z) :=
  match mapM getImageDimensions files with
  | None => throw "Failed to load image"
  | Some dimensions =>
      ret (math_max (map fst dimensions), math_max (map snd dimensions))
  end.

(** ** FFmpegManager *)

Section Engine.

Variable env : Env.

(** The callback registered with [ffmpeg.on('progress', ...)]; [ratio]
    is the value of the finite double that the engine reports. *)
Definition on_progress (ratio : Q) (w : World) : World :=
  StateManager.setState EngineCallback
    [progress_to (Js.math_round (Double.mul (Double.round ratio) (Double.of_Z 100)))] w.

(** [initialize] up to its first suspension: it returns at once, it
    subscribes to 'ffmpegLoaded' and waits, or it starts [ffmpeg.load]. *)
Inductive InitPhase := InitDone (ready : bool) | InitWaiting | InitLoading.

Definition initialize_begin (caller : nat) (w : World) : InitPhase * World :=
  if loaded w then (InitDone true, w)
  else if ffmpegLoading (state w) then
    (InitWaiting, StateManager.subscribe_ffmpegLoaded caller w)
  else if negb (sharedArrayBuffer env) then
    (InitDone false,
     StateManager.setState Manager
       [error_to (Some MESSAGES.ERROR_NO_SHAREDARRAYBUFFER)] w)
  else
    (InitLoading,
     log [EngineLoad]
       (StateManager.setState Manager
          [ffmpegLoading_to true;
           progressMessage_to MESSAGES.LOADING_FFMPEG;
           progress_to 0] w)).

(** [initialize] after [await this.ffmpeg.load(...)] has settled. *)
Definition initialize_resume (ok : bool) (w : World) : bool * World :=
  if ok then
    (true,
     StateManager.setState Manager
       [ffmpegLoaded_to true; ffmpegLoading_to false; progress_to 100]
       (with_loaded true w))
  else
    (false,
     StateManager.setState Manager
       [ffmpegLoading_to false; error_to (Some MESSAGES.ERROR_FFMPEG_LOAD)] w).

(** [initialize] within one run, nothing else being scheduled while the
    load is pending. *)
Definition initialize (caller : nat) : M bool :=
  fun w =>
    match initialize_begin caller w with
    | (InitDone ready, w') => (Return ready, w')
    | (InitWaiting, w') => (Pending, w')
    | (InitLoading, w') =>
        let (ready, w'') :=
          initialize_resume (load_ok env)
            (foldl (fun w r => on_progress r w) w' (load_progress env)) in
        (Return ready, w'')
    end.

Definition execute (args : list string) : M unit :=
  fun w =>
    if negb (loaded w) then (Throw "FFmpeg not loaded", w)
    else
      let w1 := foldl (fun w r => on_progress r w)
                      (log [EngineExec args] w) (exec_progress env) in
      match exec_result env with
      | ExecRejects => (Throw "ffmpeg.exec rejected", w1)
      | ExecResolves None => (Return tt, w1)
      | ExecResolves (Some out) =>
          (Return tt, with_vfs (<[List.last args "" := out]> (vfs w1)) w1)
      end.

Definition writeFile (filename : string) (data : Bytes) : M unit :=
  fun w =>
    if negb (loaded w) then (Throw "FFmpeg not loaded", w)
    else if write_ok env filename then
      (Return tt, with_vfs (<[filename := data]> (vfs w)) (log [EngineWrite filename] w))
    else (Throw "ffmpeg.writeFile rejected", log [EngineWrite filename] w).

Definition readFile (filename : string) : M Bytes :=
  fun w =>
    if negb (loaded w) then (Throw "FFmpeg not loaded", w)
    else
      match vfs w !! filename with
      | Some data => (Return data, log [EngineRead filename] w)
      | None => (Throw "ENOENT", log [EngineRead filename] w)
      end.

(** [ffmpeg.deleteFile] rejects for a file that is absent; the [catch]
    of [deleteFile] swallows that. *)
Definition deleteFile (filename : string) : M unit :=
  fun w =>
    if negb (loaded w) then (Return tt, w)
    else
      try_catch
        (fun w =>
           match vfs w !! filename with
           | Some _ => (Return tt, with_vfs (delete filename (vfs w))
                                            (log [EngineDelete filename] w))
           | None => (Throw "ENOENT", log [EngineDelete filename] w)
           end)
        (fun _ => ret tt) w.

Fixpoint cleanup (filenames : list string) : M unit :=
  match filenames with
  | [] => ret tt
  | filename :: rest => deleteFile filename ;; cleanup rest
  end.

End Engine.

(** ** SlideshowProcessor.process *)

Section Pipeline.

Variable env : Env.
Variable this : SlideshowProcessor.

(** [parts.pop()?.toLowerCase() ?? 'jpg'] where [parts] is
    [file.name.split('.')]. *)
Definition getExtension (file : File) : string :=
  match List.last (map Some (Js.split "." (file_name file))) None with
  | Some part => Js.toLowerCase part
  | None => "jpg"
  end.

Definition staged_name (i : nat) (file : File) : string :=
  "input" +:+ pretty i +:+ "." +:+ getExtension file.

(** [20 + Math.floor((i / files.length) * 20)], on the quotient itself.
    The code divides and multiplies in doubles ([uploadProgress_doubles]
    below), which gives the same numbers for the lists of up to 50
    files; validation admits 20 ([uploadProgress_doubles_agree]). *)
Definition uploadProgress (i total : nat) : Z :=
  20 + Js.math_floor (inject_Z (Z.of_nat i) / inject_Z (Z.of_nat total) * 20)%Q.

(** (0 / 0 is NaN, for the empty list, which the loop never sees.) *)
Definition uploadProgress_doubles (i total : nat) : Z :=
  match Double.mul (Double.div (Double.of_Z (Z.of_nat i)) (Double.of_Z (Z.of_nat total)))
                   (Double.of_Z 20) with
  | Double.Finite q => 20 + Js.math_floor q
  | _ => 0
  end.

(** The staging loop, [rest] being [files] from index [i] on.  (The
    guard [if (!file) continue] never fires on a [File].) *)
Fixpoint stage (total : nat) (rest : list File) (i : nat) (inputFiles : list string)
  : M (list string) :=
  match rest with
  | [] => ret inputFiles
  | file :: rest' =>
      let filename := staged_name i file in
      writeFile env filename (file_data file) ;;
      sync (StateManager.setState Orchestrator [progress_to (uploadProgress i total)]) ;;
      stage total rest' (S i) (inputFiles ++ [filename])
  end.

Definition outputFile : string := "slideshow.mp4".

(** The body of the [try] block. *)
Definition process_body (files : list File) (width height : Z) : M Bytes :=
  let* inputFiles := stage (length files) files 0%nat [] in
  sync (StateManager.setState Orchestrator [progress_to 40]) ;;
  let filterComplex := buildFilterComplex this (length inputFiles) width height in
  execute env (ffmpegArgs inputFiles filterComplex outputFile) ;;
  sync (StateManager.setState Orchestrator [progress_to 90]) ;;
  let* result := readFile outputFile in
  cleanup (inputFiles ++ [outputFile]) ;;
  sync (StateManager.setState Orchestrator
          [progress_to 100; progressMessage_to MESSAGES.PROCESSING_COMPLETE]) ;;
  ret result.

(** [run] names the promise of this call, should it have to wait for
    an initialization that is already in flight. *)
Definition process (run : nat) (files : list File) : M Bytes :=
  if (length files <? 2)%nat then throw "At least 2 images required"
  else
    sync (StateManager.setState Orchestrator
            [processing_to true;
             progressMessage_to MESSAGES.ANALYZING_IMAGES;
             progress_to 5]) ;;
    let* analysis := analyzeImages files in
    let '(maxWidth, maxHeight) := analysis in
    let width := maxWidth + Z.rem maxWidth 2 in
    let height := maxHeight + Z.rem maxHeight 2 in
    sync (StateManager.setState Orchestrator
            [progressMessage_to MESSAGES.LOADING_FFMPEG; progress_to 10]) ;;
    let* ffmpegReady := initialize env run in
    if negb ffmpegReady then throw MESSAGES.ERROR_FFMPEG_LOAD
    else
      sync (StateManager.setState Orchestrator
              [progressMessage_to MESSAGES.GENERATING_VIDEO; progress_to 20]) ;;
      try_finally
        (try_catch (process_body files width height)
                   (fun _ => throw MESSAGES.ERROR_PROCESSING))
        (StateManager.setState Orchestrator [processing_to false]).

End Pipeline.

(** ** validation.ts *)

Record ValidationResult := { valid : bool; validation_error : option string }.

Definition extension_of (file : File) : string :=
  "." +:+ match List.last (map Some (Js.split "." (file_name file))) None with
          | Some part => Js.toLowerCase part
          | None => "undefined"
          end.

Definition includes (l : list string) (s : string) : bool :=
  existsb (String.eqb s) l.

Definition validateFile (file : File) : ValidationResult :=
  if negb (includes CONFIG.ACCEPTED_FORMATS (extension_of file)) then
    {| valid := false; validation_error := Some MESSAGES.ERROR_INVALID_FORMAT |}
  else if negb (includes CONFIG.ACCEPTED_MIME_TYPES (file_type file)) then
    {| valid := false; validation_error := Some MESSAGES.ERROR_INVALID_FORMAT |}
  else if CONFIG.MAX_FILE_SIZE <? file_size file then
    {| valid := false; validation_error := Some MESSAGES.ERROR_FILE_TOO_LARGE |}
  else {| valid := true; validation_error := None |}.

Fixpoint validate_each (files : list File) : ValidationResult :=
  match files with
  | [] => {| valid := true; validation_error := None |}
  | file :: rest =>
      let result := validateFile file in
      if negb (valid result) then result else validate_each rest
  end.

Definition validateSlideshowFiles (files : list File) : ValidationResult :=
  if (length files <? 2)%nat then
    {| valid := false; validation_error := Some MESSAGES.ERROR_MIN_FILES_SLIDESHOW |}
  else if (CONFIG.MAX_FILES_SLIDESHOW <? length files)%nat then
    {| valid := false; validation_error := Some MESSAGES.ERROR_MAX_FILES |}
  else validate_each files.

(** ** SlideshowController.generate *)

Record SlideshowController := {
  files : list File;
  processor : SlideshowProcessor;
  errorText : option string;      (* the text of errorEl while it is shown *)
  shownResult : option Bytes;     (* the video given to showResult *)
  generateDisabled : bool         (* generateBtn.disabled *)
}.

Module Controller.

Definition showError (message : string) (c : SlideshowController) : SlideshowController :=
  {| files := files c; processor := processor c; errorText := Some message;
     shownResult := shownResult c; generateDisabled := generateDisabled c |}.

Definition hideError (c : SlideshowController) : SlideshowController :=
  {| files := files c; processor := processor c; errorText := None;
     shownResult := shownResult c; generateDisabled := generateDisabled c |}.

Definition showResult (data : Bytes) (c : SlideshowController) : SlideshowController :=
  {| files := files c; processor := processor c; errorText := errorText c;
     shownResult := Some data; generateDisabled := generateDisabled c |}.

Definition hideResult (c : SlideshowController) : SlideshowController :=
  {| files := files c; processor := processor c; errorText := errorText c;
     shownResult := None; generateDisabled := generateDisabled c |}.

Definition set_disabled (b : bool) (c : SlideshowController) : SlideshowController :=
  {| files := files c; processor := processor c; errorText := errorText c;
     shownResult := shownResult c; generateDisabled := b |}.

Definition set_durations (d t : Double.t) (c : SlideshowController) : SlideshowController :=
  {| files := files c;
     processor := {| displayDuration := d; transitionDuration := t;
                     fps := fps (processor c) |};
     errorText := errorText c; shownResult := shownResult c;
     generateDisabled := generateDisabled c |}.

(** [parseFloat(input.value) || fallback]: zero and NaN are the falsy
    numbers. *)
Definition or_default (parsed fallback : Double.t) : Double.t :=
  if Double.falsy parsed then fallback else parsed.

Definition display_message : string :=
  "Display time must be between " +:+ Js.number_to_string CONFIG.DISPLAY_DURATION_MIN
    +:+ " and " +:+ Js.number_to_string CONFIG.DISPLAY_DURATION_MAX +:+ " seconds".

Definition fade_message : string :=
  "Fade time must be between " +:+ Js.number_to_string CONFIG.TRANSITION_DURATION_MIN
    +:+ " and " +:+ Js.number_to_string CONFIG.TRANSITION_DURATION_MAX +:+ " seconds".

(** [generate], the two arguments being what [parseFloat] makes of the
    two input fields. *)
Definition generate (env : Env) (run : nat) (displayInput transitionInput : Double.t)
    (c : SlideshowController) (w : World) : SlideshowController * World :=
  let c := hideResult (hideError c) in
  let w := StateManager.setState UserInterface [error_to None] w in
  let validation := validateSlideshowFiles (files c) in
  if negb (valid validation) then
    (showError (default "Validation failed" (validation_error validation)) c, w)
  else
    let displayDuration := or_default displayInput CONFIG.DISPLAY_DURATION in
    let transitionDuration := or_default transitionInput CONFIG.TRANSITION_DURATION in
    if Double.ltb displayDuration CONFIG.DISPLAY_DURATION_MIN
       || Double.ltb CONFIG.DISPLAY_DURATION_MAX displayDuration
    then (showError display_message c, w)
    else if Double.ltb transitionDuration CONFIG.TRANSITION_DURATION_MIN
            || Double.ltb CONFIG.TRANSITION_DURATION_MAX transitionDuration
    then (showError fade_message c, w)
    else
      let c := set_durations displayDuration transitionDuration (set_disabled true c) in
      match process env (processor c) run (files c) w with
      | (Return result, w') =>
          (set_disabled (length (files c) <? 2)%nat (showResult result c), w')
      | (Throw message, w') =>
          (set_disabled (length (files c) <? 2)%nat (showError message c), w')
      | (Pending, w') => (c, w')
      end.

End Controller.

(** ** ProgressBar *)

Module ProgressBar.

Record t := {
  currentProgress : Z;
  fillWidth : Z;          (* fillEl.style.width, in percent *)
  percentage : Z;         (* the number in percentageEl.textContent *)
  complete : bool;        (* fillEl has the class 'complete' *)
  hidden : bool;          (* progressContainer has the class 'hidden' *)
  message : string        (* messageEl.textContent *)
}.

(** The constructor, with [render]. *)
Definition new : t :=
  {| currentProgress := 0; fillWidth := 0; percentage := 0; complete := false;
     hidden := true; message := "" |}.

Definition clamp (progress : Z) : Z := Z.min 100 (Z.max 0 progress).

Definition updateProgress (progress : Z) (b : t) : t :=
  let clampedProgress := clamp progress in
  if clampedProgress <? currentProgress b then b
  else
    {| currentProgress := clampedProgress;
       fillWidth := clampedProgress;
       percentage := clampedProgress;
       complete := 100 <=? clampedProgress;
       hidden := hidden b; message := message b |}.

Definition updateMessage (m : string) (b : t) : t :=
  {| currentProgress := currentProgress b; fillWidth := fillWidth b;
     percentage := percentage b; complete := complete b; hidden := hidden b;
     message := m |}.

Definition show (b : t) : t :=
  {| currentProgress := currentProgress b; fillWidth := fillWidth b;
     percentage := percentage b; complete := complete b; hidden := false;
     message := message b |}.

Definition hide (b : t) : t :=
  updateMessage ""
    (updateProgress 0
       {| currentProgress := 0; fillWidth := fillWidth b; percentage := percentage b;
          complete := complete b; hidden := true; message := message b |}).

(** What can reach the bar: the three subscriptions, and the timers
    that call [hide]. *)
Inductive Op :=
| OnProgress (progress : Z)
| OnMessage (m : string)
| Show
| Hide.

Definition step (b : t) (op : Op) : t :=
  match op with
  | OnProgress progress => updateProgress progress b
  | OnMessage m => updateMessage m b
  | Show => show b
  | Hide => hide b
  end.

Definition run (ops : list Op) : t := foldl step new ops.

End ProgressBar.

(** ** Several callers of [initialize] on one event loop *)

Module Scheduler.

(** A caller enters [initialize]; or the pending [ffmpeg.load] settles
    and the caller that started it continues. *)
Inductive Step :=
| Call (caller : nat)
| LoadSettles (ok : bool).

Record t := {
  world : World;
  owner : option nat;             (* the caller suspended on ffmpeg.load *)
  returned : list (nat * bool)    (* the calls that have returned *)
}.

Definition new : t := {| world := new_World; owner := None; returned := [] |}.

Definition step (env : Env) (s : t) (e : Step) : t :=
  match e with
  | Call caller =>
      match initialize_begin env caller (world s) with
      | (InitDone ready, w) =>
          {| world := w; owner := owner s; returned := returned s ++ [(caller, ready)] |}
      | (InitWaiting, w) =>
          {| world := w; owner := owner s; returned := returned s |}
      | (InitLoading, w) =>
          {| world := w; owner := Some caller; returned := returned s |}
      end
  | LoadSettles ok =>
      match owner s with
      | Some caller =>
          let (ready, w) := initialize_resume ok (world s) in
          {| world := w; owner := None; returned := returned s ++ [(caller, ready)] |}
      | None => s
      end
  end.

Definition run (env : Env) (steps : list Step) : t := foldl (step env) new steps.

Fixpoint assoc (caller : nat) (l : list (nat * bool)) : option bool :=
  match l with
  | [] => None
  | (c, b) :: l' => if (c =? caller)%nat then Some b else assoc caller l'
  end.

(** What the promise of [caller] has settled to, if it has. *)
Definition outcome (caller : nat) (s : t) : option bool :=
  match assoc caller (returned s) with
  | Some b => Some b
  | None => assoc caller (resolved (world s))
  end.

(** How many times [ffmpeg.load] was started. *)
Definition loads (s : t) : nat :=
  length (filter (fun e => e = EngineLoad) (trace (world s))).

End Scheduler.

(** ** Notions used to state the properties *)

(** The value of the variable [offset] of [buildFilterComplex] when
    iteration [i] of the crossfade loop starts. *)
Definition crossfade_offset (this : SlideshowProcessor) (i : nat) : Double.t :=
  Nat.iter i (fun offset => Double.add offset (displayDuration this))
           (displayDuration this).

Definition is_digit (c : ascii) : bool :=
  ((48 <=? nat_of_ascii c) && (nat_of_ascii c <=? 57))%nat.

Fixpoint digits_only (s : string) : bool :=
  match s with
  | "" => true
  | String c s' => is_digit c && digits_only s'
  end.

Fixpoint occurs (c : ascii) (s : string) : bool :=
  match s with
  | "" => false
  | String c' s' => Ascii.eqb c' c || occurs c s'
  end.


Definition orchestrator_progress (t : list Event) : list Z :=
  omap (fun e => match e with SetProgress Orchestrator v => Some v | _ => None end) t.

(** [l] never steps down, starts at [lo] or above and ends at [hi] or
    below. *)
Fixpoint climbs (lo hi : Z) (l : list Z) : Prop :=
  match l with
  | [] => lo <= hi
  | v :: l' => lo <= v /\ climbs v hi l'
  end.

(** The names under which [process] stages [files]. *)
Definition staged_names (files : list File) : list string :=
  imap staged_name files.

(** [m] extends the trace, and the orchestrator's own progress values in
    the extension climb from [lo] to [hi]. *)
Definition advances {A} (lo hi : Z) (m : M A) : Prop :=
  forall w, exists new,
    trace (m w).2 = trace w ++ new /\ climbs lo hi (orchestrator_progress new).

(** [f] extends the trace without any progress value of the
    orchestrator. *)
Definition silent (f : World -> World) : Prop :=
  forall w, exists new, trace (f w) = trace w ++ new /\ orchestrator_progress new = [].



(** What [render], [updateProgress] and [hide] of the progress bar keep
    true. *)
Definition consistent (b : ProgressBar.t) : Prop :=
  ProgressBar.percentage b = ProgressBar.currentProgress b
  /\ ProgressBar.fillWidth b = ProgressBar.currentProgress b
  /\ 0 <= ProgressBar.currentProgress b <= 100.

(** ** Scenario A of the specification, and some engines *)

Definition jpeg (n : string) (width height : Z) : File :=
  {| file_name := n; file_type := "image/jpeg"; file_size := 1000;
     file_data := []; file_dims := Some (width, height) |}.

Definition scenarioA : SlideshowProcessor := new_SlideshowProcessor.

Definition scenarioA_files : list File :=
  [jpeg "a.jpg" 100 200; jpeg "b.jpg" 300 100; jpeg "c.jpg" 200 200].

(** A slideshow with a display time of 0.505 seconds. *)
Definition drifting : SlideshowProcessor :=
  {| displayDuration := Double.round (505 # 1000);
     transitionDuration := CONFIG.TRANSITION_DURATION;
     fps := CONFIG.VIDEO_FPS |}.

(** A slideshow with a display time of 8 and a fade time of 0.3
    seconds. *)
Definition eight_point_three : SlideshowProcessor :=
  {| displayDuration := Double.of_Z 8;
     transitionDuration := Double.round (3 # 10);
     fps := CONFIG.VIDEO_FPS |}.

(** A slideshow whose inner slides last (254 * 2^48 + 1) / 15 / 2^49
    seconds, a double: that much less the fade time of 0.5 seconds is
    the display time, a double between 7.9 and 8. *)
Definition one_frame_short : SlideshowProcessor :=
  {| displayDuration :=
       Double.round (((254 * 2 ^ 48 + 1) / 15 - 2 ^ 48) # (2 ^ 49));
     transitionDuration := Double.round (5 # 10);
     fps := CONFIG.VIDEO_FPS |}.

(** An engine that loads and runs without a fault. *)
Definition env_ok : Env :=
  {| sharedArrayBuffer := true; load_progress := []; load_ok := true;
     write_ok := fun _ => true; exec_progress := [(1 # 4)%Q; (1 # 2)%Q];
     exec_result := ExecResolves (Some []) |}.

(** A browser without SharedArrayBuffer. *)
Definition env_no_sab : Env :=
  {| sharedArrayBuffer := false; load_progress := []; load_ok := true;
     write_ok := fun _ => true; exec_progress := [];
     exec_result := ExecResolves (Some []) |}.

(** An engine whose [exec] rejects. *)
Definition env_exec_rejects : Env :=
  {| sharedArrayBuffer := true; load_progress := []; load_ok := true;
     write_ok := fun _ => true; exec_progress := [];
     exec_result := ExecRejects |}.

(** A file whose name has no dot. *)
Definition photo : File := jpeg "photo" 640 480.

(** An engine whose [load] rejects. *)
Definition env_load_rejects : Env :=
  {| sharedArrayBuffer := true; load_progress := []; load_ok := false;
     write_ok := fun _ => true; exec_progress := [];
     exec_result := ExecResolves (Some []) |}.

(** Scenario C: a transition duration of 5 seconds. *)
Definition scenarioC_controller : SlideshowController :=
  {| files := scenarioA_files; processor := new_SlideshowProcessor;
     errorText := None; shownResult := None; generateDisabled := false |}.

(** ** The rest of the slideshow tool's code *)

(** validation.ts, the comparison tool's check. *)
Definition ERROR_MIN_FILES_COMPARISON : string := "Please upload exactly 2 images".

Definition validateComparisonFiles (files : list File) : ValidationResult :=
  if negb (length files =? 2)%nat then
    {| valid := false; validation_error := Some ERROR_MIN_FILES_COMPARISON |}
  else validate_each files.

(** The two numbers that [buildFilterComplex] computes next to the
    duration of slide [i]. *)
Definition frameCount (this : SlideshowProcessor) (i numImages : nat) : Double.t :=
  Double.ceil (Double.mul (calculateDuration this (Z.of_nat i) (Z.of_nat numImages))
                          (fps this)).

Definition loopCount (this : SlideshowProcessor) (i numImages : nat) : Double.t :=
  Double.max (Double.of_Z 0) (Double.sub (frameCount this i numImages) (Double.of_Z 1)).

(** [maxWidth + (maxWidth % 2)], the way [process] makes a side of the
    canvas even. *)
Definition even_side (side : Z) : Z := side + Z.rem side 2.

(** The calls into the engine in a stretch of the trace. *)
Definition is_engine_event (e : Event) : bool :=
  match e with SetProgress _ _ => false | _ => true end.

Definition engine_events (t : list Event) : list Event :=
  filter (fun e => is_engine_event e = true) t.

(** The labels that the statements of a graph for [numImages] inputs
    define, in the order of the statements. *)
Definition output_labels (numImages : nat) : list string :=
  map (fun i => "v" +:+ pretty i) (seq 0 numImages)
    ++ map (outputLabel numImages) (seq 0 (numImages - 1)).

(** [stateManager.reset()], on the keys of [AppState] ([uploadedFiles]
    and [result], which it also clears, are not part of [AppState]). *)
Definition reset (w : World) : World :=
  StateManager.setState UserInterface
    [processing_to false; progress_to 0; progressMessage_to ""; error_to None] w.

(** [w'] is [w] after steps whose calls into the engine are [es]. *)
Definition engine_calls (es : list Event) (w w' : World) : Prop :=
  exists new, trace w' = trace w ++ new /\ engine_events new = es.

(** [m] never stays suspended. *)
Definition settles {A} (m : M A) : Prop := forall w, (m w).1 <> Pending.

(** An entry for the key 'ffmpegLoaded'. *)
Definition sets_ffmpegLoaded (u : Update) : bool :=
  match u with ffmpegLoaded_to _ => true | _ => false end.

(** The [LoadSettles] steps of a schedule. *)
Definition is_settlement (e : Scheduler.Step) : bool :=
  match e with Scheduler.LoadSettles _ => true | _ => false end.

Definition settlements (steps : list Scheduler.Step) : nat :=
  length (filter (fun e => is_settlement e = true) steps).

(** The loads that are pending in a state of the scheduler: one or
    none. *)
Definition in_flight (s : Scheduler.t) : nat :=
  match Scheduler.owner s with Some _ => 1 | None => 0 end.

(** ** EventBus (core/event-bus.ts)

    [Map<string, Set<EventCallback>>]: a callback is known by its
    identity; a [Set] holds a value once and iterates in insertion
    order. *)

Module EventBus.

Definition new : gmap string (list nat) := ∅.

(** [Set.prototype.add] and [Set.prototype.delete]. *)
Definition set_add (callback : nat) (callbacks : list nat) : list nat :=
  if bool_decide (callback ∈ callbacks) then callbacks else callbacks ++ [callback].

Definition set_delete (callback : nat) (callbacks : list nat) : list nat :=
  filter (fun c => c <> callback) callbacks.

Definition on (event : string) (callback : nat) (bus : gmap string (list nat)) :
    gmap string (list nat) :=
  let bus :=
    match bus !! event with
    | Some _ => bus
    | None => <[event := []]> bus
    end in
  match bus !! event with
  | Some callbacks => <[event := set_add callback callbacks]> bus
  | None => bus
  end.

Definition off (event : string) (callback : nat) (bus : gmap string (list nat)) :
    gmap string (list nat) :=
  match bus !! event with
  | Some callbacks => <[event := set_delete callback callbacks]> bus
  | None => bus
  end.

(** What [emit] does, in order: it calls a callback; when the callback
    throws, it logs the error and goes on.  The callbacks do not
    subscribe or unsubscribe while an event is delivered. *)
Inductive Log :=
| Called (callback : nat)
| ErrorLogged (event : string) (callback : nat).

Definition emit (throws : nat -> bool) (event : string)
    (bus : gmap string (list nat)) : list Log :=
  match bus !! event with
  | Some callbacks =>
      foldl (fun log callback =>
               if throws callback
               then log ++ [Called callback; ErrorLogged event callback]
               else log ++ [Called callback])
            [] callbacks
  | None => []
  end.

(** [clear(event?)]: [None] is a call without argument; the test
    [if (event)] is false for the empty string as well. *)
Definition clear (event : option string) (bus : gmap string (list nat)) :
    gmap string (list nat) :=
  match event with
  | Some name => if String.eqb name "" then ∅ else delete name bus
  | None => ∅
  end.

Inductive Op :=
| On (event : string) (callback : nat)
| Off (event : string) (callback : nat)
| Clear (event : option string).

Definition step (bus : gmap string (list nat)) (op : Op) : gmap string (list nat) :=
  match op with
  | On event callback => on event callback bus
  | Off event callback => off event callback bus
  | Clear event => clear event bus
  end.

Definition run (ops : list Op) : gmap string (list nat) := foldl step new ops.

(** The callbacks that a log shows as called. *)
Definition called (log : list Log) : list nat :=
  flat_map (fun l => match l with Called c => [c] | ErrorLogged _ _ => [] end) log.

End EventBus.

(** * Properties *)

(** ** Rounding to the nearest double *)

(** On every pair of the sample values, the four operations give the
    number that the Standard Library's specification of binary64
    gives. *)
Lemma arithmetic_agrees_with_SpecFloat :
  agree (SpecFloat.SFadd 53 1024) Double.add
  && agree (SpecFloat.SFsub 53 1024) Double.sub
  && agree (SpecFloat.SFmul 53 1024) Double.mul
  && agree (SpecFloat.SFdiv 53 1024) Double.div = true.
Proof. vm_compute. reflexivity. Qed.

(** What JavaScript prints for some doubles. *)
Example number_to_string_examples :
  map (fun q => Js.number_to_string (Double.round q))
      [1 # 2; 1 # 10; 3; 10; 175 # 100; 1 # 3; 100000000000000000000000;
       1 # 10000000; 123456789012345678901234567890 # 1000000000; - (5 # 2)]%Q
  = ["0.5"; "0.1"; "3"; "10"; "1.75"; "0.3333333333333333"; "1e+23";
     "1e-7"; "123456789012345680000"; "-2.5"]
  /\ map Js.number_to_string [Double.NaN; Double.PosInf; Double.NegInf; Double.Finite 0]
     = ["NaN"; "Infinity"; "-Infinity"; "0"]
  /\ map (fun q => Js.toFixed2 (Double.round q))
         [1005 # 1000; 2675 # 1000; 3 # 2; - (1 # 1000); 1000000000000000000000]%Q
     = ["1.00"; "2.67"; "1.50"; "-0.00"; "1e+21"].
Proof. vm_compute. repeat split; reflexivity. Qed.

Module DoubleFacts.
Import Double.

Lemma pow2_pos (e : Z) : (0 < 2 ^ e)%Q.
Proof. by apply Qpower_0_lt. Qed.

Lemma pow2_plus (a b : Z) : (2 ^ (a + b) == 2 ^ a * 2 ^ b)%Q.
Proof. by apply Qpower_plus. Qed.

Lemma pow2_le (a b : Z) : a <= b -> (2 ^ a <= 2 ^ b)%Q.
Proof. intros H. by apply Qpower_le_compat_l. Qed.

Lemma pow2_lt (a b : Z) : a < b -> (2 ^ a < 2 ^ b)%Q.
Proof. intros H. by apply Qpower_lt_compat_l. Qed.

Lemma pow2_Z (n : Z) : 0 <= n -> (2 ^ n == inject_Z (2 ^ n))%Q.
Proof. intros H. symmetry. by apply (Zpower_Qpower 2 n). Qed.

Lemma pow2_lt_inv (a b : Z) : (2 ^ a < 2 ^ b)%Q -> a < b.
Proof. intros H. by apply (Qpower_lt_compat_l_inv 2). Qed.

(** [ilog2] is the position of the leading bit. *)
Lemma ilog2_spec (x : Q) :
  (0 < x)%Q -> (2 ^ ilog2 x <= x)%Q /\ (x < 2 ^ (ilog2 x + 1))%Q.
Proof.
  intros Hx. unfold ilog2.
  destruct x as [n d]. simpl Qnum. simpl Qden.
  assert (Hn : 0 < n) by (unfold Qlt in Hx; simpl in Hx; lia).
  set (ln := Z.log2 n). set (ld := Z.log2 (Z.pos d)).
  destruct (Z.log2_spec n Hn) as [Hn1 Hn2]. fold ln in Hn1, Hn2.
  destruct (Z.log2_spec (Z.pos d) ltac:(lia)) as [Hd1 Hd2]. fold ld in Hd1, Hd2.
  assert (Hln : 0 <= ln) by apply Z.log2_nonneg.
  assert (Hld : 0 <= ld) by apply Z.log2_nonneg.
  assert (Ex : (n # d == inject_Z n / inject_Z (Z.pos d))%Q) by apply Qmake_Qdiv.
  assert (Hdpos : (0 < inject_Z (Z.pos d))%Q) by (rewrite <- (Zlt_Qlt 0); lia).
  (* the bounds on n and d, in Q *)
  assert (Qn1 : (2 ^ ln <= inject_Z n)%Q) by (rewrite pow2_Z by done; by rewrite <- Zle_Qle).
  assert (Qn2 : (inject_Z n < 2 ^ (ln + 1))%Q)
    by (rewrite pow2_Z by lia; by rewrite <- Zlt_Qlt).
  assert (Qd1 : (2 ^ ld <= inject_Z (Z.pos d))%Q)
    by (rewrite pow2_Z by done; by rewrite <- Zle_Qle).
  assert (Qd2 : (inject_Z (Z.pos d) < 2 ^ (ld + 1))%Q)
    by (rewrite pow2_Z by lia; by rewrite <- Zlt_Qlt).
  assert (Up : (n # d < 2 ^ (ln - ld + 1))%Q).
  { rewrite Ex. apply Qlt_shift_div_r; [done|].
    assert (E : (2 ^ (ln + 1) == 2 ^ (ln - ld + 1) * 2 ^ ld)%Q).
    { rewrite <- pow2_plus. by replace (ln - ld + 1 + ld) with (ln + 1) by lia. }
    pose proof (pow2_pos (ln - ld + 1)).
    assert ((2 ^ (ln - ld + 1) * 2 ^ ld <= 2 ^ (ln - ld + 1) * inject_Z (Z.pos d))%Q).
    { apply Qmult_le_l; done. }
    rewrite E in Qn2. lra. }
  assert (Lo : (2 ^ (ln - ld - 1) <= n # d)%Q).
  { rewrite Ex. apply Qle_shift_div_l; [done|].
    assert (E : (2 ^ ln == 2 ^ (ln - ld - 1) * 2 ^ (ld + 1))%Q).
    { rewrite <- pow2_plus. by replace (ln - ld - 1 + (ld + 1)) with ln by lia. }
    pose proof (pow2_pos (ln - ld - 1)).
    assert ((2 ^ (ln - ld - 1) * inject_Z (Z.pos d) <= 2 ^ (ln - ld - 1) * 2 ^ (ld + 1))%Q).
    { apply Qmult_le_l; [done | lra]. }
    rewrite E in Qn1. lra. }
  destruct (Qle_bool (2 ^ (ln - ld)) (n # d)) eqn:Hb.
  - apply Qle_bool_iff in Hb. split; done.
  - assert (Hlt : (n # d < 2 ^ (ln - ld))%Q).
    { apply Qnot_le_lt. intros H. apply Qle_bool_iff in H. congruence. }
    split; [done|]. by replace (ln - ld - 1 + 1) with (ln - ld) by lia.
Qed.

Lemma ilog2_unique (x : Q) (e : Z) :
  (2 ^ e <= x)%Q -> (x < 2 ^ (e + 1))%Q -> ilog2 x = e.
Proof.
  intros H1 H2.
  assert (Hx : (0 < x)%Q) by (pose proof (pow2_pos e); lra).
  destruct (ilog2_spec x Hx) as [G1 G2].
  assert (ilog2 x < e + 1) by (apply pow2_lt_inv; lra).
  assert (e < ilog2 x + 1) by (apply pow2_lt_inv; lra).
  lia.
Qed.

Lemma ilog2_mono (x y : Q) : (0 < x)%Q -> (x <= y)%Q -> ilog2 x <= ilog2 y.
Proof.
  intros Hx Hxy.
  destruct (ilog2_spec x Hx) as [G1 _].
  destruct (ilog2_spec y ltac:(lra)) as [_ G2].
  assert (ilog2 x < ilog2 y + 1) by (apply pow2_lt_inv; lra). lia.
Qed.

Lemma cexp_mono (x y : Q) : (0 < x)%Q -> (x <= y)%Q -> cexp x <= cexp y.
Proof. intros Hx Hxy. unfold cexp. pose proof (ilog2_mono x y Hx Hxy). lia. Qed.

(** Rounding to the nearest integer. *)
Lemma rne_floor (q : Q) : rne q = Qfloor q \/ rne q = Qfloor q + 1.
Proof. unfold rne. destruct (_ ?= _)%Q; [destruct (Z.even _)|..]; auto. Qed.

Lemma rne_Z (n : Z) : rne (inject_Z n) = n.
Proof.
  unfold rne. rewrite Qfloor_Z.
  destruct (Qcompare_spec (inject_Z n - inject_Z n) (1 # 2)) as [H|H|H]; [lra | done | lra].
Qed.

Lemma rne_eq_Z (q : Q) (n : Z) : (q == inject_Z n)%Q -> rne q = n.
Proof.
  intros H. unfold rne.
  assert (Hf : Qfloor q = n) by (rewrite H; apply Qfloor_Z).
  rewrite Hf.
  destruct (Qcompare_spec (q - inject_Z n) (1 # 2)) as [G|G|G]; [lra | done | lra].
Qed.

Lemma rne_mono (p q : Q) : (p <= q)%Q -> rne p <= rne q.
Proof.
  intros Hpq.
  pose proof (Qfloor_resp_le p q Hpq) as Hf.
  destruct (Z.eq_dec (Qfloor p) (Qfloor q)) as [E|NE].
  - unfold rne. rewrite <- E.
    destruct (Qcompare_spec (p - inject_Z (Qfloor p)) (1 # 2)) as [G|G|G];
      destruct (Qcompare_spec (q - inject_Z (Qfloor p)) (1 # 2)) as [G'|G'|G'];
      try destruct (Z.even (Qfloor p)); try lia; lra.
  - destruct (rne_floor p) as [-> | ->], (rne_floor q) as [-> | ->]; lia.
Qed.

Lemma rne_error (q : Q) : (Qabs (inject_Z (rne q) - q) <= 1 # 2)%Q.
Proof.
  pose proof (Qfloor_le q) as H1. pose proof (Qlt_floor q) as H2.
  rewrite inject_Z_plus in H2. change (inject_Z 1) with 1%Q in H2.
  apply Qabs_Qle_condition. unfold rne.
  destruct (Qcompare_spec (q - inject_Z (Qfloor q)) (1 # 2)) as [G|G|G].
  - destruct (Z.even _); [|rewrite inject_Z_plus; change (inject_Z 1) with 1%Q]; lra.
  - lra.
  - rewrite inject_Z_plus; change (inject_Z 1) with 1%Q. lra.
Qed.

(** Rounding of positive numbers. *)
Lemma scaled_bounds (x : Q) :
  (0 < x)%Q ->
  (x / 2 ^ cexp x < 2 ^ 53)%Q
  /\ (-1074 <= ilog2 x - 52 -> (2 ^ 52 <= x / 2 ^ cexp x)%Q).
Proof.
  intros Hx. destruct (ilog2_spec x Hx) as [G1 G2].
  pose proof (pow2_pos (cexp x)) as Hc.
  split.
  - apply Qlt_shift_div_r; [done|].
    rewrite <- pow2_plus.
    assert (ilog2 x + 1 <= 53 + cexp x) by (unfold cexp; lia).
    pose proof (pow2_le _ _ H). lra.
  - intros Hn. apply Qle_shift_div_l; [done|].
    rewrite <- pow2_plus.
    replace (52 + cexp x) with (ilog2 x) by (unfold cexp; lia). done.
Qed.

Lemma round_pos_mono (x y : Q) :
  (0 < x)%Q -> (x <= y)%Q -> (round_pos x <= round_pos y)%Q.
Proof.
  intros Hx Hxy. assert (Hy : (0 < y)%Q) by lra.
  pose proof (cexp_mono x y Hx Hxy) as Hc.
  unfold round_pos.
  destruct (Z.eq_dec (cexp x) (cexp y)) as [E|NE].
  - rewrite E. pose proof (pow2_pos (cexp y)) as Hp.
    apply Qmult_le_compat_r; [|lra].
    rewrite <- Zle_Qle. apply rne_mono.
    apply Qle_shift_div_l; [done|].
    assert (x / 2 ^ cexp y * 2 ^ cexp y == x)%Q by (field; lra). lra.
  - assert (Hlt : cexp x < cexp y) by lia.
    assert (Hny : -1074 <= ilog2 y - 52) by (unfold cexp in *; lia).
    assert (Ecy : cexp y = ilog2 y - 52) by (unfold cexp in *; lia).
    set (ey := ilog2 y) in *.
    (* y rounds to at least 2^ey *)
    assert (Hyr : (2 ^ ey <= inject_Z (rne (y / 2 ^ cexp y)) * 2 ^ cexp y)%Q).
    { destruct (scaled_bounds y Hy) as [_ Hlo]. specialize (Hlo Hny).
      assert (2 ^ 52 <= rne (y / 2 ^ cexp y)).
      { rewrite <- (rne_Z (2 ^ 52)). apply rne_mono.
        rewrite <- pow2_Z by lia. done. }
      assert (E : (2 ^ ey == inject_Z (2 ^ 52) * 2 ^ cexp y)%Q).
      { rewrite <- pow2_Z by lia. rewrite <- pow2_plus. rewrite Ecy.
        by replace (52 + (ey - 52)) with ey by lia. }
      rewrite E. apply Qmult_le_compat_r; [|pose proof (pow2_pos (cexp y)); lra].
      by rewrite <- Zle_Qle. }
    (* x rounds to at most 2^ey *)
    assert (Hxr : (inject_Z (rne (x / 2 ^ cexp x)) * 2 ^ cexp x <= 2 ^ ey)%Q).
    { assert (Hxe : ilog2 x < ey) by (unfold cexp in *; lia).
      destruct (ilog2_spec x Hx) as [_ G2].
      assert (Hk : 0 <= ey - cexp x) by (unfold cexp in *; lia).
      assert (x / 2 ^ cexp x <= inject_Z (2 ^ (ey - cexp x)))%Q.
      { apply Qle_shift_div_r; [apply pow2_pos|].
        rewrite <- pow2_Z by done. rewrite <- pow2_plus.
        replace (ey - cexp x + cexp x) with ey by lia.
        pose proof (pow2_le (ilog2 x + 1) ey ltac:(lia)). lra. }
      apply rne_mono in H. rewrite rne_Z in H.
      assert (E : (2 ^ ey == inject_Z (2 ^ (ey - cexp x)) * 2 ^ cexp x)%Q).
      { rewrite <- pow2_Z by done. rewrite <- pow2_plus.
        by replace (ey - cexp x + cexp x) with ey by lia. }
      rewrite E. apply Qmult_le_compat_r; [|pose proof (pow2_pos (cexp x)); lra].
      by rewrite <- Zle_Qle. }
    lra.
Qed.

(** A number with at most 53 significant bits, not finer than 2^-1074,
    is its own rounding. *)
Lemma round_pos_fix (x : Q) (m e : Z) :
  (x == inject_Z m * 2 ^ e)%Q -> 0 < m < 2 ^ 53 -> -1074 <= e ->
  (round_pos x == x)%Q.
Proof.
  intros Ex Hm He.
  assert (Hmq : (0 < inject_Z m)%Q) by (rewrite <- (Zlt_Qlt 0); lia).
  assert (Hx : (0 < x)%Q).
  { rewrite Ex. apply Qmult_lt_0_compat; [done | apply pow2_pos]. }
  assert (Hc : cexp x <= e).
  { destruct (ilog2_spec x Hx) as [G1 _].
    assert (x < 2 ^ (53 + e))%Q.
    { pose proof (pow2_plus 53 e) as E.
      assert (inject_Z m * 2 ^ e < 2 ^ 53 * 2 ^ e)%Q.
      { apply Qmult_lt_compat_r; [apply pow2_pos|].
        rewrite pow2_Z by lia. rewrite <- Zlt_Qlt. lia. }
      lra. }
    assert (ilog2 x < 53 + e) by (apply pow2_lt_inv; lra).
    unfold cexp. lia. }
  unfold round_pos. set (c := cexp x) in *. clearbody c.
  pose proof (pow2_pos c) as Hp.
  assert (Es : (x / 2 ^ c == inject_Z (m * 2 ^ (e - c)))%Q).
  { rewrite inject_Z_mult, <- pow2_Z by lia. rewrite Ex.
    replace e with ((e - c) + c) at 1 by lia. rewrite pow2_plus.
    field. lra. }
  rewrite (rne_eq_Z _ _ Es), <- Es. field. lra.
Qed.

(** The error of one rounding is at most half a unit in the last
    place. *)
Lemma round_pos_error (x : Q) :
  (0 < x)%Q -> (Qabs (round_pos x - x) <= 2 ^ cexp x / 2)%Q.
Proof.
  intros Hx. unfold round_pos. pose proof (pow2_pos (cexp x)) as Hp.
  pose proof (rne_error (x / 2 ^ cexp x)) as He.
  apply Qabs_Qle_condition in He as [He1 He2].
  assert (E : (x == x / 2 ^ cexp x * 2 ^ cexp x)%Q) by (field; lra).
  set (p := (2 ^ cexp x)%Q) in *. set (s := (x / p)%Q) in *.
  set (r := inject_Z (rne s)) in *. clearbody r s p.
  assert (H1 : ((- (1 # 2)) * p <= (r - s) * p)%Q) by (apply Qmult_le_compat_r; lra).
  assert (H2 : ((r - s) * p <= (1 # 2) * p)%Q) by (apply Qmult_le_compat_r; lra).
  assert (Ea : (r * p - x == (r - s) * p)%Q) by (rewrite E; ring).
  rewrite Ea. set (a := ((r - s) * p)%Q) in *. clearbody a.
  assert (Hh : (p / 2 == (1 # 2) * p)%Q) by field. rewrite Hh.
  apply Qabs_Qle_condition. split; lra.
Qed.

Lemma round_pos_nonneg (x : Q) : (0 < x)%Q -> (0 <= round_pos x)%Q.
Proof.
  intros Hx. unfold round_pos. pose proof (pow2_pos (cexp x)) as Hp.
  apply Qmult_le_0_compat; [|lra].
  rewrite <- (Zle_Qle 0). rewrite <- (rne_Z 0). apply rne_mono.
  apply Qle_shift_div_l; [done|]. change (inject_Z 0) with 0%Q. lra.
Qed.

(** [round] on the numbers that are not negative. *)
Lemma round_zero (x : Q) : (x == 0)%Q -> round x = Finite 0.
Proof. intros H. unfold round. by rewrite (proj1 (Qeq_alt x 0) H). Qed.

Lemma round_positive (x : Q) :
  (0 < x)%Q ->
  (round x = PosInf /\ (2 ^ 1024 <= round_pos x)%Q)
  \/ (exists a, round x = Finite a /\ (a == round_pos x)%Q /\ (round_pos x < 2 ^ 1024)%Q).
Proof.
  intros Hx. unfold round. rewrite (proj1 (Qgt_alt x 0) Hx).
  destruct (Qle_bool (2 ^ 1024) (round_pos x)) eqn:Hb.
  - left. split; [done|]. by apply Qle_bool_iff.
  - right. eexists. split; [reflexivity|]. split; [apply Qred_correct|].
    apply Qnot_le_lt. intros H. apply Qle_bool_iff in H. congruence.
Qed.

Lemma round_between (x y : Q) (b : Q) :
  (0 <= x)%Q -> (x <= y)%Q -> round y = Finite b ->
  exists a, round x = Finite a /\ (0 <= a)%Q /\ (a <= b)%Q.
Proof.
  intros Hx Hxy Hy.
  destruct (Qlt_le_dec 0 x) as [Hpos|Hzero].
  - destruct (round_positive y ltac:(lra)) as [[E _] | (b' & E & Eb & Hb)]; [congruence|].
    assert (b' = b) by congruence. subst b'.
    pose proof (round_pos_mono x y Hpos Hxy) as Hm.
    pose proof (round_pos_nonneg x Hpos) as Hn.
    destruct (round_positive x Hpos) as [[_ Hbig] | (a & E' & Ea & _)]; [lra|].
    exists a. split; [done|]. lra.
  - assert (Ex : (x == 0)%Q) by lra.
    exists 0%Q. split; [by apply round_zero|]. split; [lra|].
    destruct (Qlt_le_dec 0 y) as [Hypos|Hyzero].
    + destruct (round_positive y Hypos) as [[E _] | (b' & E & Eb & Hb)]; [congruence|].
      assert (b' = b) by congruence. subst b'.
      pose proof (round_pos_nonneg y Hypos). lra.
    + rewrite round_zero in Hy by lra. injection Hy as <-. lra.
Qed.

Lemma round_mono (x y a b : Q) :
  (0 <= x)%Q -> (x <= y)%Q -> round x = Finite a -> round y = Finite b -> (a <= b)%Q.
Proof.
  intros Hx Hxy Ha Hb.
  destruct (round_between x y b Hx Hxy Hb) as (a' & Ha' & _ & Hle). congruence.
Qed.

Lemma round_exact (x : Q) (m e : Z) :
  (x == inject_Z m * 2 ^ e)%Q -> 0 <= m < 2 ^ 53 -> -1074 <= e -> (x < 2 ^ 1024)%Q ->
  exists a, round x = Finite a /\ (a == x)%Q.
Proof.
  intros Ex Hm He Hbig.
  destruct (Z.eq_dec m 0) as [->|Hm0].
  - assert (x == 0)%Q by (rewrite Ex; ring).
    exists 0%Q. split; [by apply round_zero | lra].
  - pose proof (round_pos_fix x m e Ex ltac:(lia) He) as Hfix.
    assert (Hx : (0 < x)%Q).
    { rewrite Ex. apply Qmult_lt_0_compat; [|apply pow2_pos].
      rewrite <- (Zlt_Qlt 0). lia. }
    destruct (round_positive x Hx) as [[_ Hb] | (a & E & Ea & _)]; [lra|].
    exists a. split; [done | lra].
Qed.

Lemma round_error (x a : Q) :
  (0 < x)%Q -> round x = Finite a -> (Qabs (a - x) <= 2 ^ cexp x / 2)%Q.
Proof.
  intros Hx Ha.
  destruct (round_positive x Hx) as [[E _] | (a' & E & Ea & _)]; [congruence|].
  assert (a' = a) by congruence. subst a'.
  rewrite Ea. by apply round_pos_error.
Qed.

End DoubleFacts.

(** ** Timing *)

(** C1. For N >= 2 slides, the duration that the compiler computes for
    slide i is D + T/2 for the first and the last slide, and D + T for
    every slide in between. *)
Theorem calculateDuration_edge_interior (this : SlideshowProcessor) (N i : Z) :
  2 <= N -> 0 <= i < N ->
  (i = 0 \/ i = N - 1 ->
   calculateDuration this i N
   = Double.add (displayDuration this)
                (Double.div (transitionDuration this) (Double.of_Z 2)))
  /\ (0 < i < N - 1 ->
      calculateDuration this i N
      = Double.add (displayDuration this) (transitionDuration this)).
Proof.
  intros HN Hi. unfold calculateDuration. split.
  - intros [-> | ->].
    + reflexivity.
    + rewrite Z.eqb_refl, orb_true_r. reflexivity.
  - intros [Hlo Hhi].
    destruct (Z.eqb_spec i 0) as [?|_]; [lia|].
    destruct (Z.eqb_spec i (N - 1)) as [?|_]; [lia|].
    reflexivity.
Qed.

Lemma calculateDuration_edge_interior_witness :
  calculateDuration scenarioA 0 3
  = Double.add (displayDuration scenarioA)
               (Double.div (transitionDuration scenarioA) (Double.of_Z 2))
  /\ calculateDuration scenarioA 2 3
     = Double.add (displayDuration scenarioA)
                  (Double.div (transitionDuration scenarioA) (Double.of_Z 2))
  /\ calculateDuration scenarioA 1 3
     = Double.add (displayDuration scenarioA) (transitionDuration scenarioA).
Proof.
  split; [|split].
  - apply (calculateDuration_edge_interior scenarioA 3 0); lia.
  - apply (calculateDuration_edge_interior scenarioA 3 2); lia.
  - apply (calculateDuration_edge_interior scenarioA 3 1); lia.
Defined.

(** The durations of Scenario A, and of a slideshow whose sum is not a
    double: 0.55 + 0.1 / 2 is printed as the double next to 0.6. *)
Example scenarioA_durations :
  map (fun i => Js.number_to_string (calculateDuration scenarioA i 3)) [0; 1; 2]
  = ["1.75"; "2"; "1.75"]
  /\ Js.number_to_string
       (calculateDuration {| displayDuration := Double.round (55 # 100);
                             transitionDuration := Double.round (1 # 10);
                             fps := CONFIG.VIDEO_FPS |} 0 3)
     = "0.6000000000000001".
Proof. split; vm_compute; reflexivity. Qed.

(** ** Decimal rendering *)

Lemma pretty_N_char_digit x : is_digit (pretty_N_char x) = true.
Proof.
  destruct x as [|p]; [reflexivity|].
  do 4 (try (destruct p as [p|p|]; try reflexivity)).
Qed.

Lemma pretty_N_go_digits x s :
  digits_only s = true -> digits_only (pretty_N_go x s) = true.
Proof.
  revert s. induction (N.lt_wf_0 x) as [x _ IH]; intros s Hs.
  destruct (decide (x = 0)%N) as [->|Hx].
  - by rewrite pretty_N_go_0.
  - rewrite pretty_N_go_step by lia. apply IH.
    + apply N.div_lt; lia.
    + simpl. by rewrite pretty_N_char_digit.
Qed.

Lemma pretty_nat_digits (n : nat) : digits_only (pretty n) = true.
Proof.
  unfold pretty, pretty_nat, pretty, pretty_N.
  case_decide; [reflexivity|]. by apply pretty_N_go_digits.
Qed.

Lemma digits_only_no_dot s : digits_only s = true -> occurs "." s = false.
Proof.
  induction s as [|c s IH]; simpl; [done|].
  intros [Hc Hs]%andb_true_iff. rewrite (IH Hs), orb_false_r.
  destruct (Ascii.eqb_spec c ".") as [->|]; [discriminate Hc | done].
Qed.

(** ** Strings *)

Lemma string_app_assoc (a b c : string) : (a +:+ b) +:+ c = a +:+ (b +:+ c).
Proof.
  induction a as [|x a IH]; [reflexivity|].
  change (String x ((a +:+ b) +:+ c) = String x (a +:+ (b +:+ c))).
  by rewrite IH.
Qed.

Lemma string_app_nil_r (a : string) : a +:+ "" = a.
Proof.
  induction a as [|x a IH]; [reflexivity|].
  change (String x (a +:+ "") = String x a). by rewrite IH.
Qed.

(** Two strings that agree up to the first occurrence of [c] in each
    have the same text before it. *)
Lemma split_at_first (c : ascii) (a b s t : string) :
  occurs c a = false -> occurs c b = false ->
  a +:+ String c s = b +:+ String c t -> a = b /\ s = t.
Proof.
  revert b. induction a as [|x a IH]; intros [|y b] Ha Hb Heq.
  - by injection Heq.
  - injection Heq as <- _. simpl in Hb. by rewrite Ascii.eqb_refl in Hb.
  - injection Heq as -> _. simpl in Ha. by rewrite Ascii.eqb_refl in Ha.
  - injection Heq as -> Heq. simpl in Ha, Hb.
    apply orb_false_iff in Ha as [_ Ha]. apply orb_false_iff in Hb as [_ Hb].
    destruct (IH b Ha Hb Heq) as [-> ->]. done.
Qed.

(** ** The shape of the filter graph *)

Section Graph.

Variable this : SlideshowProcessor.
Variables (numImages : nat) (width height : Z).

Lemma transform_loop_length k i :
  length (transform_loop this numImages width height k i) = k.
Proof. revert i. induction k as [|k IH]; intros i; simpl; [done | by rewrite IH]. Qed.

Lemma transform_loop_lookup k i j :
  (j < k)%nat ->
  transform_loop this numImages width height k i !! j
  = Some (transform_statement this numImages width height (i + j)).
Proof.
  revert i j. induction k as [|k IH]; intros i j Hj; [lia|].
  destruct j as [|j]; simpl.
  - by rewrite Nat.add_0_r.
  - rewrite IH by lia. do 2 f_equal. lia.
Qed.

Lemma xfade_loop_length k i offset :
  length (xfade_loop this numImages k i offset) = k.
Proof.
  revert i offset. induction k as [|k IH]; intros i offset; simpl; [done | by rewrite IH].
Qed.

Lemma xfade_loop_lookup k i offset j :
  (j < k)%nat ->
  xfade_loop this numImages k i offset !! j
  = Some (xfade_statement this numImages (i + j)
            (Nat.iter j (fun o => Double.add o (displayDuration this)) offset)).
Proof.
  revert i offset j. induction k as [|k IH]; intros i offset j Hj; [lia|].
  destruct j as [|j].
  - simpl. by rewrite Nat.add_0_r.
  - rewrite Nat.iter_succ_r. simpl. rewrite IH by lia.
    replace (S i + j)%nat with (i + S j)%nat by lia. done.
Qed.

Lemma filters_transform i :
  (i < numImages)%nat ->
  filters this numImages width height !! i
  = Some (transform_statement this numImages width height i).
Proof.
  intros Hi. unfold filters.
  rewrite lookup_app_l by (by rewrite transform_loop_length).
  by rewrite transform_loop_lookup.
Qed.

Lemma filters_xfade i :
  (i < numImages - 1)%nat ->
  filters this numImages width height !! (numImages + i)%nat
  = Some (xfade_statement this numImages i (crossfade_offset this i)).
Proof.
  intros Hi. unfold filters.
  rewrite lookup_app_r by (rewrite transform_loop_length; lia).
  rewrite transform_loop_length.
  replace (numImages + i - numImages)%nat with i by lia.
  by rewrite xfade_loop_lookup.
Qed.

Lemma filters_length :
  length (filters this numImages width height) = (numImages + (numImages - 1))%nat.
Proof.
  unfold filters. by rewrite length_app, transform_loop_length, xfade_loop_length.
Qed.

Lemma transform_statement_shape i :
  exists body,
    transform_statement this numImages width height i
    = "[" +:+ pretty i +:+ ":v]" +:+ body +:+ "[v" +:+ pretty i +:+ "]".
Proof.
  unfold transform_statement.
  set (a := pretty i). set (b := pretty width). set (c := pretty height).
  set (d := Js.number_to_string (fps this)).
  set (e := Js.number_to_string (Double.max _ _)).
  set (f := Js.number_to_string (calculateDuration _ _ _)).
  clearbody a b c d e f.
  exists ("scale=" +:+ b +:+ ":" +:+ c +:+ ":force_original_aspect_ratio=decrease,"
          +:+ "pad=" +:+ b +:+ ":" +:+ c +:+ ":(ow-iw)/2:(oh-ih)/2:black,"
          +:+ "setsar=1,fps=" +:+ d +:+ ",format=yuva420p,"
          +:+ "loop=loop=" +:+ e +:+ ":size=1:start=0,"
          +:+ "trim=duration=" +:+ f +:+ ",setpts=PTS-STARTPTS").
  rewrite !string_app_assoc. reflexivity.
Qed.

Lemma xfade_statement_shape i offset :
  exists params,
    xfade_statement this numImages i offset
    = "[" +:+ inputA i +:+ "][" +:+ inputB i +:+ "]xfade=" +:+ params
        +:+ "[" +:+ outputLabel numImages i +:+ "]".
Proof.
  unfold xfade_statement.
  set (a := inputA i). set (b := inputB i). set (c := outputLabel numImages i).
  set (d := Js.number_to_string _). set (e := Js.toFixed2 _).
  clearbody a b c d e.
  exists ("transition=fade:duration=" +:+ d +:+ ":offset=" +:+ e).
  rewrite !string_app_assoc. reflexivity.
Qed.

End Graph.

Lemma stream_label_inj (i j : nat) : "v" +:+ pretty i = "v" +:+ pretty j -> i = j.
Proof. intros H. apply (inj (String.append "v")) in H. by apply (inj pretty) in H. Qed.

(** C2. For N >= 2 inputs the statements of the compiled graph are N
    per-image transforms, whose outputs are the distinct labels v0 ..
    v(N-1) in input order, followed by N-1 crossfades; crossfade i reads
    the output of crossfade i-1 (v0 for i = 0) and v(i+1), and the output
    of the last crossfade is the label that the engine arguments map. *)
Theorem filter_graph_shape (this : SlideshowProcessor) (N : nat) (width height : Z) :
  (2 <= N)%nat ->
  let statements := filters this N width height in
  buildFilterComplex this N width height = String.concat ";" statements
  /\ length (take N statements) = N
  /\ length (drop N statements) = (N - 1)%nat
  /\ (forall i, (i < N)%nat ->
        exists body,
          take N statements !! i
          = Some ("[" +:+ pretty i +:+ ":v]" +:+ body +:+ "[v" +:+ pretty i +:+ "]"))
  /\ (forall i j : nat, "v" +:+ pretty i = "v" +:+ pretty j -> i = j)
  /\ (forall i, (i < N - 1)%nat ->
        exists params,
          drop N statements !! i
          = Some ("[" +:+ inputA i +:+ "][" +:+ ("v" +:+ pretty (i + 1)%nat)
                    +:+ "]xfade=" +:+ params +:+ "[" +:+ outputLabel N i +:+ "]"))
  /\ inputA 0 = "v0"
  /\ (forall i, (S i < N - 1)%nat -> inputA (S i) = outputLabel N i)
  /\ outputLabel N (N - 2) = "vfinal"
  /\ (forall inputFiles filterComplex out,
        exists pre post,
          ffmpegArgs inputFiles filterComplex out
          = pre ++ ["-map"; "[" +:+ outputLabel N (N - 2) +:+ "]"] ++ post).
Proof.
  intros HN statements.
  assert (Hlen : length statements = (N + (N - 1))%nat) by apply filters_length.
  assert (Hfinal : outputLabel N (N - 2) = "vfinal").
  { unfold outputLabel.
    destruct (Z.eqb_spec (Z.of_nat (N - 2)) (Z.of_nat N - 2)); [done | lia]. }
  repeat split.
  - rewrite length_take. lia.
  - rewrite length_drop. lia.
  - intros i Hi. destruct (transform_statement_shape this N width height i) as [body Hb].
    exists body. rewrite lookup_take_lt by done. rewrite <- Hb.
    by apply filters_transform.
  - apply stream_label_inj.
  - intros i Hi.
    destruct (xfade_statement_shape this N i (crossfade_offset this i)) as [params Hp].
    exists params. rewrite lookup_drop.
    unfold inputB in Hp. rewrite <- Hp.
    by apply filters_xfade.
  - intros i Hi. unfold inputA, outputLabel.
    destruct (Z.eqb_spec (Z.of_nat i) (Z.of_nat N - 2)); [lia|].
    change (S i =? 0)%nat with false. cbv iota. by rewrite Nat.add_1_r.
  - done.
  - intros inputFiles filterComplex out. rewrite Hfinal.
    exists (flat_map (fun file => ["-i"; file]) inputFiles ++ ["-filter_complex"; filterComplex]).
    eexists. unfold ffmpegArgs. rewrite <- app_assoc. reflexivity.
Qed.

Lemma filter_graph_shape_witness :
  (2 <= 3)%nat
  /\ buildFilterComplex scenarioA 3 300 200
     = String.concat ";" (filters scenarioA 3 300 200)
  /\ length (take 3 (filters scenarioA 3 300 200)) = 3%nat
  /\ length (drop 3 (filters scenarioA 3 300 200)) = 2%nat.
Proof.
  assert (H : (2 <= 3)%nat) by lia.
  destruct (filter_graph_shape scenarioA 3 300 200 H) as (H1 & H2 & H3 & _).
  exact (conj H (conj H1 (conj H2 H3))).
Defined.

(** The graph text of Scenario A: three transforms, two crossfades, and
    [vfinal] as the output of the second crossfade. *)
Example scenarioA_crossfades :
  drop 3 (filters scenarioA 3 300 200)
  = ["[v0][v1]xfade=transition=fade:duration=0.5:offset=1.50[vout1]";
     "[vout1][v2]xfade=transition=fade:duration=0.5:offset=3.00[vfinal]"].
Proof. vm_compute. reflexivity. Qed.

(** ** Crossfade offsets *)

Lemma Qabs_nonneg_eq (x : Q) : (0 <= x)%Q -> Qabs x = x.
Proof.
  destruct x as [n d]. unfold Qle, Qabs. simpl. intros H.
  f_equal. apply Z.abs_eq. lia.
Qed.

Lemma Qnum_nonneg (x : Q) : (0 <= x)%Q -> (Qnum x <? 0) = false.
Proof.
  destruct x as [n d]. unfold Qle. simpl. intros H. apply Z.ltb_ge. lia.
Qed.

Lemma pretty_Z_digits (z : Z) : 0 <= z -> digits_only (pretty z) = true.
Proof.
  intros Hz. destruct z as [|p|p]; [reflexivity | | lia].
  change (digits_only (pretty (N.pos p)) = true).
  unfold pretty, pretty_N. case_decide; [reflexivity|]. by apply pretty_N_go_digits.
Qed.

(** [toFixed(2)] of a magnitude below 10^21 is the integer nearest to a
    hundred times the number, printed with exactly two digits after the
    point. *)
Lemma toFixed2_two_decimals (x : Q) :
  (0 <= x)%Q -> (x < inject_Z (10 ^ 21))%Q ->
  exists n : Z,
    0 <= n
    /\ (inject_Z n - (1 # 2) <= x * 100)%Q /\ (x * 100 < inject_Z n + (1 # 2))%Q
    /\ Js.toFixed2 (Double.Finite x)
       = pretty (n / 100) +:+ "." +:+
         String (Js.digit (n mod 100 / 10)) (String (Js.digit (n mod 10)) "")
    /\ digits_only (pretty (n / 100)) = true
    /\ is_digit (Js.digit (n mod 100 / 10)) = true
    /\ is_digit (Js.digit (n mod 10)) = true.
Proof.
  intros Hx Hbig. exists (Qfloor (x * 100 + (1 # 2))).
  pose proof (Qfloor_le (x * 100 + (1 # 2))) as Hlo.
  pose proof (Qlt_floor (x * 100 + (1 # 2))) as Hhi.
  rewrite inject_Z_plus in Hhi.
  assert (Hn : 0 <= Qfloor (x * 100 + (1 # 2))).
  { change 0 with (Qfloor 0). apply Qfloor_resp_le. lra. }
  repeat split.
  - done.
  - lra.
  - change (inject_Z 1) with 1%Q in Hhi. lra.
  - unfold Js.toFixed2. rewrite (Qnum_nonneg x Hx), (Qabs_nonneg_eq x Hx).
    destruct (Qle_bool (inject_Z (10 ^ 21)) x) eqn:Hle.
    + apply Qle_bool_iff in Hle. lra.
    + reflexivity.
  - apply pretty_Z_digits. apply Z.div_pos; lia.
  - apply pretty_N_char_digit.
  - apply pretty_N_char_digit.
Qed.

Lemma crossfade_offset_succ (this : SlideshowProcessor) (i : nat) :
  crossfade_offset this (S i)
  = Double.add (crossfade_offset this i) (displayDuration this).
Proof. reflexivity. Qed.

Lemma between_Finite (lo hi : Q) (x : Double.t) :
  Double.between (Double.Finite lo) (Double.Finite hi) x = true ->
  exists q, x = Double.Finite q /\ (lo <= q)%Q /\ (q <= hi)%Q.
Proof.
  destruct x as [q| | |]; simpl; try discriminate.
  intros [H1 H2]%andb_true_iff. exists q. split; [done|].
  rewrite !negb_involutive in H1, H2. by rewrite <- !Qle_bool_iff.
Qed.

Lemma DISPLAY_DURATION_range :
  CONFIG.DISPLAY_DURATION_MIN = Double.Finite (1 # 2)
  /\ CONFIG.DISPLAY_DURATION_MAX = Double.Finite 10.
Proof. split; vm_compute; reflexivity. Qed.

Lemma TRANSITION_DURATION_range :
  CONFIG.TRANSITION_DURATION_MIN = Double.Finite (3602879701896397 # 36028797018963968)
  /\ CONFIG.TRANSITION_DURATION_MAX = Double.Finite 3.
Proof. split; vm_compute; reflexivity. Qed.

(** One turn of [offset += this.displayDuration]: for a duration [d]
    with leading bit 2^s and an offset [o] between [k] times 2^s and
    [k] times 2^(s+1), the sum is a double again, larger than [o],
    between the bounds for [k + 1], and off [o + d] by at most
    [(k + 1) d / 2^52]. *)
Lemma offset_step (o d : Q) (s k : Z) :
  -1022 <= s -> (2 ^ s <= d)%Q -> (d < 2 ^ (s + 1))%Q ->
  1 <= k <= 2 ^ 20 ->
  (inject_Z k * 2 ^ s <= o)%Q -> (o <= inject_Z k * 2 ^ (s + 1))%Q ->
  (inject_Z (k + 1) * 2 ^ (s + 1) < 2 ^ 1024)%Q ->
  exists a,
    Double.add (Double.Finite o) (Double.Finite d) = Double.Finite a
    /\ (o < a)%Q
    /\ (inject_Z (k + 1) * 2 ^ s <= a)%Q
    /\ (a <= inject_Z (k + 1) * 2 ^ (s + 1))%Q
    /\ (Qabs (a - (o + d)) <= inject_Z (k + 1) * d * (1 # 2 ^ 52))%Q.
Proof.
  intros Hs Hd1 Hd2 Hk Ho1 Ho2 Hbig.
  change (Double.add (Double.Finite o) (Double.Finite d)) with (Double.round (o + d)).
  pose proof (DoubleFacts.pow2_pos s) as HP.
  assert (E2 : (2 ^ (s + 1) == 2 * 2 ^ s)%Q).
  { rewrite DoubleFacts.pow2_plus. change (2 ^ 1)%Q with 2%Q. ring. }
  assert (Hk1 : (1 <= inject_Z k)%Q)
    by (change 1%Q with (inject_Z 1); rewrite <- Zle_Qle; lia).
  assert (Ek : (inject_Z (k + 1) == inject_Z k + 1)%Q)
    by (rewrite inject_Z_plus; reflexivity).
  remember (o + d)%Q as x eqn:Dx.
  remember (inject_Z (k + 1) * 2 ^ s)%Q as lo eqn:Dlo.
  remember (inject_Z (k + 1) * 2 ^ (s + 1))%Q as hi eqn:Dhi.
  assert (Ex : (x == o + d)%Q) by (by rewrite Dx).
  assert (Elo : (lo == inject_Z k * 2 ^ s + 2 ^ s)%Q) by (rewrite Dlo, Ek; ring).
  assert (Ehi : (hi == inject_Z k * 2 ^ (s + 1) + 2 ^ (s + 1))%Q)
    by (rewrite Dhi, Ek; ring).
  assert (Hx1 : (lo <= x)%Q) by lra.
  assert (Hx2 : (x <= hi)%Q) by lra.
  assert (Hlo0 : (0 <= lo)%Q).
  { assert (0 <= inject_Z k * 2 ^ s)%Q by (apply Qmult_le_0_compat; lra). lra. }
  assert (Hx0 : (0 <= x)%Q) by lra.
  (* both bounds are doubles *)
  destruct (DoubleFacts.round_exact hi (k + 1) (s + 1)) as (h & Eh & Hh);
    [by rewrite Dhi | lia | lia | exact Hbig |].
  destruct (DoubleFacts.round_exact lo (k + 1) s) as (l & El & Hl);
    [by rewrite Dlo | lia | lia | lra |].
  destruct (DoubleFacts.round_between x hi h Hx0 Hx2 Eh) as (a & Ea & Ha0 & Hah).
  pose proof (DoubleFacts.round_mono lo x l a Hlo0 Hx1 El Ea) as Hla.
  exists a. split; [exact Ea|].
  (* the multiple of 2^s next above [o] is a double, and not above [x] *)
  set (f := Qfloor (o / 2 ^ s)).
  assert (Eo : (o / 2 ^ s * 2 ^ s == o)%Q) by (field; lra).
  assert (Hf1 : (inject_Z f * 2 ^ s <= o)%Q).
  { assert (inject_Z f * 2 ^ s <= o / 2 ^ s * 2 ^ s)%Q
      by (apply Qmult_le_compat_r; [apply Qfloor_le | lra]).
    lra. }
  assert (Hf2 : (o < inject_Z (f + 1) * 2 ^ s)%Q).
  { assert (o / 2 ^ s * 2 ^ s < inject_Z (f + 1) * 2 ^ s)%Q
      by (apply Qmult_lt_compat_r; [lra | apply Qlt_floor]).
    lra. }
  assert (Hf3 : 0 <= f).
  { unfold f. change 0 with (Qfloor 0). apply Qfloor_resp_le.
    apply Qle_shift_div_l; [lra|].
    assert (0 <= inject_Z k * 2 ^ s)%Q by (apply Qmult_le_0_compat; lra). lra. }
  assert (Hf4 : f <= 2 * k).
  { unfold f. rewrite <- (Qfloor_Z (2 * k)). apply Qfloor_resp_le.
    apply Qle_shift_div_r; [lra|].
    rewrite inject_Z_mult. change (inject_Z 2) with 2%Q.
    assert (inject_Z k * 2 ^ (s + 1) == 2 * inject_Z k * 2 ^ s)%Q by (rewrite E2; ring).
    lra. }
  remember (inject_Z (f + 1) * 2 ^ s)%Q as r eqn:Dr.
  assert (Er : (r == inject_Z f * 2 ^ s + 2 ^ s)%Q).
  { rewrite Dr, inject_Z_plus. change (inject_Z 1) with 1%Q. ring. }
  assert (Hrx : (r <= x)%Q) by lra.
  assert (Ho0 : (0 <= o)%Q).
  { assert (0 <= inject_Z k * 2 ^ s)%Q by (apply Qmult_le_0_compat; lra). lra. }
  assert (Hr0 : (0 <= r)%Q) by lra.
  destruct (DoubleFacts.round_exact r (f + 1) s) as (r' & Er' & Hr');
    [by rewrite Dr | lia | lia | lra |].
  pose proof (DoubleFacts.round_mono r x r' a Hr0 Hrx Er' Ea) as Hra.
  split; [lra|]. split; [lra|]. split; [lra|].
  (* the error of the rounding *)
  assert (Hxpos : (0 < x)%Q) by lra.
  pose proof (DoubleFacts.round_error x a Hxpos Ea) as Herr.
  destruct (DoubleFacts.ilog2_spec x Hxpos) as [Hlog1 Hlog2].
  assert (Hlog : s + 1 <= Double.ilog2 x).
  { assert (s + 1 < Double.ilog2 x + 1); [|lia].
    apply DoubleFacts.pow2_lt_inv.
    assert (2 ^ (s + 1) <= lo)%Q.
    { rewrite Elo, E2.
      assert (1 * 2 ^ s <= inject_Z k * 2 ^ s)%Q by (apply Qmult_le_compat_r; lra).
      lra. }
    lra. }
  assert (Ec : Double.cexp x = Double.ilog2 x - 52) by (unfold Double.cexp; lia).
  assert (Ep : (2 ^ Double.cexp x == 2 ^ Double.ilog2 x * (1 # 2 ^ 52))%Q).
  { rewrite Ec. unfold Z.sub. rewrite DoubleFacts.pow2_plus. reflexivity. }
  assert (Hhalf : (2 ^ Double.cexp x / 2 == (1 # 2) * 2 ^ Double.cexp x)%Q) by field.
  rewrite Hhalf, Ep in Herr.
  eapply Qle_trans; [exact Herr|].
  (* 2^ilog2 x <= x <= hi <= 2 (k + 1) d *)
  assert (Hhd : (hi <= 2 * (inject_Z (k + 1) * d))%Q).
  { assert (inject_Z (k + 1) * 2 ^ s <= inject_Z (k + 1) * d)%Q
      by (apply Qmult_le_l; lra).
    assert (hi == 2 * (inject_Z (k + 1) * 2 ^ s))%Q by (rewrite Dhi, E2; ring).
    lra. }
  set (g := (2 ^ Double.ilog2 x)%Q) in *. clearbody g.
  set (u := (inject_Z (k + 1) * d)%Q) in *. clearbody u.
  assert (Hg : (g <= 2 * u)%Q) by lra.
  set (c := (1 # 2 ^ 52)%Q). assert (Hc : (0 <= c)%Q) by discriminate.
  assert (Hm : (g * c <= 2 * u * c)%Q) by (apply Qmult_le_compat_r; done).
  lra.
Qed.

(** The offsets of the crossfades, for a display duration [d] that is a
    normal double: offset [i] lies between [i + 1] times the leading bit
    of [d] and twice that, and is off [d (i + 1)] by at most
    [i (i + 3) d / 2^53]. *)
Lemma crossfade_offset_bounds (this : SlideshowProcessor) (d : Q) (s : Z) (i : nat) :
  displayDuration this = Double.Finite d ->
  -1022 <= s -> (2 ^ s <= d)%Q -> (d < 2 ^ (s + 1))%Q ->
  Z.of_nat i < 2 ^ 20 ->
  (inject_Z (Z.of_nat i + 1) * 2 ^ (s + 1) < 2 ^ 1024)%Q ->
  exists o,
    crossfade_offset this i = Double.Finite o
    /\ (inject_Z (Z.of_nat i + 1) * 2 ^ s <= o)%Q
    /\ (o <= inject_Z (Z.of_nat i + 1) * 2 ^ (s + 1))%Q
    /\ (Qabs (o - d * inject_Z (Z.of_nat i + 1))
        <= inject_Z (Z.of_nat i * (Z.of_nat i + 3)) * d * (1 # 2 ^ 53))%Q.
Proof.
  intros HD Hs Hd1 Hd2. pose proof (DoubleFacts.pow2_pos (s + 1)) as HP.
  induction i as [|i IH]; intros Hi Hbig.
  - exists d. split; [exact HD|]. change (inject_Z (Z.of_nat 0 + 1)) with 1%Q.
    change (inject_Z (Z.of_nat 0 * (Z.of_nat 0 + 3))) with 0%Q.
    assert (E : (d - d * 1 == 0)%Q) by ring.
    split; [lra|]. split; [lra|]. rewrite E.
    apply Qabs_Qle_condition. split; lra.
  - assert (Hi1 : (0 <= inject_Z (Z.of_nat i + 1))%Q)
      by (change 0%Q with (inject_Z 0); rewrite <- Zle_Qle; lia).
    assert (Hmono : (inject_Z (Z.of_nat i + 1) * 2 ^ (s + 1)
                     <= inject_Z (Z.of_nat (S i) + 1) * 2 ^ (s + 1))%Q).
    { apply Qmult_le_compat_r; [|lra]. rewrite <- Zle_Qle. lia. }
    destruct (IH ltac:(lia) ltac:(lra)) as (o & Eo & Ho1 & Ho2 & Herr).
    replace (Z.of_nat (S i) + 1) with (Z.of_nat i + 1 + 1) in Hbig by lia.
    destruct (offset_step o d s (Z.of_nat i + 1) Hs Hd1 Hd2 ltac:(lia) Ho1 Ho2 Hbig)
      as (a & Ea & _ & Ha1 & Ha2 & Herr').
    exists a. rewrite crossfade_offset_succ, Eo, HD.
    replace (Z.of_nat (S i) + 1) with (Z.of_nat i + 1 + 1) by lia.
    split; [exact Ea|]. split; [exact Ha1|]. split; [exact Ha2|].
    apply Qabs_Qle_condition in Herr as [Herr1 Herr2].
    apply Qabs_Qle_condition in Herr' as [Herr1' Herr2'].
    set (n := Z.of_nat i) in *.
    replace (Z.of_nat (S i)) with (n + 1) by lia.
    assert (En : (inject_Z ((n + 1) * (n + 1 + 3)) * d * (1 # 2 ^ 53)
                  == inject_Z (n * (n + 3)) * d * (1 # 2 ^ 53)
                     + inject_Z (n + 1 + 1) * d * (1 # 2 ^ 52))%Q).
    { replace ((n + 1) * (n + 1 + 3)) with (n * (n + 3) + 2 * (n + 1 + 1)) by lia.
      rewrite inject_Z_plus, (inject_Z_mult 2).
      assert (E52 : (1 # 2 ^ 52 == 2 * (1 # 2 ^ 53))%Q) by reflexivity.
      rewrite E52. change (inject_Z 2) with 2%Q. ring. }
    assert (Ed : (d * inject_Z (n + 1 + 1) == d * inject_Z (n + 1) + d)%Q).
    { rewrite (inject_Z_plus (n + 1) 1). change (inject_Z 1) with 1%Q. ring. }
    rewrite En, Ed.
    set (e1 := (inject_Z (n * (n + 3)) * d * (1 # 2 ^ 53))%Q) in *. clearbody e1.
    set (e2 := (inject_Z (n + 1 + 1) * d * (1 # 2 ^ 52))%Q) in *. clearbody e2.
    set (v := (d * inject_Z (n + 1))%Q) in *. clearbody v.
    apply Qabs_Qle_condition. split; lra.
Qed.

(** C3. For N >= 2 images and a display duration D that is a positive
    double (of the normal range), crossfade i of the compiled graph
    carries the offset o_i with o_0 = D and o_(i+1) = o_i + D, the sum
    being the double-precision sum of the code; the offsets increase
    strictly; o_i differs from D (i + 1) by the rounding of the i
    additions, at most i (i + 3) D / 2^53; and the graph text holds o_i
    as printed by toFixed(2): the nearest hundredth of the double o_i,
    with exactly two digits after the point.  (The graph stays below the
    10^21 seconds from which toFixed switches notation, and has at most
    2^20 images.) *)
Theorem crossfade_offsets (this : SlideshowProcessor) (N : nat) (width height : Z)
    (i : nat) (d : Q) :
  (2 <= N)%nat -> Z.of_nat N <= 2 ^ 20 ->
  displayDuration this = Double.Finite d ->
  (2 ^ (-1022) <= d)%Q ->
  (d * inject_Z (Z.of_nat N) < inject_Z (10 ^ 21))%Q ->
  (i < N - 1)%nat ->
  let offset := crossfade_offset this i in
  drop N (filters this N width height) !! i = Some (xfade_statement this N i offset)
  /\ crossfade_offset this 0 = displayDuration this
  /\ crossfade_offset this (S i) = Double.add offset (displayDuration this)
  /\ Double.ltb offset (crossfade_offset this (S i)) = true
  /\ (exists front,
        xfade_statement this N i offset
        = front +:+ ":offset=" +:+ Js.toFixed2 offset +:+ "[" +:+ outputLabel N i +:+ "]")
  /\ (exists (o : Q) (n : Z),
        offset = Double.Finite o
        /\ (Qabs (o - d * inject_Z (Z.of_nat i + 1))
            <= inject_Z (Z.of_nat i * (Z.of_nat i + 3)) * d * (1 # 2 ^ 53))%Q
        /\ 0 <= n
        /\ (inject_Z n - (1 # 2) <= o * 100)%Q
        /\ (o * 100 < inject_Z n + (1 # 2))%Q
        /\ Js.toFixed2 offset
           = pretty (n / 100) +:+ "." +:+
             String (Js.digit (n mod 100 / 10)) (String (Js.digit (n mod 10)) "")
        /\ digits_only (pretty (n / 100)) = true
        /\ is_digit (Js.digit (n mod 100 / 10)) = true
        /\ is_digit (Js.digit (n mod 10)) = true).
Proof.
  intros HN HN' Ed Hd Hsmall Hi offset.
  assert (Hmin : (0 < 2 ^ (-1022))%Q) by apply DoubleFacts.pow2_pos.
  assert (Hdpos : (0 < d)%Q) by lra.
  (* the leading bit of d *)
  set (s := Double.ilog2 d).
  destruct (DoubleFacts.ilog2_spec d Hdpos) as [Hd1 Hd2]. fold s in Hd1, Hd2.
  assert (Hs : -1022 <= s).
  { assert (-1022 < s + 1); [|lia]. apply DoubleFacts.pow2_lt_inv. lra. }
  pose proof (DoubleFacts.pow2_pos s) as HP.
  assert (E2 : (2 ^ (s + 1) == 2 * 2 ^ s)%Q).
  { rewrite DoubleFacts.pow2_plus. change (2 ^ 1)%Q with 2%Q. ring. }
  (* no overflow up to offset N *)
  assert (Hover : forall j : Z, 0 <= j <= Z.of_nat N ->
                    (inject_Z j * 2 ^ (s + 1) < 2 ^ 1024)%Q).
  { intros j Hj.
    assert (H0 : (0 <= inject_Z j)%Q)
      by (change 0%Q with (inject_Z 0); rewrite <- Zle_Qle; lia).
    assert (H1 : (inject_Z j <= inject_Z (Z.of_nat N))%Q) by (rewrite <- Zle_Qle; lia).
    assert (H2 : (inject_Z j * 2 ^ s <= inject_Z j * d)%Q)
      by (rewrite (Qmult_comm _ (2 ^ s)), (Qmult_comm _ d);
          apply Qmult_le_compat_r; lra).
    assert (H3 : (inject_Z j * d <= inject_Z (Z.of_nat N) * d)%Q)
      by (apply Qmult_le_compat_r; lra).
    assert (H4 : (inject_Z (Z.of_nat N) * d == d * inject_Z (Z.of_nat N))%Q) by ring.
    assert (H5 : (2 * inject_Z (10 ^ 21) < 2 ^ 1024)%Q) by reflexivity.
    assert (H6 : (inject_Z j * 2 ^ (s + 1) == 2 * (inject_Z j * 2 ^ s))%Q)
      by (rewrite E2; ring).
    lra. }
  destruct (crossfade_offset_bounds this d s i Ed Hs Hd1 Hd2 ltac:(lia)
              (Hover (Z.of_nat i + 1) ltac:(lia)))
    as (o & Eo & Ho1 & Ho2 & Herr).
  fold offset in Eo.
  assert (Hi1 : (1 <= inject_Z (Z.of_nat i + 1))%Q)
    by (change 1%Q with (inject_Z 1); rewrite <- Zle_Qle; lia).
  split; [|split; [|split; [|split; [|split]]]].
  - rewrite lookup_drop. by apply filters_xfade.
  - reflexivity.
  - reflexivity.
  - destruct (offset_step o d s (Z.of_nat i + 1) Hs Hd1 Hd2 ltac:(lia) Ho1 Ho2
                (Hover (Z.of_nat i + 1 + 1) ltac:(lia)))
      as (a & Ea & Hlt & _).
    rewrite crossfade_offset_succ. fold offset. rewrite Eo, Ed, Ea. simpl.
    destruct (Qle_bool a o) eqn:Hb; [|done].
    apply Qle_bool_iff in Hb. lra.
  - unfold xfade_statement.
    set (a := inputA i). set (b := inputB i). set (c := outputLabel N i).
    set (e := Js.number_to_string _). set (f := Js.toFixed2 _).
    clearbody a b c e f.
    exists ("[" +:+ a +:+ "][" +:+ b +:+ "]xfade=transition=fade:duration=" +:+ e).
    rewrite !string_app_assoc. reflexivity.
  - (* o <= d (i + 1) + d <= d N *)
    assert (Ho0 : (0 <= o)%Q).
    { assert (0 <= inject_Z (Z.of_nat i + 1) * 2 ^ s)%Q
        by (apply Qmult_le_0_compat; lra).
      lra. }
    assert (Hosmall : (o < inject_Z (10 ^ 21))%Q).
    { apply Qabs_Qle_condition in Herr as [_ Herr2].
      assert (Hc : (inject_Z (Z.of_nat i * (Z.of_nat i + 3)) * (1 # 2 ^ 53) <= 1)%Q).
      { assert (Hq : (inject_Z (Z.of_nat i * (Z.of_nat i + 3)) <= inject_Z (2 ^ 53))%Q).
        { rewrite <- Zle_Qle.
          assert (Z.of_nat i * (Z.of_nat i + 3) <= 2 ^ 20 * (2 ^ 20 + 3)) by nia.
          lia. }
        assert (E53 : (inject_Z (2 ^ 53) * (1 # 2 ^ 53) == 1)%Q) by reflexivity.
        assert (Hm : (inject_Z (Z.of_nat i * (Z.of_nat i + 3)) * (1 # 2 ^ 53)
                      <= inject_Z (2 ^ 53) * (1 # 2 ^ 53))%Q)
          by (apply Qmult_le_compat_r; [exact Hq | discriminate]).
        lra. }
      assert (Hcd : (inject_Z (Z.of_nat i * (Z.of_nat i + 3)) * d * (1 # 2 ^ 53) <= d)%Q).
      { assert (Hm : (inject_Z (Z.of_nat i * (Z.of_nat i + 3)) * (1 # 2 ^ 53) * d
                      <= 1 * d)%Q) by (apply Qmult_le_compat_r; lra).
        assert (Hr : (inject_Z (Z.of_nat i * (Z.of_nat i + 3)) * d * (1 # 2 ^ 53)
                      == inject_Z (Z.of_nat i * (Z.of_nat i + 3)) * (1 # 2 ^ 53) * d)%Q)
          by ring.
        lra. }
      assert (Hn : (d * inject_Z (Z.of_nat i + 1) + d <= d * inject_Z (Z.of_nat N))%Q).
      { assert (Hq : (inject_Z (Z.of_nat i + 1) + 1 <= inject_Z (Z.of_nat N))%Q).
        { change 1%Q with (inject_Z 1). rewrite <- inject_Z_plus, <- Zle_Qle. lia. }
        assert (Hm : (d * (inject_Z (Z.of_nat i + 1) + 1) <= d * inject_Z (Z.of_nat N))%Q)
          by (apply Qmult_le_l; lra).
        assert (Hr : (d * (inject_Z (Z.of_nat i + 1) + 1)
                      == d * inject_Z (Z.of_nat i + 1) + d)%Q) by ring.
        lra. }
      lra. }
    destruct (toFixed2_two_decimals o Ho0 Hosmall) as (n & Hn).
    exists o, n. rewrite Eo. by repeat split; try apply Hn.
Qed.

Lemma crossfade_offsets_witness :
  (2 <= 3)%nat
  /\ (1 < 3 - 1)%nat
  /\ drop 3 (filters scenarioA 3 300 200) !! 1%nat
     = Some (xfade_statement scenarioA 3 1 (crossfade_offset scenarioA 1))
  /\ Double.ltb (crossfade_offset scenarioA 1) (crossfade_offset scenarioA 2) = true.
Proof.
  assert (H1 : (2 <= 3)%nat) by lia.
  assert (H2 : Z.of_nat 3 <= 2 ^ 20) by (simpl; lia).
  assert (H3 : displayDuration scenarioA = Double.Finite (3 # 2)) by (vm_compute; reflexivity).
  assert (H4 : (2 ^ (-1022) <= 3 # 2)%Q) by (vm_compute; discriminate).
  assert (H5 : ((3 # 2) * inject_Z (Z.of_nat 3) < inject_Z (10 ^ 21))%Q) by reflexivity.
  assert (H6 : (1 < 3 - 1)%nat) by (simpl; lia).
  destruct (crossfade_offsets scenarioA 3 300 200 1 (3 # 2) H1 H2 H3 H4 H5 H6)
    as (G1 & _ & _ & G2 & _).
  exact (conj H1 (conj H6 (conj G1 G2))).
Defined.

(** The offsets of Scenario A, as the graph text has them. *)
Example scenarioA_offsets :
  map (fun i => Js.toFixed2 (crossfade_offset scenarioA i)) [0; 1]%nat = ["1.50"; "3.00"].
Proof. vm_compute. reflexivity. Qed.

(** C3, at eight images with a display time of 0.505 seconds: the offset
    of crossfade 6, the sum of seven doubles, is below seven times the
    display duration, taken exactly or as the product in double
    precision, and the text of the graph has 3.53 where D * 7 to two
    decimals is 3.54. *)
Lemma accumulated_offset_drifts :
  match displayDuration drifting, crossfade_offset drifting 6 with
  | Double.Finite d, Double.Finite o =>
      (o < d * 7)%Q
      /\ Double.ltb (Double.Finite o) (Double.mul (Double.Finite d) (Double.of_Z 7)) = true
      /\ Js.toFixed2 (Double.Finite o) = "3.53"
      /\ Js.toFixed2 (Double.Finite (d * 7)) = "3.54"
      /\ Js.toFixed2 (Double.mul (Double.Finite d) (Double.of_Z 7)) = "3.54"
  | _, _ => False
  end
  /\ drop 8 (filters drifting 8 300 200) !! 6%nat
     = Some "[vout6][v7]xfade=transition=fade:duration=0.5:offset=3.53[vfinal]".
Proof. vm_compute. repeat split; reflexivity. Qed.

(** ** Staging names *)

Lemma split_go_last (sep : ascii) (cur s : string) :
  exists part, List.last (map Some (Js.split_go sep cur s)) None = Some part.
Proof.
  revert cur. induction s as [|c s IH]; intros cur.
  - by exists cur.
  - simpl. destruct (Ascii.eqb c sep).
    + destruct (IH "") as [part Hpart]. exists part.
      destruct (Js.split_go sep "" s) as [|x l] eqn:E; [discriminate Hpart | exact Hpart].
    + apply IH.
Qed.

Lemma split_go_no_sep (sep : ascii) (cur s : string) :
  occurs sep s = false -> Js.split_go sep cur s = [cur +:+ s].
Proof.
  revert cur. induction s as [|c s IH]; intros cur Hs.
  - simpl. by rewrite string_app_nil_r.
  - simpl in *. apply orb_false_iff in Hs as [-> Hs].
    rewrite (IH _ Hs). by rewrite string_app_assoc.
Qed.

(** [split] never gives the empty array, so the ['jpg'] branch of
    [getExtension] is never taken: the result is always the lower-cased
    last segment of the name. *)
Lemma getExtension_last_segment (file : File) :
  exists part,
    List.last (map Some (Js.split "." (file_name file))) None = Some part
    /\ getExtension file = Js.toLowerCase part.
Proof.
  destruct (split_go_last "." "" (file_name file)) as [part Hpart].
  exists part. split; [exact Hpart|].
  unfold getExtension, Js.split. by rewrite Hpart.
Qed.

Lemma getExtension_no_dot (file : File) :
  occurs "." (file_name file) = false ->
  getExtension file = Js.toLowerCase (file_name file).
Proof.
  intros H. unfold getExtension, Js.split. by rewrite (split_go_no_sep _ _ _ H).
Qed.

Lemma staged_name_inj (i j : nat) (f g : File) :
  staged_name i f = staged_name j g -> i = j.
Proof.
  unfold staged_name. intros H.
  apply (inj (String.append "input")) in H.
  apply split_at_first in H as [H _].
  - by apply (inj pretty) in H.
  - apply digits_only_no_dot, pretty_nat_digits.
  - apply digits_only_no_dot, pretty_nat_digits.
Qed.

(** The names of one run are distinct, whatever the files are called. *)
Lemma staged_names_NoDup (files : list File) : NoDup (staged_names files).
Proof.
  apply NoDup_alt. intros i j x Hi Hj. unfold staged_names in *.
  rewrite list_lookup_imap in Hi, Hj.
  destruct (files !! i) as [f|]; [|discriminate Hi].
  destruct (files !! j) as [g|]; [|discriminate Hj].
  simpl in Hi, Hj. injection Hi as Hi. injection Hj as Hj.
  apply (staged_name_inj i j f g). congruence.
Qed.

(** C7, at a file whose name has no dot: the staged name ends in the
    lower-cased name itself, not in the default extension; a file called
    "jpeg" is a case that also passes [validateFile]. *)
Theorem getExtension_dotless_name :
  getExtension photo = "photo"
  /\ staged_name 0 photo = "input0.photo"
  /\ getExtension (jpeg "jpeg" 640 480) = "jpeg"
  /\ valid (validateFile (jpeg "jpeg" 640 480)) = true
  /\ staged_name 0 (jpeg "jpeg" 640 480) = "input0.jpeg".
Proof. vm_compute. repeat split. Qed.

(** ** The state manager *)

Section SetState.

Import StateManager.

Lemma assign_unchanged (s : AppState) (u : Update) :
  changed s u = false -> assign s u = s.
Proof.
  destruct s as [a b c d e f], u as [x|x|x|x|x|x]; simpl;
    intros H%negb_false_iff.
  - by apply Bool.eqb_prop in H as ->.
  - by apply Bool.eqb_prop in H as ->.
  - by apply Bool.eqb_prop in H as ->.
  - by apply Z.eqb_eq in H as ->.
  - by apply String.eqb_eq in H as ->.
  - by apply bool_decide_eq_true in H as ->.
Qed.

Lemma apply_updates_state (updates : list Update) (s : AppState) (keys : list Update) :
  (foldl apply_update (s, keys) updates).1 = foldl assign s updates.
Proof.
  revert s keys. induction updates as [|u us IH]; intros s keys; [done|].
  simpl. destruct (changed s u) eqn:E.
  - apply IH.
  - rewrite IH. by rewrite (assign_unchanged s u E).
Qed.

Lemma notify_all_fields (keys : list Update) (w : World) :
  state (foldl notify w keys) = state w
  /\ loaded (foldl notify w keys) = loaded w
  /\ vfs (foldl notify w keys) = vfs w
  /\ trace (foldl notify w keys) = trace w.
Proof.
  revert w. induction keys as [|u us IH]; intros w; [done|].
  simpl. destruct (IH (notify w u)) as (-> & -> & -> & ->). by destruct u.
Qed.

Lemma setState_state who updates w :
  state (setState who updates w) = foldl assign (state w) updates.
Proof.
  unfold setState. pose proof (apply_updates_state updates (state w) []) as H.
  destruct (foldl apply_update (state w, []) updates) as [s keys].
  destruct (notify_all_fields keys (log (progress_events who updates) (with_state s w)))
    as (-> & _). exact H.
Qed.

Lemma setState_loaded who updates w : loaded (setState who updates w) = loaded w.
Proof.
  unfold setState. destruct (foldl apply_update (state w, []) updates) as [s keys].
  by destruct (notify_all_fields keys (log (progress_events who updates) (with_state s w)))
    as (_ & -> & _).
Qed.

Lemma setState_vfs who updates w : vfs (setState who updates w) = vfs w.
Proof.
  unfold setState. destruct (foldl apply_update (state w, []) updates) as [s keys].
  by destruct (notify_all_fields keys (log (progress_events who updates) (with_state s w)))
    as (_ & _ & -> & _).
Qed.

Lemma setState_trace who updates w :
  trace (setState who updates w) = trace w ++ progress_events who updates.
Proof.
  unfold setState. destruct (foldl apply_update (state w, []) updates) as [s keys].
  by destruct (notify_all_fields keys (log (progress_events who updates) (with_state s w)))
    as (_ & _ & _ & ->).
Qed.

End SetState.

(** ** Inversion of a run that returns *)

Lemma bind_Return_inv {A B} (m : M A) (k : A -> M B) w b w' :
  bind m k w = (Return b, w') ->
  exists a w1, m w = (Return a, w1) /\ k a w1 = (Return b, w').
Proof.
  unfold bind. destruct (m w) as [[a| |] w1]; intros H; [eauto | done | done].
Qed.

Lemma try_catch_rethrow_Return_inv {A} (m : M A) (e : string) w a w' :
  try_catch m (fun _ => throw e) w = (Return a, w') -> m w = (Return a, w').
Proof.
  unfold try_catch, throw. destruct (m w) as [[a'| |] w1]; intros H; done.
Qed.

Lemma try_finally_Return_inv {A} (m : M A) (f : World -> World) w a w' :
  try_finally m f w = (Return a, w') ->
  exists w1, m w = (Return a, w1) /\ w' = f w1.
Proof.
  unfold try_finally. destruct (m w) as [[a'| |] w1]; intros H; [|done|done].
  injection H as -> <-. eauto.
Qed.

(** ** The engine manager *)

Section EngineFacts.

Variable env : Env.

Lemma deleteFile_loaded (filename : string) (w : World) :
  loaded w = true ->
  exists w',
    deleteFile filename w = (Return tt, w')
    /\ loaded w' = true
    /\ state w' = state w
    /\ vfs w' = delete filename (vfs w)
    /\ trace w' = trace w ++ [EngineDelete filename].
Proof.
  intros Hl. unfold deleteFile, try_catch, ret. rewrite Hl. simpl.
  destruct (vfs w !! filename) eqn:E; eexists; (split; [reflexivity|]); simpl.
  - done.
  - by rewrite (delete_id _ _ E).
Qed.

(** [cleanup] on a loaded engine: no call throws, every name is tried in
    order, and afterwards none of them is in the storage, whether it was
    there before or not. *)
Lemma cleanup_loaded (filenames : list string) (w : World) :
  loaded w = true ->
  exists w',
    cleanup filenames w = (Return tt, w')
    /\ loaded w' = true
    /\ state w' = state w
    /\ trace w' = trace w ++ map EngineDelete filenames
    /\ (forall name, name ∈ filenames -> vfs w' !! name = None)
    /\ (forall name, name ∉ filenames -> vfs w' !! name = vfs w !! name).
Proof.
  revert w. induction filenames as [|f fs IH]; intros w Hl.
  - exists w. simpl. rewrite app_nil_r. repeat split; try done.
    intros name Hin. by apply elem_of_nil in Hin.
  - destruct (deleteFile_loaded f w Hl) as (w1 & Hd & Hl1 & Hs1 & Hv1 & Ht1).
    destruct (IH w1 Hl1) as (w2 & Hc & Hl2 & Hs2 & Ht2 & Hin & Hout).
    exists w2. simpl. unfold bind. rewrite Hd, Hc.
    repeat split; try done.
    + congruence.
    + rewrite Ht2, Ht1, <- app_assoc. done.
    + intros name [->|Hname]%elem_of_cons.
      * destruct (decide (f ∈ fs)) as [Hf|Hf]; [by apply Hin|].
        rewrite (Hout f Hf), Hv1. apply lookup_delete_eq.
      * by apply Hin.
    + intros name [Hne Hname]%not_elem_of_cons.
      rewrite (Hout name Hname), Hv1. by apply lookup_delete_ne.
Qed.

Lemma readFile_Return_inv (filename : string) w data w' :
  readFile filename w = (Return data, w') ->
  loaded w = true /\ loaded w' = true /\ vfs w' = vfs w.
Proof.
  unfold readFile. destruct (loaded w) eqn:Hl; simpl; [|done].
  destruct (vfs w !! filename); [|done]. intros H. injection H as _ <-. done.
Qed.

Lemma stage_Return_inv (total : nat) (rest : list File) i acc w names w' :
  stage env total rest i acc w = (Return names, w') ->
  names = acc ++ imap (fun j => staged_name (i + j)) rest.
Proof.
  revert i acc w. induction rest as [|f rest IH]; intros i acc w H.
  - simpl in H. injection H as <- _. by rewrite app_nil_r.
  - simpl in H.
    apply bind_Return_inv in H as (_ & w1 & _ & H).
    apply bind_Return_inv in H as (_ & w2 & _ & H).
    apply IH in H. rewrite H, <- app_assoc. simpl. rewrite Nat.add_0_r.
    do 2 f_equal. apply imap_ext. intros j x _. simpl. f_equal. lia.
Qed.

End EngineFacts.

(** C6, as the code has it.  On the success path of a run every staged
    input and the output artifact are gone from the working storage
    afterwards; and cleaning up on a loaded engine never throws, tries
    every name in order and leaves none of them behind, so a file that is
    already absent neither is an error nor stops the remaining deletions.
    (A run that fails inside the [try] block deletes nothing.) *)
Theorem cleanup_on_success (env : Env) (this : SlideshowProcessor) (run : nat)
    (files : list File) (w : World) (result : Bytes) (w' : World) :
  process env this run files w = (Return result, w') ->
  (forall name, name ∈ staged_names files ++ [outputFile] -> vfs w' !! name = None)
  /\ (forall filenames w0, loaded w0 = true ->
        exists w1,
          cleanup filenames w0 = (Return tt, w1)
          /\ trace w1 = trace w0 ++ map EngineDelete filenames
          /\ (forall name, name ∈ filenames -> vfs w1 !! name = None)).
Proof.
  intros H. split.
  - unfold process in H.
    destruct (length files <? 2)%nat; [discriminate H|].
    apply bind_Return_inv in H as (_ & w1 & _ & H).
    apply bind_Return_inv in H as ([maxWidth maxHeight] & w2 & _ & H).
    apply bind_Return_inv in H as (_ & w3 & _ & H).
    apply bind_Return_inv in H as (ready & w4 & _ & H).
    destruct ready; simpl in H; [|discriminate H].
    apply bind_Return_inv in H as (_ & w5 & _ & H).
    apply try_finally_Return_inv in H as (w6 & H & ->).
    apply try_catch_rethrow_Return_inv in H.
    unfold process_body in H.
    apply bind_Return_inv in H as (inputFiles & v1 & Hstage & H).
    apply bind_Return_inv in H as (_ & v2 & _ & H).
    apply bind_Return_inv in H as (_ & v3 & _ & H).
    apply bind_Return_inv in H as (_ & v4 & _ & H).
    apply bind_Return_inv in H as (data & v5 & Hread & H).
    apply bind_Return_inv in H as ([] & v6 & Hclean & H).
    apply bind_Return_inv in H as ([] & v7 & Hsync & H).
    injection H as _ Hw7. injection Hsync as Hv7.
    apply stage_Return_inv in Hstage. simpl in Hstage.
    apply readFile_Return_inv in Hread as (_ & Hl5 & _).
    destruct (cleanup_loaded (inputFiles ++ [outputFile]) v5 Hl5)
      as (v6' & Hclean' & _ & _ & _ & Hgone & _).
    rewrite Hclean' in Hclean. injection Hclean as Hv6.
    intros name Hname. rewrite <- Hw7, <- Hv7, <- Hv6, !setState_vfs. apply Hgone.
    rewrite Hstage. exact Hname.
  - intros filenames w0 Hl.
    destruct (cleanup_loaded filenames w0 Hl) as (w1 & Hc & _ & _ & Ht & Hgone & _).
    eauto.
Qed.

Lemma cleanup_on_success_witness :
  process env_ok scenarioA 0 scenarioA_files new_World
  = (Return [], (process env_ok scenarioA 0 scenarioA_files new_World).2)
  /\ vfs (process env_ok scenarioA 0 scenarioA_files new_World).2 !! "input0.jpg" = None
  /\ vfs (process env_ok scenarioA 0 scenarioA_files new_World).2 !! "input2.jpg" = None
  /\ vfs (process env_ok scenarioA 0 scenarioA_files new_World).2 !! outputFile = None.
Proof.
  assert (H : process env_ok scenarioA 0 scenarioA_files new_World
              = (Return [], (process env_ok scenarioA 0 scenarioA_files new_World).2)).
  { vm_compute. reflexivity. }
  destruct (cleanup_on_success env_ok scenarioA 0 scenarioA_files new_World [] _ H)
    as [Hgone _].
  split; [exact H|].
  repeat split; apply Hgone; apply list_elem_of_In; vm_compute; tauto.
Defined.

(** C6 on the failure path, which does not clean up: when [exec]
    rejects, the run fails and the three staged inputs stay in the
    working storage. *)
Lemma failure_path_keeps_staged_files :
  let r := process env_exec_rejects scenarioA 0 scenarioA_files new_World in
  r.1 = Throw MESSAGES.ERROR_PROCESSING
  /\ staged_names scenarioA_files = ["input0.jpg"; "input1.jpg"; "input2.jpg"]
  /\ ~ (forall name, name ∈ staged_names scenarioA_files -> vfs r.2 !! name = None).
Proof.
  split; [|split].
  - vm_compute. reflexivity.
  - vm_compute. reflexivity.
  - intros H. specialize (H "input0.jpg").
    assert (Hin : "input0.jpg" ∈ staged_names scenarioA_files).
    { change (staged_names scenarioA_files) with
        (imap staged_name scenarioA_files). apply list_elem_of_In.
      vm_compute. left. reflexivity. }
    specialize (H Hin). vm_compute in H. discriminate H.
Qed.

(** ** Progress written by the orchestrator *)














Lemma advances_silent {A} (m : M A) (f : World -> World) lo hi :
  lo <= hi -> silent f -> (forall w, (m w).2 = f w) -> advances lo hi m.
Proof.
  intros Hle Hf Hm w. destruct (Hf w) as (new & E & Q).
  exists new. rewrite Hm, Q. done.
Qed.













Section EngineQuiet.

Variable env : Env.








End EngineQuiet.

(** ** Staging progress *)

Lemma upload_ratio_mono (i j total : nat) :
  (i <= j)%nat ->
  (inject_Z (Z.of_nat i) / inject_Z (Z.of_nat total) * 20
   <= inject_Z (Z.of_nat j) / inject_Z (Z.of_nat total) * 20)%Q.
Proof.
  intros Hij. apply Qmult_le_compat_r; [|done].
  unfold Qdiv. apply Qmult_le_compat_r.
  - rewrite <- Zle_Qle. lia.
  - apply Qinv_le_0_compat. change 0%Q with (inject_Z 0). rewrite <- Zle_Qle. lia.
Qed.

Lemma upload_ratio_range (i total : nat) :
  (i <= total)%nat ->
  (0 <= inject_Z (Z.of_nat i) / inject_Z (Z.of_nat total) * 20 <= 20)%Q.
Proof.
  intros Hi. split.
  - apply (Qle_trans _ (inject_Z (Z.of_nat 0) / inject_Z (Z.of_nat total) * 20)).
    + unfold Qdiv. simpl. rewrite Qmult_0_l, Qmult_0_l. apply Qle_refl.
    + apply upload_ratio_mono. lia.
  - destruct total as [|total].
    + assert (i = 0%nat) as -> by lia. done.
    + assert (H : (inject_Z (Z.of_nat i) / inject_Z (Z.of_nat (S total)) <= 1)%Q).
      { apply Qle_shift_div_r.
        - change 0%Q with (inject_Z 0). rewrite <- Zlt_Qlt. lia.
        - rewrite Qmult_1_l, <- Zle_Qle. lia. }
      lra.
Qed.

Lemma uploadProgress_doubles_agree (i total : nat) :
  (i < total)%nat -> (total <= 50)%nat ->
  uploadProgress_doubles i total = uploadProgress i total.
Proof.
  intros Hi Ht.
  assert (Hall : forallb (fun total =>
                   forallb (fun i => uploadProgress_doubles i total
                                     =? uploadProgress i total)
                           (seq 0 total)) (seq 0 51) = true)
    by (vm_compute; reflexivity).
  rewrite forallb_forall in Hall.
  specialize (Hall total ltac:(apply in_seq; lia)).
  rewrite forallb_forall in Hall.
  specialize (Hall i ltac:(apply in_seq; lia)).
  by apply Z.eqb_eq.
Qed.

Lemma uploadProgress_mono (i j total : nat) :
  (i <= j)%nat -> uploadProgress i total <= uploadProgress j total.
Proof.
  intros Hij. unfold uploadProgress, Js.math_floor.
  apply Zplus_le_compat_l, Qfloor_resp_le. by apply upload_ratio_mono.
Qed.

Lemma uploadProgress_range (i total : nat) :
  (i <= total)%nat -> 20 <= uploadProgress i total <= 40.
Proof.
  intros Hi. unfold uploadProgress, Js.math_floor.
  destruct (upload_ratio_range i total Hi) as [Hlo Hhi].
  apply Qfloor_resp_le in Hlo, Hhi.
  change (Qfloor 0) with 0 in Hlo. change (Qfloor 20) with 20 in Hhi. lia.
Qed.

Section PipelineProgress.

Variable env : Env.
Variable this : SlideshowProcessor.




End PipelineProgress.



(** ** A run whose engine cannot be acquired *)

Lemma progress_events_fields (rs : list Q) (w : World) :
  vfs (foldl (fun w r => on_progress r w) w rs) = vfs w
  /\ loaded (foldl (fun w r => on_progress r w) w rs) = loaded w
  /\ processing (state (foldl (fun w r => on_progress r w) w rs)) = processing (state w).
Proof.
  revert w. induction rs as [|r rs IH]; intros w; [done|].
  simpl. destruct (IH (on_progress r w)) as (-> & -> & ->).
  unfold on_progress. by rewrite setState_vfs, setState_loaded, setState_state.
Qed.

(** Whenever the acquisition fails (no SharedArrayBuffer, or a load that
    rejects), the run throws the load error from before the [try] block:
    nothing has been staged, and the [finally] that clears [processing]
    does not run. *)
Lemma process_engine_unavailable (env : Env) (this : SlideshowProcessor) (run : nat)
    (files : list File) (w : World) :
  (2 <= length files)%nat ->
  is_Some (mapM getImageDimensions files) ->
  loaded w = false ->
  ffmpegLoading (state w) = false ->
  sharedArrayBuffer env = false \/ load_ok env = false ->
  exists w',
    process env this run files w = (Throw MESSAGES.ERROR_FFMPEG_LOAD, w')
    /\ vfs w' = vfs w
    /\ processing (state w') = true.
Proof.
  intros Hlen [dims Hdims] Hl Hloading Hfail.
  unfold process. destruct (Nat.ltb_spec (length files) 2) as [?|_]; [lia|].
  unfold bind at 1. unfold sync at 1.
  unfold bind at 1. unfold analyzeImages. rewrite Hdims. unfold ret at 1.
  unfold bind at 1. unfold sync at 1.
  unfold bind at 1.
  set (w2 := StateManager.setState Orchestrator
               [progressMessage_to MESSAGES.LOADING_FFMPEG; progress_to 10]
               (StateManager.setState Orchestrator
                  [processing_to true; progressMessage_to MESSAGES.ANALYZING_IMAGES;
                   progress_to 5] w)).
  assert (Hl2 : loaded w2 = false) by (unfold w2; by rewrite !setState_loaded).
  assert (Hg2 : ffmpegLoading (state w2) = false)
    by (unfold w2; by rewrite !setState_state).
  assert (Hv2 : vfs w2 = vfs w) by (unfold w2; by rewrite !setState_vfs).
  assert (Hp2 : processing (state w2) = true) by (unfold w2; by rewrite !setState_state).
  unfold initialize, initialize_begin. rewrite Hl2, Hg2.
  destruct (sharedArrayBuffer env) eqn:Hsab; simpl.
  - destruct Hfail as [?|Hload]; [done|]. rewrite Hload. simpl.
    eexists. split; [reflexivity|].
    destruct (progress_events_fields (load_progress env)
                (log [EngineLoad]
                   (StateManager.setState Manager
                      [ffmpegLoading_to true; progressMessage_to MESSAGES.LOADING_FFMPEG;
                       progress_to 0] w2))) as (Hv & _ & Hp).
    rewrite setState_vfs, setState_state, Hv. simpl.
    rewrite Hp. simpl. rewrite setState_vfs, setState_state. simpl. done.
  - eexists. split; [reflexivity|].
    rewrite setState_vfs, setState_state. simpl. done.
Qed.

(** C5, at a browser without SharedArrayBuffer and at an engine whose
    load rejects: the run fails with the load error and nothing is staged,
    but [processing] is still [true] afterwards. *)
Theorem engine_unavailable_keeps_processing :
  let r := process env_no_sab scenarioA 0 scenarioA_files new_World in
  let r' := process env_load_rejects scenarioA 0 scenarioA_files new_World in
  r.1 = Throw MESSAGES.ERROR_FFMPEG_LOAD
  /\ trace r.2 = [SetProgress Orchestrator 5; SetProgress Orchestrator 10]
  /\ vfs r.2 = ∅
  /\ processing (state r.2) = true
  /\ r'.1 = Throw MESSAGES.ERROR_FFMPEG_LOAD
  /\ trace r'.2 = [SetProgress Orchestrator 5; SetProgress Orchestrator 10;
                   SetProgress Manager 0; EngineLoad]
  /\ vfs r'.2 = ∅
  /\ processing (state r'.2) = true.
Proof. vm_compute. repeat split. Qed.

(** The sibling path: a failure inside the [try] block does clear
    [processing]. *)
Example exec_failure_clears_processing :
  processing (state (process env_exec_rejects scenarioA 0 scenarioA_files new_World).2)
  = false.
Proof. vm_compute. reflexivity. Qed.

(** ** Validation of the durations *)

(** C4. When the duration that [generate] goes on with (the number in
    the field, or the default when the field gives zero or no number) is
    below or above its range, for the display time or for the fade time,
    [generate] shows an error and returns before the processor is
    called: the trace gets no event (no progress, no engine call), the
    working storage, the engine and the run flags are as before, and the
    processor keeps its durations.  After a file list that passes
    validation the error is the one about the duration that is out of
    range. *)
Theorem generate_rejects_invalid_duration (env : Env) (run : nat)
    (displayInput transitionInput : Double.t) (c : SlideshowController) (w : World) :
  let D := Controller.or_default displayInput CONFIG.DISPLAY_DURATION in
  let T := Controller.or_default transitionInput CONFIG.TRANSITION_DURATION in
  (Double.ltb D CONFIG.DISPLAY_DURATION_MIN = true
   \/ Double.ltb CONFIG.DISPLAY_DURATION_MAX D = true
   \/ Double.ltb T CONFIG.TRANSITION_DURATION_MIN = true
   \/ Double.ltb CONFIG.TRANSITION_DURATION_MAX T = true) ->
  let r := Controller.generate env run displayInput transitionInput c w in
  r.2 = StateManager.setState UserInterface [error_to None] w
  /\ trace r.2 = trace w
  /\ vfs r.2 = vfs w
  /\ loaded r.2 = loaded w
  /\ processing (state r.2) = processing (state w)
  /\ progress (state r.2) = progress (state w)
  /\ processor r.1 = processor c
  /\ shownResult r.1 = None
  /\ is_Some (errorText r.1)
  /\ (valid (validateSlideshowFiles (files c)) = true ->
      ((Double.ltb D CONFIG.DISPLAY_DURATION_MIN = true
        \/ Double.ltb CONFIG.DISPLAY_DURATION_MAX D = true) ->
       errorText r.1 = Some Controller.display_message)
      /\ (~ (Double.ltb D CONFIG.DISPLAY_DURATION_MIN = true
             \/ Double.ltb CONFIG.DISPLAY_DURATION_MAX D = true) ->
          errorText r.1 = Some Controller.fade_message)).
Proof.
  intros D T Hout r.
  assert (Hworld : r.2 = StateManager.setState UserInterface [error_to None] w
                   /\ processor r.1 = processor c /\ shownResult r.1 = None
                   /\ is_Some (errorText r.1)
                   /\ (valid (validateSlideshowFiles (files c)) = true ->
                       ((Double.ltb D CONFIG.DISPLAY_DURATION_MIN = true
                         \/ Double.ltb CONFIG.DISPLAY_DURATION_MAX D = true) ->
                        errorText r.1 = Some Controller.display_message)
                       /\ (~ (Double.ltb D CONFIG.DISPLAY_DURATION_MIN = true
                              \/ Double.ltb CONFIG.DISPLAY_DURATION_MAX D = true) ->
                           errorText r.1 = Some Controller.fade_message))).
  { unfold r, Controller.generate.
    change (files (Controller.hideResult (Controller.hideError c))) with (files c).
    destruct (valid (validateSlideshowFiles (files c))) eqn:Hvalid; cbn [negb].
    2:{ cbn [fst snd]. repeat split; try done; by eexists. }
    fold D T.
    destruct (Double.ltb D CONFIG.DISPLAY_DURATION_MIN) eqn:E1; cbn [orb fst snd].
    { repeat split; try done; try (by eexists).
      intros Hn. exfalso. apply Hn. by left. }
    destruct (Double.ltb CONFIG.DISPLAY_DURATION_MAX D) eqn:E2; cbn [orb fst snd].
    { repeat split; try done; try (by eexists).
      intros Hn. exfalso. apply Hn. by right. }
    destruct (Double.ltb T CONFIG.TRANSITION_DURATION_MIN) eqn:E3; cbn [orb fst snd].
    { repeat split; try done; try (by eexists). intros [?|?]; congruence. }
    destruct (Double.ltb CONFIG.TRANSITION_DURATION_MAX T) eqn:E4; cbn [orb fst snd].
    { repeat split; try done; try (by eexists). intros [?|?]; congruence. }
    exfalso. destruct Hout as [H|[H|[H|H]]]; congruence. }
  destruct Hworld as (Hw & Hp & Hr & He & Hmsg).
  rewrite Hw, setState_trace, setState_vfs, setState_loaded, setState_state.
  simpl. rewrite app_nil_r. repeat split; try done; by apply Hmsg.
Qed.

Lemma generate_rejects_invalid_duration_witness :
  let r := Controller.generate env_ok 0 (Double.round (15 # 10)) (Double.of_Z 5)
             scenarioC_controller new_World in
  trace r.2 = []
  /\ vfs r.2 = ∅
  /\ errorText r.1 = Some "Fade time must be between 0.1 and 3 seconds".
Proof.
  assert (Hout :
    Double.ltb (Controller.or_default (Double.round (15 # 10)) CONFIG.DISPLAY_DURATION)
               CONFIG.DISPLAY_DURATION_MIN = true
    \/ Double.ltb CONFIG.DISPLAY_DURATION_MAX
                  (Controller.or_default (Double.round (15 # 10)) CONFIG.DISPLAY_DURATION)
       = true
    \/ Double.ltb (Controller.or_default (Double.of_Z 5) CONFIG.TRANSITION_DURATION)
                  CONFIG.TRANSITION_DURATION_MIN = true
    \/ Double.ltb CONFIG.TRANSITION_DURATION_MAX
                  (Controller.or_default (Double.of_Z 5) CONFIG.TRANSITION_DURATION)
       = true).
  { right. right. right. vm_compute. reflexivity. }
  destruct (generate_rejects_invalid_duration env_ok 0 (Double.round (15 # 10))
              (Double.of_Z 5) scenarioC_controller new_World Hout)
    as (_ & Ht & Hv & _ & _ & _ & _ & _ & _ & Hmsg).
  split; [exact Ht|]. split; [exact Hv|].
  apply Hmsg; [reflexivity|]. intros [H|H]; vm_compute in H; discriminate H.
Defined.

(** The processor on its own does not look at the durations: called
    directly with a transition of 5 seconds it compiles and runs. *)
Example process_does_not_validate :
  (process env_ok {| displayDuration := CONFIG.DISPLAY_DURATION;
                     transitionDuration := Double.of_Z 5;
                     fps := CONFIG.VIDEO_FPS |}
     0 scenarioA_files new_World).1 = Return [].
Proof. vm_compute. reflexivity. Qed.

(** C4, at a processor that is called directly and at a display time of
    0 in the field.  The processor called with a fade time of 5 seconds
    compiles the graph and runs the engine.  And a display
    time of 0 in the field is below the range, yet [generate] does not
    reject it: [||] puts the default in its place, and the slideshow is
    compiled and run with a display time of 1.5 seconds. *)
Lemma out_of_range_duration_is_compiled :
  let five := {| displayDuration := CONFIG.DISPLAY_DURATION;
                 transitionDuration := Double.of_Z 5;
                 fps := CONFIG.VIDEO_FPS |} in
  let p := process env_ok five 0 scenarioA_files new_World in
  let r := Controller.generate env_ok 0 (Double.Finite 0) (Double.round (5 # 10))
             scenarioC_controller new_World in
  Double.ltb CONFIG.TRANSITION_DURATION_MAX (transitionDuration five) = true
  /\ p.1 = Return []
  /\ head (engine_events (trace p.2)) = Some EngineLoad
  /\ length (engine_events (trace p.2)) = 10%nat
  /\ Double.ltb (Double.Finite 0) CONFIG.DISPLAY_DURATION_MIN = true
  /\ errorText r.1 = None
  /\ shownResult r.1 = Some []
  /\ displayDuration (processor r.1) = CONFIG.DISPLAY_DURATION
  /\ head (engine_events (trace r.2)) = Some EngineLoad
  /\ length (engine_events (trace r.2)) = 10%nat.
Proof. vm_compute. repeat split; reflexivity. Qed.

(** ** Two callers of [initialize] *)

Lemma initialize_begin_starts_load (env : Env) (caller : nat) (w : World) :
  loaded w = false -> ffmpegLoading (state w) = false -> sharedArrayBuffer env = true ->
  initialize_begin env caller w
  = (InitLoading,
     log [EngineLoad]
       (StateManager.setState Manager
          [ffmpegLoading_to true; progressMessage_to MESSAGES.LOADING_FFMPEG;
           progress_to 0] w)).
Proof. intros Hl Hg Hs. unfold initialize_begin. by rewrite Hl, Hg, Hs. Qed.

Lemma initialize_begin_waits (env : Env) (caller : nat) (w : World) :
  loaded w = false -> ffmpegLoading (state w) = true ->
  initialize_begin env caller w
  = (InitWaiting, StateManager.subscribe_ffmpegLoaded caller w).
Proof. intros Hl Hg. unfold initialize_begin. by rewrite Hl, Hg. Qed.

(** Two callers [a] and [b] on a fresh page, [b] entering while the load
    that [a] started is pending: one load is started; [a] gets the result
    of the load; [b] gets [true] when the load resolves and nothing at all
    when it rejects. *)
Lemma single_flight (env : Env) (a b : nat) (ok : bool) :
  sharedArrayBuffer env = true -> a <> b ->
  let s := Scheduler.run env
             [Scheduler.Call a; Scheduler.Call b; Scheduler.LoadSettles ok] in
  Scheduler.loads s = 1%nat
  /\ Scheduler.outcome a s = Some ok
  /\ Scheduler.outcome b s = (if ok then Some true else None).
Proof.
  intros Hsab Hab.
  assert (Hrun : Scheduler.run env
                   [Scheduler.Call a; Scheduler.Call b; Scheduler.LoadSettles ok]
                 = let (ready, w) :=
                     initialize_resume ok
                       (StateManager.subscribe_ffmpegLoaded b
                          (log [EngineLoad]
                             (StateManager.setState Manager
                                [ffmpegLoading_to true;
                                 progressMessage_to MESSAGES.LOADING_FFMPEG;
                                 progress_to 0] new_World))) in
                   {| Scheduler.world := w; Scheduler.owner := None;
                      Scheduler.returned := [(a, ready)] |}).
  { unfold Scheduler.run. cbn [foldl]. unfold Scheduler.step at 3.
    change (Scheduler.world Scheduler.new) with new_World.
    rewrite (initialize_begin_starts_load env a new_World eq_refl eq_refl Hsab).
    unfold Scheduler.step at 2. cbn [Scheduler.world].
    rewrite initialize_begin_waits by (vm_compute; reflexivity).
    reflexivity. }
  rewrite Hrun. clear Hrun Hsab env.
  assert (Eaa : (a =? a)%nat = true) by apply Nat.eqb_refl.
  assert (Ebb : (b =? b)%nat = true) by apply Nat.eqb_refl.
  assert (Eab : (a =? b)%nat = false) by (by apply Nat.eqb_neq).
  assert (Eba : (b =? a)%nat = false) by (by apply Nat.eqb_neq).
  vm_compute in Eaa, Ebb, Eab, Eba.
  destruct ok; vm_compute; rewrite ?Eaa, ?Eab, ?Eba, ?Ebb; done.
Qed.

(** When the load resolves, the second caller, which found
    [ffmpegLoading] set and subscribed, is resolved with the same [true]
    by the notification of 'ffmpegLoaded'; one load was started. *)
Example concurrent_initialize_load_resolves :
  let s := Scheduler.run env_ok
             [Scheduler.Call 1; Scheduler.Call 2; Scheduler.LoadSettles true] in
  Scheduler.loads s = 1%nat
  /\ Scheduler.outcome 1 s = Some true
  /\ Scheduler.outcome 2 s = Some true.
Proof. vm_compute. repeat split. Qed.

(** C9, at a load that rejects while a second caller waits: one load was
    started and the first caller gets [false], but 'ffmpegLoaded' does
    not change, no subscriber is notified, and the promise of the second
    caller is never settled. *)
Theorem concurrent_initialize_load_rejects :
  let s := Scheduler.run env_ok
             [Scheduler.Call 1; Scheduler.Call 2; Scheduler.LoadSettles false] in
  Scheduler.loads s = 1%nat
  /\ Scheduler.outcome 1 s = Some false
  /\ Scheduler.outcome 2 s = None
  /\ waiting (Scheduler.world s) = [2%nat]
  /\ Scheduler.owner s = None.
Proof. vm_compute. repeat split. Qed.

(** The waiting caller stays unsettled through any number of further
    loads that reject; the first later load that resolves settles it, with
    [true]. *)
Example waiter_settled_by_a_later_load :
  let s := Scheduler.run env_ok
             [Scheduler.Call 1; Scheduler.Call 2; Scheduler.LoadSettles false;
              Scheduler.Call 3; Scheduler.LoadSettles false;
              Scheduler.Call 4; Scheduler.LoadSettles true] in
  Scheduler.loads s = 3%nat
  /\ Scheduler.outcome 1 s = Some false
  /\ Scheduler.outcome 2 s = Some true.
Proof. vm_compute. repeat split. Qed.

(** ** The progress bar *)

Module ProgressBarFacts.

Import ProgressBar.

Lemma clamp_range (progress : Z) : 0 <= clamp progress <= 100.
Proof. unfold clamp. lia. Qed.

Lemma updateProgress_consistent progress b :
  consistent b -> consistent (updateProgress progress b).
Proof.
  intros (H1 & H2 & H3). unfold updateProgress.
  destruct (Z.ltb_spec (clamp progress) (currentProgress b)); [done|].
  pose proof (clamp_range progress). repeat split; simpl; lia.
Qed.

Lemma step_consistent b op : consistent b -> consistent (step b op).
Proof.
  intros H. destruct op; simpl.
  - by apply updateProgress_consistent.
  - exact H.
  - exact H.
  - unfold consistent, hide, updateProgress. change (clamp 0) with 0.
    simpl. lia.
Qed.

Lemma run_consistent ops : consistent (run ops).
Proof.
  unfold run. induction ops as [|op ops IH] using rev_ind.
  - repeat split; simpl; lia.
  - rewrite foldl_snoc. by apply step_consistent.
Qed.

End ProgressBarFacts.


(** The bar of a first run: the state's progress goes
    5, 10, 0, 100, 20, ...; the bar shows
    5, 10, 10, 100, 100, ... *)
Example progress_bar_masks_regression :
  map (fun n => ProgressBar.percentage
                  (ProgressBar.run
                     (ProgressBar.Show
                        :: map ProgressBar.OnProgress (take n [5; 10; 0; 100; 20; 26]))))
      [1; 2; 3; 4; 5; 6]%nat
  = [5; 10; 10; 100; 100; 100].
Proof. reflexivity. Qed.


(** * Further properties of the code *)

(** ** validation.ts *)

Lemma includes_elem_of (l : list string) (s : string) :
  includes l s = true <-> s ∈ l.
Proof.
  unfold includes. rewrite existsb_exists, list_elem_of_In. split.
  - intros (x & Hx & E). apply String.eqb_eq in E. by subst.
  - intros H. exists s. split; [done | apply String.eqb_refl].
Qed.

(** A file passes [validateFile] exactly when its extension (the
    lower-cased text after its last dot, with a dot in front) is an
    accepted format, its MIME type is an accepted type, and it is not
    larger than 50 MB. *)
Theorem validateFile_valid_iff (file : File) :
  valid (validateFile file) = true
  <-> extension_of file ∈ CONFIG.ACCEPTED_FORMATS
      /\ file_type file ∈ CONFIG.ACCEPTED_MIME_TYPES
      /\ file_size file <= CONFIG.MAX_FILE_SIZE.
Proof.
  unfold validateFile. rewrite <- !includes_elem_of.
  set (a := includes CONFIG.ACCEPTED_FORMATS (extension_of file)).
  set (b := includes CONFIG.ACCEPTED_MIME_TYPES (file_type file)).
  destruct a, b, (Z.ltb_spec CONFIG.MAX_FILE_SIZE (file_size file));
    cbn [negb valid]; split; try done; try (intros (? & ? & ?); done || lia).
Qed.

(** The loop over the files: it ends valid when every file is, and
    otherwise with the result of the first file that is not. *)
Lemma validate_each_spec (files : list File) :
  (valid (validate_each files) = true
   /\ Forall (fun f => valid (validateFile f) = true) files
   /\ validate_each files = {| valid := true; validation_error := None |})
  \/ (exists before f after,
        files = before ++ f :: after
        /\ Forall (fun f => valid (validateFile f) = true) before
        /\ valid (validateFile f) = false
        /\ validate_each files = validateFile f).
Proof.
  induction files as [|f files IH].
  - left. repeat split. constructor.
  - simpl. destruct (valid (validateFile f)) eqn:Hf; simpl.
    + destruct IH as [(Hv & Hall & Heq) | (before & g & after & -> & Hall & Hg & Heq)].
      * left. repeat split; try done. by constructor.
      * right. exists (f :: before), g, after. repeat split; try done. by constructor.
    + right. exists [], f, files. repeat split; try done.
Qed.

(** A list of files passes [validateSlideshowFiles] exactly when it has
    between 2 and 20 files and each of them passes [validateFile]. *)
Theorem validateSlideshowFiles_valid_iff (files : list File) :
  valid (validateSlideshowFiles files) = true
  <-> (2 <= length files <= CONFIG.MAX_FILES_SLIDESHOW)%nat
      /\ Forall (fun f => valid (validateFile f) = true) files.
Proof.
  unfold validateSlideshowFiles.
  destruct (Nat.ltb_spec (length files) 2); simpl.
  { split; [done | intros [? _]; lia]. }
  destruct (Nat.ltb_spec CONFIG.MAX_FILES_SLIDESHOW (length files)); simpl.
  { split; [done | intros [? _]; lia]. }
  destruct (validate_each_spec files)
    as [(Hv & Hall & _) | (before & f & after & -> & Hall & Hf & Heq)].
  - rewrite Hv. split; [intros _; split; [lia | done] | done].
  - rewrite Heq, Hf. split; [done|]. intros [_ Hall'].
    apply Forall_app in Hall' as [_ Hall']. apply Forall_cons in Hall' as [Hf' _].
    congruence.
Qed.

(** What [validateSlideshowFiles] reports: fewer than 2 files and more
    than 20 files have their own messages; otherwise a failure is the
    failure of the first file that does not pass, which is the format
    message or the size message.  A failure always carries a message. *)
Theorem validateSlideshowFiles_errors (files : list File) :
  ((length files < 2)%nat ->
   validateSlideshowFiles files
   = {| valid := false; validation_error := Some MESSAGES.ERROR_MIN_FILES_SLIDESHOW |})
  /\ ((CONFIG.MAX_FILES_SLIDESHOW < length files)%nat ->
      validateSlideshowFiles files
      = {| valid := false; validation_error := Some MESSAGES.ERROR_MAX_FILES |})
  /\ ((2 <= length files <= CONFIG.MAX_FILES_SLIDESHOW)%nat ->
      valid (validateSlideshowFiles files) = false ->
      exists before f after,
        files = before ++ f :: after
        /\ Forall (fun f => valid (validateFile f) = true) before
        /\ valid (validateFile f) = false
        /\ validateSlideshowFiles files = validateFile f)
  /\ (valid (validateSlideshowFiles files) = false ->
      validation_error (validateSlideshowFiles files)
      ∈ [Some MESSAGES.ERROR_MIN_FILES_SLIDESHOW; Some MESSAGES.ERROR_MAX_FILES;
         Some MESSAGES.ERROR_INVALID_FORMAT; Some MESSAGES.ERROR_FILE_TOO_LARGE]).
Proof.
  assert (Hfile : forall f, valid (validateFile f) = false ->
            validation_error (validateFile f)
            ∈ [Some MESSAGES.ERROR_INVALID_FORMAT; Some MESSAGES.ERROR_FILE_TOO_LARGE]).
  { intros f. unfold validateFile.
    set (a := includes CONFIG.ACCEPTED_FORMATS (extension_of f)).
    set (b := includes CONFIG.ACCEPTED_MIME_TYPES (file_type f)).
    destruct a, b, (CONFIG.MAX_FILE_SIZE <? file_size f);
      cbn [negb valid validation_error]; intros Hv; try discriminate Hv;
      first [apply list_elem_of_here | apply list_elem_of_further, list_elem_of_here]. }
  unfold validateSlideshowFiles. repeat split.
  - intros H. destruct (Nat.ltb_spec (length files) 2); [done | lia].
  - intros H. destruct (Nat.ltb_spec (length files) 2).
    + unfold CONFIG.MAX_FILES_SLIDESHOW in H. lia.
    + destruct (Nat.ltb_spec CONFIG.MAX_FILES_SLIDESHOW (length files)); [done | lia].
  - intros [H1 H2].
    destruct (Nat.ltb_spec (length files) 2); [lia|].
    destruct (Nat.ltb_spec CONFIG.MAX_FILES_SLIDESHOW (length files)); [lia|].
    simpl. intros Hinv.
    destruct (validate_each_spec files) as [(Hv & _) | H']; [congruence | exact H'].
  - destruct (Nat.ltb_spec (length files) 2); simpl.
    { intros _. apply list_elem_of_here. }
    destruct (Nat.ltb_spec CONFIG.MAX_FILES_SLIDESHOW (length files)); simpl.
    { intros _. apply list_elem_of_further, list_elem_of_here. }
    intros Hinv.
    destruct (validate_each_spec files)
      as [(Hv & _) | (before & f & after & _ & _ & Hf & Heq)]; [congruence|].
    rewrite Heq. do 2 apply list_elem_of_further. by apply Hfile.
Qed.

(** The comparison tool's list passes exactly when it has two files that
    both pass [validateFile]. *)
Theorem validateComparisonFiles_valid_iff (files : list File) :
  valid (validateComparisonFiles files) = true
  <-> length files = 2%nat /\ Forall (fun f => valid (validateFile f) = true) files.
Proof.
  unfold validateComparisonFiles.
  destruct (Nat.eqb_spec (length files) 2); simpl.
  - destruct (validate_each_spec files)
      as [(Hv & Hall & _) | (before & f & after & -> & Hall & Hf & Heq)].
    + rewrite Hv. split; [done | done].
    + rewrite Heq, Hf. split; [done|]. intros [_ Hall'].
      apply Forall_app in Hall' as [_ Hall']. apply Forall_cons in Hall' as [Hf' _].
      congruence.
  - split; [done | intros [? _]; done].
Qed.

(** ** Extensions *)

Lemma last_Some_cons {A} (x : A) (l : list A) :
  l <> [] -> List.last (map Some (x :: l)) None = List.last (map Some l) None.
Proof. destruct l; [done | reflexivity]. Qed.

Lemma split_go_nonempty (sep : ascii) (cur s : string) : Js.split_go sep cur s <> [].
Proof.
  destruct (split_go_last sep cur s) as [part H].
  intros E. rewrite E in H. discriminate H.
Qed.

Lemma split_go_last_after_sep (sep : ascii) (cur a b : string) :
  List.last (map Some (Js.split_go sep cur (a +:+ String sep b))) None
  = List.last (map Some (Js.split_go sep "" b)) None.
Proof.
  revert cur. induction a as [|c a IH]; intros cur.
  - change ("" +:+ String sep b) with (String sep b). simpl.
    rewrite Ascii.eqb_refl. apply last_Some_cons, split_go_nonempty.
  - change (String c a +:+ String sep b) with (String c (a +:+ String sep b)).
    simpl. destruct (Ascii.eqb c sep).
    + rewrite last_Some_cons by apply split_go_nonempty. apply IH.
    + apply IH.
Qed.

(** For a name with a dot, the extension that staging uses is the text
    after the last dot, lower-cased, whatever comes before it. *)
Theorem getExtension_after_last_dot (file : File) (base ext : string) (i : nat) :
  file_name file = base +:+ "." +:+ ext ->
  occurs "." ext = false ->
  getExtension file = Js.toLowerCase ext
  /\ staged_name i file = "input" +:+ pretty i +:+ "." +:+ Js.toLowerCase ext.
Proof.
  intros Hname Hext.
  assert (H : getExtension file = Js.toLowerCase ext).
  { unfold getExtension, Js.split. rewrite Hname.
    change ("." +:+ ext) with (String "." ext).
    rewrite split_go_last_after_sep, (split_go_no_sep _ _ _ Hext). reflexivity. }
  split; [exact H|]. unfold staged_name. by rewrite H.
Qed.

Lemma getExtension_after_last_dot_witness :
  getExtension (jpeg "holiday.2024.JPG" 640 480) = "jpg"
  /\ staged_name 3 (jpeg "holiday.2024.JPG" 640 480) = "input3.jpg".
Proof.
  assert (H1 : file_name (jpeg "holiday.2024.JPG" 640 480) = "holiday.2024" +:+ "." +:+ "JPG")
    by reflexivity.
  assert (H2 : occurs "." "JPG" = false) by reflexivity.
  exact (getExtension_after_last_dot (jpeg "holiday.2024.JPG" 640 480)
           "holiday.2024" "JPG" 3 H1 H2).
Defined.

Lemma validateFile_valid_extension (file : File) :
  valid (validateFile file) = true -> extension_of file ∈ CONFIG.ACCEPTED_FORMATS.
Proof.
  unfold validateFile. intros H. apply includes_elem_of.
  destruct (includes CONFIG.ACCEPTED_FORMATS (extension_of file)); [done|].
  simpl in H. discriminate H.
Qed.

Lemma extension_of_getExtension (file : File) :
  extension_of file = "." +:+ getExtension file.
Proof.
  destruct (getExtension_last_segment file) as (part & Hpart & Hext).
  unfold extension_of. by rewrite Hpart, Hext.
Qed.

(** A file that passes [validateFile] is staged under a name that ends
    in one of the three accepted extensions, in lower case. *)
Theorem validated_file_staged_extension (file : File) (i : nat) :
  valid (validateFile file) = true ->
  getExtension file ∈ ["png"; "jpg"; "jpeg"]
  /\ staged_name i file ∈ ["input" +:+ pretty i +:+ ".png";
                           "input" +:+ pretty i +:+ ".jpg";
                           "input" +:+ pretty i +:+ ".jpeg"].
Proof.
  intros Hv. apply validateFile_valid_extension in Hv as Hext.
  rewrite extension_of_getExtension in Hext.
  assert (H : getExtension file ∈ ["png"; "jpg"; "jpeg"]).
  { unfold CONFIG.ACCEPTED_FORMATS in Hext.
    apply elem_of_cons in Hext as [E|Hext].
    { apply (inj (String.append ".") _ "png") in E. rewrite E. apply list_elem_of_here. }
    apply elem_of_cons in Hext as [E|Hext].
    { apply (inj (String.append ".") _ "jpg") in E. rewrite E.
      apply list_elem_of_further, list_elem_of_here. }
    apply elem_of_cons in Hext as [E|Hext].
    { apply (inj (String.append ".") _ "jpeg") in E. rewrite E.
      do 2 apply list_elem_of_further. apply list_elem_of_here. }
    by apply elem_of_nil in Hext. }
  split; [exact H|]. unfold staged_name.
  apply elem_of_cons in H as [->|H]; [apply list_elem_of_here|].
  apply elem_of_cons in H as [->|H]; [apply list_elem_of_further, list_elem_of_here|].
  apply elem_of_cons in H as [->|H];
    [do 2 apply list_elem_of_further; apply list_elem_of_here|].
  by apply elem_of_nil in H.
Qed.

Lemma validated_file_staged_extension_witness :
  valid (validateFile (jpeg "Beach.JPEG" 640 480)) = true
  /\ getExtension (jpeg "Beach.JPEG" 640 480) ∈ ["png"; "jpg"; "jpeg"].
Proof.
  assert (H : valid (validateFile (jpeg "Beach.JPEG" 640 480)) = true) by reflexivity.
  exact (conj H (proj1 (validated_file_staged_extension (jpeg "Beach.JPEG" 640 480) 0 H))).
Defined.

(** ** image-analyzer.ts *)

Lemma foldl_max_spec (l : list Z) (a : Z) :
  a <= foldl Z.max a l
  /\ Forall (fun x => x <= foldl Z.max a l) l
  /\ foldl Z.max a l ∈ a :: l.
Proof.
  revert a. induction l as [|x l IH]; intros a; simpl.
  - repeat split; [lia | constructor | apply list_elem_of_here].
  - destruct (IH (Z.max a x)) as (H1 & H2 & H3). repeat split.
    + lia.
    + constructor; [lia | done].
    + apply elem_of_cons in H3 as [E|H3].
      * rewrite E. destruct (Z.max_spec a x) as [[_ ->]|[_ ->]].
        -- apply list_elem_of_further, list_elem_of_here.
        -- apply list_elem_of_here.
      * by do 2 apply list_elem_of_further.
Qed.

Lemma math_max_spec (l : list Z) :
  l <> [] -> Forall (fun x => x <= math_max l) l /\ math_max l ∈ l.
Proof.
  destruct l as [|a l]; [done|]. intros _. simpl.
  destruct (foldl_max_spec l a) as (H1 & H2 & H3). split; [by constructor | done].
Qed.

Lemma analyzeImages_cases (files : list File) (w : World) :
  files <> [] ->
  (Forall (fun f => is_Some (file_dims f)) files ->
   exists maxWidth maxHeight,
     analyzeImages files w = (Return (maxWidth, maxHeight), w)
     /\ (forall f x y, f ∈ files -> file_dims f = Some (x, y) ->
           x <= maxWidth /\ y <= maxHeight)
     /\ (exists f y, f ∈ files /\ file_dims f = Some (maxWidth, y))
     /\ (exists f x, f ∈ files /\ file_dims f = Some (x, maxHeight)))
  /\ (Exists (fun f => file_dims f = None) files ->
      analyzeImages files w = (Throw "Failed to load image", w)).
Proof.
  intros Hne. unfold analyzeImages. split.
  - intros Hall.
    destruct (mapM getImageDimensions files) as [dims|] eqn:E.
    2:{ apply mapM_None in E. apply Exists_exists in E as (f & Hf & Hnone).
        rewrite Forall_forall in Hall. destruct (Hall f Hf) as [d Hd].
        unfold getImageDimensions in Hnone. congruence. }
    apply mapM_Some in E.
    assert (Hdims : dims <> []).
    { intros ->. apply Forall2_nil_inv_r in E. done. }
    eexists _, _. split; [reflexivity|].
    destruct (math_max_spec (map fst dims)) as [Hw1 Hw2];
      [by destruct dims|].
    destruct (math_max_spec (map snd dims)) as [Hh1 Hh2];
      [by destruct dims|].
    rewrite Forall_forall in Hw1, Hh1.
    split; [|split].
    + intros f x y Hin Hf.
      apply list_elem_of_lookup in Hin as [k Hk].
      destruct (Forall2_lookup_l _ _ _ _ _ E Hk) as (d & Hd & Hfd).
      unfold getImageDimensions in Hfd. rewrite Hf in Hfd. injection Hfd as <-.
      assert (Hd' : (x, y) ∈ dims) by (by eapply list_elem_of_lookup_2).
      split.
      * apply (Hw1 x). apply list_elem_of_In, in_map_iff. exists (x, y).
        split; [done | by apply list_elem_of_In].
      * apply (Hh1 y). apply list_elem_of_In, in_map_iff. exists (x, y).
        split; [done | by apply list_elem_of_In].
    + apply list_elem_of_In, in_map_iff in Hw2 as ([x y] & Hx & Hin).
      apply list_elem_of_In, list_elem_of_lookup in Hin as [k Hk].
      destruct (Forall2_lookup_r _ _ _ _ _ E Hk) as (f & Hf & Hfd).
      exists f, y. split; [by eapply list_elem_of_lookup_2|].
      unfold getImageDimensions in Hfd. simpl in Hx. by rewrite Hfd, <- Hx.
    + apply list_elem_of_In, in_map_iff in Hh2 as ([x y] & Hy & Hin).
      apply list_elem_of_In, list_elem_of_lookup in Hin as [k Hk].
      destruct (Forall2_lookup_r _ _ _ _ _ E Hk) as (f & Hf & Hfd).
      exists f, x. split; [by eapply list_elem_of_lookup_2|].
      unfold getImageDimensions in Hfd. simpl in Hy. by rewrite Hfd, <- Hy.
  - intros Hex.
    assert (E : mapM getImageDimensions files = None) by (by apply mapM_None).
    by rewrite E.
Qed.

(** For a list of files that is not empty: if every image loads,
    [analyzeImages] resolves with a width and a height that no image
    exceeds and that some image has; if some image fails to load, it
    rejects.  The state is not touched either way. *)
Theorem analyzeImages_bounds (files : list File) (w : World) :
  files <> [] ->
  (Forall (fun f => is_Some (file_dims f)) files ->
   exists maxWidth maxHeight,
     analyzeImages files w = (Return (maxWidth, maxHeight), w)
     /\ (forall f x y, f ∈ files -> file_dims f = Some (x, y) ->
           x <= maxWidth /\ y <= maxHeight)
     /\ (exists f y, f ∈ files /\ file_dims f = Some (maxWidth, y))
     /\ (exists f x, f ∈ files /\ file_dims f = Some (x, maxHeight)))
  /\ (Exists (fun f => file_dims f = None) files ->
      analyzeImages files w = (Throw "Failed to load image", w)).
Proof.
  intros Hne. destruct (analyzeImages_cases files w Hne) as [Hall Hex].
  split; [exact Hall | exact Hex].
Qed.

Lemma analyzeImages_bounds_witness :
  scenarioA_files <> []
  /\ analyzeImages scenarioA_files new_World = (Return (300, 200), new_World)
  /\ analyzeImages (jpeg "a.jpg" 1 1 :: {| file_name := "b.jpg"; file_type := "image/jpeg";
                                            file_size := 1; file_data := [];
                                            file_dims := None |} :: []) new_World
     = (Throw "Failed to load image", new_World).
Proof.
  assert (H : scenarioA_files <> []) by discriminate.
  split; [exact H|]. split.
  - destruct (proj1 (analyzeImages_bounds scenarioA_files new_World H))
      as (mw & mh & E & _).
    + repeat constructor; by eexists.
    + rewrite E. vm_compute in E. injection E as <- <-. reflexivity.
  - apply (analyzeImages_bounds _ new_World); [discriminate|].
    apply Exists_cons_tl, Exists_cons_hd. reflexivity.
Defined.

(** ** Frames and labels of the compiled graph *)

Lemma string_app_cons (c : ascii) (s t : string) : String c s +:+ t = String c (s +:+ t).
Proof. reflexivity. Qed.

Lemma Qred_inject_Z (z : Z) : Qred (inject_Z z) = inject_Z z.
Proof.
  unfold Qred, inject_Z.
  pose proof (Z.ggcd_gcd z 1) as Hg.
  pose proof (Z.ggcd_correct_divisors z 1) as Hd.
  destruct (Z.ggcd z 1) as (g & a & b). simpl in Hg, Hd.
  rewrite Z.gcd_1_r in Hg. subst g. destruct Hd as [Ha Hb].
  replace a with z by lia. replace b with 1 by lia. reflexivity.
Qed.

Lemma inject_Z_sub1 (n : Z) : (inject_Z (n - 1) == inject_Z n - 1)%Q.
Proof. unfold Z.sub. rewrite inject_Z_plus, inject_Z_opp. reflexivity. Qed.

Lemma round_integer (q : Q) (z : Z) :
  (q == inject_Z z)%Q -> 0 <= z < 2 ^ 53 -> Double.round q = Double.Finite (inject_Z z).
Proof.
  intros E Hz. unfold Double.round.
  destruct (Qcompare_spec q 0) as [H|H|H].
  - assert (z = 0).
    { assert (Hq : (inject_Z z == inject_Z 0)%Q) by (rewrite <- E, H; reflexivity).
      unfold Qeq in Hq. simpl in Hq. lia. }
    by subst z.
  - exfalso. assert (Hq : (inject_Z z < inject_Z 0)%Q) by (rewrite <- E; exact H).
    rewrite <- Zlt_Qlt in Hq. lia.
  - assert (Hpos : 0 < z).
    { assert (Hq : (inject_Z 0 < inject_Z z)%Q) by (rewrite <- E; exact H).
      by rewrite <- Zlt_Qlt in Hq. }
    assert (Efix : (Double.round_pos q == q)%Q).
    { apply (DoubleFacts.round_pos_fix q z 0); [|lia|lia].
      rewrite E. change (2 ^ 0)%Q with 1%Q. ring. }
    assert (Hsmall : (inject_Z z < 2 ^ 1024)%Q).
    { assert (Hz' : (inject_Z z < inject_Z (2 ^ 53))%Q) by (rewrite <- Zlt_Qlt; lia).
      assert (inject_Z (2 ^ 53) < 2 ^ 1024)%Q by reflexivity. lra. }
    destruct (Qle_bool (2 ^ 1024) (Double.round_pos q)) eqn:Hb.
    { apply Qle_bool_iff in Hb. lra. }
    f_equal. rewrite <- (Qred_inject_Z z). apply Qred_complete. lra.
Qed.

(** The duration of a slide whose processor holds durations in the
    ranges that [generate] accepts is a double between 0.5 and 13. *)
Lemma calculateDuration_range (this : SlideshowProcessor) (index total : Z) :
  Double.between CONFIG.DISPLAY_DURATION_MIN CONFIG.DISPLAY_DURATION_MAX
                 (displayDuration this) = true ->
  Double.between CONFIG.TRANSITION_DURATION_MIN CONFIG.TRANSITION_DURATION_MAX
                 (transitionDuration this) = true ->
  exists dur,
    calculateDuration this index total = Double.Finite dur
    /\ (1 # 2 <= dur)%Q /\ (dur <= 13)%Q.
Proof.
  intros HD HT.
  destruct DISPLAY_DURATION_range as [E1 E2]. rewrite E1, E2 in HD.
  destruct TRANSITION_DURATION_range as [E3 E4]. rewrite E3, E4 in HT.
  destruct (between_Finite _ _ _ HD) as (d & Ed & Hd1 & Hd2).
  destruct (between_Finite _ _ _ HT) as (t & Et & Ht1 & Ht2).
  assert (Ht0 : (0 <= t)%Q).
  { assert (0 <= 3602879701896397 # 36028797018963968)%Q by discriminate. lra. }
  destruct (DoubleFacts.round_exact (1 # 2) 1 (-1)) as (lo & Elo & Hlo);
    [reflexivity | lia | lia | reflexivity |].
  destruct (DoubleFacts.round_exact 13 13 0) as (hi & Ehi & Hhi);
    [reflexivity | lia | lia | reflexivity |].
  unfold calculateDuration. rewrite Ed, Et.
  destruct ((index =? 0) || (index =? total - 1)).
  - (* the halved transition first *)
    assert (E2' : Double.of_Z 2 = Double.Finite 2) by (vm_compute; reflexivity).
    rewrite E2'. cbn [Double.div].
    change (Qeq_bool 2 0) with false. cbv iota.
    destruct (DoubleFacts.round_exact (3 # 2) 3 (-1)) as (h2 & Eh2 & Hh2);
      [reflexivity | lia | lia | reflexivity |].
    assert (Hhalf : (t / 2 == (1 # 2) * t)%Q) by field.
    destruct (DoubleFacts.round_between (t / 2) (3 # 2) h2) as (t2 & Et2 & Ht2a & Ht2b);
      [lra | lra | exact Eh2 |].
    rewrite Et2. cbn [Double.add].
    destruct (DoubleFacts.round_between (d + t2) 13 hi) as (dur & Edur & _ & Hdur);
      [lra | lra | exact Ehi |].
    pose proof (DoubleFacts.round_mono (1 # 2) (d + t2) lo dur ltac:(lra) ltac:(lra)
                  Elo Edur).
    exists dur. split; [exact Edur|]. split; lra.
  - cbn [Double.add].
    destruct (DoubleFacts.round_between (d + t) 13 hi) as (dur & Edur & _ & Hdur);
      [lra | lra | exact Ehi |].
    pose proof (DoubleFacts.round_mono (1 # 2) (d + t) lo dur ltac:(lra) ltac:(lra)
                  Elo Edur).
    exists dur. split; [exact Edur|]. split; lra.
Qed.

(** For durations in the ranges that [generate] accepts and a frame
    rate of [f] frames per second (30 in this tool), the statement of
    slide i carries [loop=] the loop count and [trim=duration=] the
    duration; the frame count is a whole number of at least one frame,
    and the loop count is exactly one less, so that [Math.max] never
    takes effect.  The frame count is the least number of frames that
    lasts for the duration, or one frame less: the product of duration
    and frame rate is rounded to a double before [Math.ceil] sees it. *)
Theorem loop_count_one_less_than_frames (this : SlideshowProcessor) (N : nat)
    (width height : Z) (i : nat) (f : Z) :
  Double.between CONFIG.DISPLAY_DURATION_MIN CONFIG.DISPLAY_DURATION_MAX
                 (displayDuration this) = true ->
  Double.between CONFIG.TRANSITION_DURATION_MIN CONFIG.TRANSITION_DURATION_MAX
                 (transitionDuration this) = true ->
  fps this = Double.Finite (inject_Z f) -> 1 <= f <= 1000 ->
  let duration := calculateDuration this (Z.of_nat i) (Z.of_nat N) in
  (exists front back,
     transform_statement this N width height i
     = front +:+ "loop=loop=" +:+ Js.number_to_string (loopCount this i N)
         +:+ ":size=1:start=0,trim=duration=" +:+ Js.number_to_string duration +:+ back)
  /\ (exists (dur : Q) (frames : Z),
        duration = Double.Finite dur
        /\ frameCount this i N = Double.Finite (inject_Z frames)
        /\ loopCount this i N = Double.Finite (inject_Z (frames - 1))
        /\ 1 <= frames
        /\ (frames = Qceiling (dur * inject_Z f)
            \/ frames = Qceiling (dur * inject_Z f) - 1)).
Proof.
  intros HD HT Hfps Hf duration. split.
  - unfold transform_statement.
    change (Double.max (Double.of_Z 0)
              (Double.sub
                 (Double.ceil
                    (Double.mul (calculateDuration this (Z.of_nat i) (Z.of_nat N))
                                (fps this)))
                 (Double.of_Z 1)))
      with (loopCount this i N).
    fold duration.
    set (a := pretty i). set (b := pretty width). set (c := pretty height).
    set (d := Js.number_to_string (fps this)).
    set (e := Js.number_to_string (loopCount this i N)).
    set (g := Js.number_to_string duration).
    clearbody a b c d e g.
    exists ("[" +:+ a +:+ ":v]scale=" +:+ b +:+ ":" +:+ c
            +:+ ":force_original_aspect_ratio=decrease,"
            +:+ "pad=" +:+ b +:+ ":" +:+ c +:+ ":(ow-iw)/2:(oh-ih)/2:black,"
            +:+ "setsar=1,fps=" +:+ d +:+ ",format=yuva420p,"),
           (",setpts=PTS-STARTPTS[v" +:+ a +:+ "]").
    rewrite !string_app_assoc. reflexivity.
  - destruct (calculateDuration_range this (Z.of_nat i) (Z.of_nat N) HD HT)
      as (dur & Edur & Hdur1 & Hdur2).
    fold duration in Edur.
    assert (Hf1 : (1 <= inject_Z f)%Q)
      by (change 1%Q with (inject_Z 1); rewrite <- Zle_Qle; lia).
    assert (Hf2 : (inject_Z f <= 1000)%Q)
      by (change 1000%Q with (inject_Z 1000); rewrite <- Zle_Qle; lia).
    set (p := (dur * inject_Z f)%Q).
    assert (Hp1 : (1 # 2 <= p)%Q).
    { assert ((1 # 2) * 1 <= dur * inject_Z f)%Q by (apply Qmult_le_compat_nonneg; lra).
      unfold p. lra. }
    assert (Hp2 : (p <= 13000)%Q).
    { assert (dur * inject_Z f <= 13 * 1000)%Q by (apply Qmult_le_compat_nonneg; lra).
      unfold p. lra. }
    set (n := Qceiling p).
    pose proof (Qle_ceiling p) as Hn1. pose proof (Qceiling_lt p) as Hn2.
    fold n in Hn1, Hn2. rewrite inject_Z_sub1 in Hn2.
    assert (Hn3 : 1 <= n <= 13000).
    { split.
      - assert (Hq : (inject_Z 0 < inject_Z n)%Q) by (change (inject_Z 0) with 0%Q; lra).
        rewrite <- Zlt_Qlt in Hq. lia.
      - unfold n. change 13000 with (Qceiling 13000). by apply Qceiling_resp_le. }
    (* the product, rounded, lies between the two whole numbers around it *)
    pose proof (round_integer (inject_Z n) n ltac:(reflexivity) ltac:(lia)) as En.
    pose proof (round_integer (inject_Z (n - 1)) (n - 1) ltac:(reflexivity) ltac:(lia))
      as En'.
    destruct (DoubleFacts.round_between p (inject_Z n) (inject_Z n))
      as (pr & Epr & _ & Hpr2); [lra | lra | exact En |].
    assert (Hpr1 : (inject_Z (n - 1) <= pr)%Q).
    { apply (DoubleFacts.round_mono (inject_Z (n - 1)) p); [| |exact En'|exact Epr].
      - change 0%Q with (inject_Z 0). rewrite <- Zle_Qle. lia.
      - rewrite inject_Z_sub1. lra. }
    destruct (DoubleFacts.round_exact (1 # 2) 1 (-1)) as (lo & Elo & Hlo);
      [reflexivity | lia | lia | reflexivity |].
    pose proof (DoubleFacts.round_mono (1 # 2) p lo pr ltac:(lra) Hp1 Elo Epr) as Hpr0.
    set (frames := Qceiling pr).
    assert (Hfr1 : n - 1 <= frames).
    { unfold frames. rewrite <- (Qceiling_Z (n - 1)). by apply Qceiling_resp_le. }
    assert (Hfr2 : frames <= n).
    { unfold frames. rewrite <- (Qceiling_Z n). by apply Qceiling_resp_le. }
    assert (Hfr3 : 1 <= frames).
    { pose proof (Qle_ceiling pr) as Hc. fold frames in Hc.
      assert (Hq : (inject_Z 0 < inject_Z frames)%Q) by (change (inject_Z 0) with 0%Q; lra).
      rewrite <- Zlt_Qlt in Hq. lia. }
    assert (Eframes : frameCount this i N = Double.Finite (inject_Z frames)).
    { unfold frameCount. fold duration. rewrite Edur, Hfps. cbn [Double.mul].
      fold p. rewrite Epr. reflexivity. }
    exists dur, frames. split; [exact Edur|]. split; [exact Eframes|].
    split; [|split; [exact Hfr3 | fold p; fold n; lia]].
    unfold loopCount. rewrite Eframes.
    assert (E0 : Double.of_Z 0 = Double.Finite 0) by reflexivity.
    assert (E1 : Double.neg (Double.of_Z 1) = Double.Finite (inject_Z (-1)))
      by (vm_compute; reflexivity).
    unfold Double.sub. rewrite E0, E1. cbn [Double.add].
    rewrite (round_integer _ (frames - 1)); [| |lia].
    2:{ rewrite inject_Z_sub1. change (inject_Z (-1)) with (-1)%Q. ring. }
    unfold Double.max. cbn [Double.ltb].
    destruct (Qle_bool (inject_Z (frames - 1)) 0) eqn:Hb; [|reflexivity].
    cbn [negb]. apply Qle_bool_iff in Hb.
    change 0%Q with (inject_Z 0) in Hb. rewrite <- Zle_Qle in Hb.
    by replace (frames - 1) with 0 by lia.
Qed.

Lemma loop_count_one_less_than_frames_witness :
  Double.between CONFIG.DISPLAY_DURATION_MIN CONFIG.DISPLAY_DURATION_MAX
                 (displayDuration scenarioA) = true
  /\ Double.between CONFIG.TRANSITION_DURATION_MIN CONFIG.TRANSITION_DURATION_MAX
                    (transitionDuration scenarioA) = true
  /\ exists (dur : Q) (frames : Z),
       calculateDuration scenarioA 1 3 = Double.Finite dur
       /\ frameCount scenarioA 1 3 = Double.Finite (inject_Z frames)
       /\ loopCount scenarioA 1 3 = Double.Finite (inject_Z (frames - 1))
       /\ 1 <= frames.
Proof.
  assert (H1 : Double.between CONFIG.DISPLAY_DURATION_MIN CONFIG.DISPLAY_DURATION_MAX
                 (displayDuration scenarioA) = true) by (vm_compute; reflexivity).
  assert (H2 : Double.between CONFIG.TRANSITION_DURATION_MIN
                 CONFIG.TRANSITION_DURATION_MAX (transitionDuration scenarioA) = true)
    by (vm_compute; reflexivity).
  assert (H3 : fps scenarioA = Double.Finite (inject_Z 30)) by (vm_compute; reflexivity).
  assert (H4 : 1 <= 30 <= 1000) by lia.
  destruct (loop_count_one_less_than_frames scenarioA 3 300 200 1 30 H1 H2 H3 H4)
    as (_ & dur & frames & G1 & G2 & G3 & G4 & _).
  split; [exact H1|]. split; [exact H2|].
  exists dur, frames. by repeat split.
Defined.

(** The frame and loop counts of Scenario A; those of a slide of
    8 + 0.3 seconds, whose product with 30 is rounded up to the double
    after 249 and so takes 250 frames; and those of the slide
    [one_frame_short], whose product is rounded down to 254 although 254
    frames are a little less than its duration. *)
Example scenarioA_frames :
  map (fun i => (Js.number_to_string (frameCount scenarioA i 3),
                 Js.number_to_string (loopCount scenarioA i 3))) [0; 1; 2]%nat
  = [("53", "52"); ("60", "59"); ("53", "52")]
  /\ (Js.number_to_string (frameCount eight_point_three 1 3),
      Js.number_to_string (loopCount eight_point_three 1 3)) = ("250", "249")
  /\ match calculateDuration one_frame_short 1 3 with
     | Double.Finite dur =>
         Qceiling (dur * 30) = 255
         /\ frameCount one_frame_short 1 3 = Double.Finite 254
     | _ => False
     end.
Proof. vm_compute. repeat split; reflexivity. Qed.

Lemma pretty_nat_head (i : nat) (c : ascii) (s : string) :
  pretty i = String c s -> is_digit c = true.
Proof.
  intros H. pose proof (pretty_nat_digits i) as Hd. rewrite H in Hd. simpl in Hd.
  by apply andb_true_iff in Hd as [Hc _].
Qed.

Lemma stream_label_not_vout (i j : nat) : "v" +:+ pretty i <> "vout" +:+ pretty j.
Proof.
  intros H. apply (inj (String.append "v") _ ("out" +:+ pretty j)) in H.
  rewrite string_app_cons in H. by apply pretty_nat_head in H.
Qed.

Lemma stream_label_not_vfinal (i : nat) : "v" +:+ pretty i <> "vfinal".
Proof.
  intros H. apply (inj (String.append "v") _ "final") in H.
  by apply pretty_nat_head in H.
Qed.

Lemma vout_not_vfinal (j : nat) : "vout" +:+ pretty j <> "vfinal".
Proof.
  intros H. apply (inj (String.append "v") ("out" +:+ pretty j) "final") in H.
  rewrite string_app_cons in H. discriminate H.
Qed.

Lemma outputLabel_inj (N i j : nat) : outputLabel N i = outputLabel N j -> i = j.
Proof.
  unfold outputLabel.
  destruct (Z.eqb_spec (Z.of_nat i) (Z.of_nat N - 2)),
           (Z.eqb_spec (Z.of_nat j) (Z.of_nat N - 2)); intros H.
  - lia.
  - symmetry in H. by apply vout_not_vfinal in H.
  - by apply vout_not_vfinal in H.
  - apply (inj (String.append "vout")) in H. apply (inj pretty) in H. lia.
Qed.

Lemma output_labels_transform (N k : nat) :
  (k < N)%nat -> output_labels N !! k = Some ("v" +:+ pretty k).
Proof.
  intros Hk. unfold output_labels.
  change (map (fun i : nat => "v" +:+ pretty i) (seq 0 N))
    with ((fun i : nat => "v" +:+ pretty i) <$> seq 0 N).
  rewrite lookup_app_l by (by rewrite length_fmap, length_seq).
  rewrite list_lookup_fmap, lookup_seq_lt by done. reflexivity.
Qed.

Lemma output_labels_xfade (N i : nat) :
  (i < N - 1)%nat -> output_labels N !! (N + i)%nat = Some (outputLabel N i).
Proof.
  intros Hi. unfold output_labels.
  change (map (fun i : nat => "v" +:+ pretty i) (seq 0 N))
    with ((fun i : nat => "v" +:+ pretty i) <$> seq 0 N).
  change (map (outputLabel N) (seq 0 (N - 1))) with (outputLabel N <$> seq 0 (N - 1)).
  rewrite lookup_app_r by (rewrite length_fmap, length_seq; lia).
  rewrite length_fmap, length_seq.
  replace (N + i - N)%nat with i by lia.
  rewrite list_lookup_fmap, lookup_seq_lt by done. reflexivity.
Qed.

(** In the graph for any number of inputs, statement k ends in the k-th
    label of v0 .. v(N-1), vout1 .. vout(N-2), vfinal, and no two
    statements define the same label. *)
Theorem graph_labels_unique (this : SlideshowProcessor) (N : nat) (width height : Z) :
  NoDup (output_labels N)
  /\ length (output_labels N) = length (filters this N width height)
  /\ (forall k label,
        output_labels N !! k = Some label ->
        exists front,
          filters this N width height !! k = Some (front +:+ "[" +:+ label +:+ "]")).
Proof.
  split; [|split].
  - unfold output_labels.
    change (map (fun i : nat => "v" +:+ pretty i) (seq 0 N))
      with ((fun i : nat => "v" +:+ pretty i) <$> seq 0 N).
    change (map (outputLabel N) (seq 0 (N - 1))) with (outputLabel N <$> seq 0 (N - 1)).
    apply NoDup_app. split; [|split].
    + apply NoDup_fmap_2_strong; [|apply NoDup_seq].
      intros x y _ _. apply stream_label_inj.
    + intros x Hx Hy.
      apply list_elem_of_fmap in Hx as (i & -> & _).
      apply list_elem_of_fmap in Hy as (j & Hj & _).
      unfold outputLabel in Hj.
      destruct (Z.of_nat j =? Z.of_nat N - 2).
      * by apply stream_label_not_vfinal in Hj.
      * by apply stream_label_not_vout in Hj.
    + apply NoDup_fmap_2_strong; [|apply NoDup_seq].
      intros x y _ _. apply outputLabel_inj.
  - rewrite filters_length. unfold output_labels.
    by rewrite length_app, !length_map, !length_seq.
  - intros k label Hk.
    assert (Hlt : (k < N + (N - 1))%nat).
    { apply lookup_lt_Some in Hk. unfold output_labels in Hk.
      by rewrite length_app, !length_map, !length_seq in Hk. }
    destruct (decide (k < N)%nat) as [Hlo|Hhi].
    + rewrite output_labels_transform in Hk by done. injection Hk as <-.
      destruct (transform_statement_shape this N width height k) as [body Hb].
      exists ("[" +:+ pretty k +:+ ":v]" +:+ body).
      rewrite filters_transform by done. rewrite Hb, !string_app_assoc. reflexivity.
    + replace k with (N + (k - N))%nat in Hk |- * by lia.
      rewrite output_labels_xfade in Hk by lia. injection Hk as <-.
      destruct (xfade_statement_shape this N (k - N) (crossfade_offset this (k - N)))
        as [params Hp].
      exists ("[" +:+ inputA (k - N) +:+ "][" +:+ inputB (k - N) +:+ "]xfade=" +:+ params).
      rewrite filters_xfade by lia. rewrite Hp, !string_app_assoc. reflexivity.
Qed.

(** Every crossfade reads two labels that statements before it define:
    its first input is v0 or the output of the crossfade before it, its
    second input is the output of transform i + 1. *)
Theorem crossfade_inputs_defined_earlier (this : SlideshowProcessor) (N : nat)
    (width height : Z) (i : nat) :
  (i < N - 1)%nat ->
  filters this N width height !! (N + i)%nat
  = Some (xfade_statement this N i (crossfade_offset this i))
  /\ (exists k, (k < N + i)%nat /\ output_labels N !! k = Some (inputA i))
  /\ (exists k, (k < N + i)%nat /\ output_labels N !! k = Some (inputB i)).
Proof.
  intros Hi. split; [by apply filters_xfade|]. split.
  - destruct i as [|i].
    + exists 0%nat. split; [lia|]. rewrite output_labels_transform by lia. reflexivity.
    + exists (N + i)%nat. split; [lia|]. rewrite output_labels_xfade by lia.
      unfold inputA, outputLabel. change (S i =? 0)%nat with false. cbv iota.
      destruct (Z.eqb_spec (Z.of_nat i) (Z.of_nat N - 2)); [lia|].
      by rewrite Nat.add_1_r.
  - exists (i + 1)%nat. split; [lia|]. rewrite output_labels_transform by lia. reflexivity.
Qed.

Lemma crossfade_inputs_defined_earlier_witness :
  (1 < 3 - 1)%nat
  /\ (exists k, (k < 3 + 1)%nat /\ output_labels 3 !! k = Some (inputA 1))
  /\ (exists k, (k < 3 + 1)%nat /\ output_labels 3 !! k = Some (inputB 1)).
Proof.
  assert (H : (1 < 3 - 1)%nat) by (simpl; lia).
  destruct (crossfade_inputs_defined_earlier scenarioA 3 300 200 1 H) as (_ & G1 & G2).
  exact (conj H (conj G1 G2)).
Defined.


(** ** The outcomes of a run *)

Lemma settles_ret {A} (a : A) : settles (ret a).
Proof. intros w. done. Qed.

Lemma settles_sync f : settles (sync f).
Proof. intros w. done. Qed.

Lemma settles_bind {A B} (m : M A) (k : A -> M B) :
  settles m -> (forall a, settles (k a)) -> settles (bind m k).
Proof.
  intros Hm Hk w. unfold bind. specialize (Hm w).
  destruct (m w) as [[a| |] w1]; simpl in *; [apply Hk | done | done].
Qed.

Lemma settles_writeFile env filename data : settles (writeFile env filename data).
Proof.
  intros w. unfold writeFile. destruct (loaded w); simpl; [|done].
  by destruct (write_ok env filename).
Qed.

Lemma settles_execute env args : settles (execute env args).
Proof.
  intros w. unfold execute. destruct (loaded w); simpl; [|done].
  by destruct (exec_result env) as [|[out|]].
Qed.

Lemma settles_readFile filename : settles (readFile filename).
Proof.
  intros w. unfold readFile. destruct (loaded w); simpl; [|done].
  by destruct (vfs w !! filename).
Qed.

Lemma settles_deleteFile filename : settles (deleteFile filename).
Proof.
  intros w. unfold deleteFile, try_catch, ret. destruct (loaded w); simpl; [|done].
  by destruct (vfs w !! filename).
Qed.

Lemma settles_cleanup filenames : settles (cleanup filenames).
Proof.
  induction filenames as [|f fs IH]; [apply settles_ret|].
  simpl. apply settles_bind; [apply settles_deleteFile | done].
Qed.

Lemma settles_stage env total rest i acc : settles (stage env total rest i acc).
Proof.
  revert i acc. induction rest as [|f rest IH]; intros i acc; [apply settles_ret|].
  simpl. apply settles_bind; [apply settles_writeFile|]. intros _.
  apply settles_bind; [apply settles_sync|]. intros _. apply IH.
Qed.

Lemma settles_process_body env this files width height :
  settles (process_body env this files width height).
Proof.
  unfold process_body.
  apply settles_bind; [apply settles_stage|]. intros inputFiles.
  apply settles_bind; [apply settles_sync|]. intros _.
  apply settles_bind; [apply settles_execute|]. intros _.
  apply settles_bind; [apply settles_sync|]. intros _.
  apply settles_bind; [apply settles_readFile|]. intros result.
  apply settles_bind; [apply settles_cleanup|]. intros _.
  apply settles_bind; [apply settles_sync|]. intros _.
  apply settles_ret.
Qed.

(** The body of the [try] block ends, when it returns, with the progress
    at 100 and the completion message. *)
Lemma process_body_Return_state env this files width height w result w' :
  process_body env this files width height w = (Return result, w') ->
  progress (state w') = 100
  /\ progressMessage (state w') = MESSAGES.PROCESSING_COMPLETE.
Proof.
  unfold process_body. intros H.
  apply bind_Return_inv in H as (inputFiles & v1 & _ & H).
  apply bind_Return_inv in H as (_ & v2 & _ & H).
  apply bind_Return_inv in H as (_ & v3 & _ & H).
  apply bind_Return_inv in H as (_ & v4 & _ & H).
  apply bind_Return_inv in H as (data & v5 & _ & H).
  apply bind_Return_inv in H as (_ & v6 & _ & H).
  apply bind_Return_inv in H as ([] & v7 & Hsync & H).
  injection H as _ <-. injection Hsync as <-.
  rewrite setState_state. done.
Qed.

Lemma process_outcome_cases (env : Env) (this : SlideshowProcessor) (run : nat)
    (files : list File) (w : World) :
  match process env this run files w with
  | (Return _, w') =>
      processing (state w') = false
      /\ progress (state w') = 100
      /\ progressMessage (state w') = MESSAGES.PROCESSING_COMPLETE
  | (Throw message, w') =>
      (message = "At least 2 images required" /\ w' = w
       /\ (length files < 2)%nat)
      \/ (message = "Failed to load image" /\ processing (state w') = true)
      \/ (message = MESSAGES.ERROR_FFMPEG_LOAD /\ processing (state w') = true)
      \/ (message = MESSAGES.ERROR_PROCESSING /\ processing (state w') = false)
  | (Pending, w') =>
      processing (state w') = true /\ run ∈ waiting w'
  end.
Proof.
  unfold process. destruct (Nat.ltb_spec (length files) 2); [left; done|].
  unfold bind at 1. unfold sync at 1.
  unfold bind at 1. unfold analyzeImages.
  destruct (mapM getImageDimensions files) as [dims|].
  2:{ unfold throw. right. left. split; [done|]. by rewrite setState_state. }
  unfold ret at 1. unfold bind at 1. unfold sync at 1. unfold bind at 1.
  set (w2 := StateManager.setState Orchestrator
               [progressMessage_to MESSAGES.LOADING_FFMPEG; progress_to 10]
               (StateManager.setState Orchestrator
                  [processing_to true; progressMessage_to MESSAGES.ANALYZING_IMAGES;
                   progress_to 5] w)).
  assert (Hp2 : processing (state w2) = true) by (unfold w2; by rewrite !setState_state).
  clearbody w2.
  assert (Hinit : match initialize env run w2 with
                  | (Return _, w3) => processing (state w3) = true
                  | (Throw _, _) => False
                  | (Pending, w3) => processing (state w3) = true /\ run ∈ waiting w3
                  end).
  { unfold initialize, initialize_begin, initialize_resume.
    destruct (loaded w2); [done|].
    destruct (ffmpegLoading (state w2)).
    { simpl. split; [done|]. apply elem_of_app. right. apply list_elem_of_here. }
    destruct (sharedArrayBuffer env); simpl.
    2:{ by rewrite setState_state. }
    destruct (progress_events_fields (load_progress env)
                (log [EngineLoad]
                   (StateManager.setState Manager
                      [ffmpegLoading_to true; progressMessage_to MESSAGES.LOADING_FFMPEG;
                       progress_to 0] w2))) as (_ & _ & Hp).
    destruct (load_ok env); simpl; rewrite setState_state; simpl; rewrite Hp;
      simpl; by rewrite setState_state. }
  destruct (initialize env run w2) as [[ready| |] w3]; [|done|done].
  destruct ready; simpl.
  2:{ right. right. left. done. }
  unfold bind at 1. unfold sync at 1. unfold try_finally, try_catch, throw.
  pose proof (settles_process_body env this files
                (math_max (map fst dims) + Z.rem (math_max (map fst dims)) 2)
                (math_max (map snd dims) + Z.rem (math_max (map snd dims)) 2)
                (StateManager.setState Orchestrator
                   [progressMessage_to MESSAGES.GENERATING_VIDEO; progress_to 20] w3))
    as Hsettles.
  pose proof (process_body_Return_state env this files
                (math_max (map fst dims) + Z.rem (math_max (map fst dims)) 2)
                (math_max (map snd dims) + Z.rem (math_max (map snd dims)) 2)
                (StateManager.setState Orchestrator
                   [progressMessage_to MESSAGES.GENERATING_VIDEO; progress_to 20] w3))
    as Hret.
  destruct (process_body env this files _ _ _) as [[result| |] w4]; simpl in *.
  - destruct (Hret result w4 eq_refl) as [H1 H2].
    rewrite setState_state. simpl. done.
  - do 3 right. split; [done|]. by rewrite setState_state.
  - done.
Qed.

(** How a run can end.  It returns with the progress at 100, the
    completion message and [processing] cleared.  It throws one of four
    messages: the count error, for fewer than two files and with nothing
    touched; the image error or
    the load error, with [processing] left set; or the processing error,
    with [processing] cleared.  Or it stays suspended, [processing] set,
    as a subscriber of 'ffmpegLoaded'. *)
Theorem process_outcomes (env : Env) (this : SlideshowProcessor) (run : nat)
    (files : list File) (w : World) :
  (forall result w',
     process env this run files w = (Return result, w') ->
     processing (state w') = false
     /\ progress (state w') = 100
     /\ progressMessage (state w') = MESSAGES.PROCESSING_COMPLETE)
  /\ (forall message w',
        process env this run files w = (Throw message, w') ->
        (message = "At least 2 images required" /\ w' = w
         /\ (length files < 2)%nat)
        \/ (message = "Failed to load image" /\ processing (state w') = true)
        \/ (message = MESSAGES.ERROR_FFMPEG_LOAD /\ processing (state w') = true)
        \/ (message = MESSAGES.ERROR_PROCESSING /\ processing (state w') = false))
  /\ (forall w',
        process env this run files w = (Pending, w') ->
        processing (state w') = true /\ run ∈ waiting w').
Proof.
  pose proof (process_outcome_cases env this run files w) as H.
  split; [|split].
  - intros result w' E. by rewrite E in H.
  - intros message w' E. by rewrite E in H.
  - intros w' E. by rewrite E in H.
Qed.

(** With fewer than two files, [process] throws at once and touches
    nothing; and [generate], which validates first, shows the
    at-least-2-images message without calling the processor at all. *)
Theorem too_few_files_rejected (env : Env) (this : SlideshowProcessor) (run : nat)
    (displayInput transitionInput : Double.t) (c : SlideshowController) (w : World) :
  (length (files c) < 2)%nat ->
  process env this run (files c) w = (Throw "At least 2 images required", w)
  /\ (Controller.generate env run displayInput transitionInput c w).2
     = StateManager.setState UserInterface [error_to None] w
  /\ errorText (Controller.generate env run displayInput transitionInput c w).1
     = Some MESSAGES.ERROR_MIN_FILES_SLIDESHOW
  /\ trace (Controller.generate env run displayInput transitionInput c w).2 = trace w.
Proof.
  intros Hlen.
  assert (Hgen : Controller.generate env run displayInput transitionInput c w
                 = (Controller.showError MESSAGES.ERROR_MIN_FILES_SLIDESHOW
                      (Controller.hideResult (Controller.hideError c)),
                    StateManager.setState UserInterface [error_to None] w)).
  { unfold Controller.generate.
    change (files (Controller.hideResult (Controller.hideError c))) with (files c).
    unfold validateSlideshowFiles.
    destruct (Nat.ltb_spec (length (files c)) 2); [reflexivity | lia]. }
  rewrite Hgen. repeat split.
  - unfold process. destruct (Nat.ltb_spec (length (files c)) 2); [reflexivity | lia].
  - simpl. by rewrite setState_trace, app_nil_r.
Qed.

Lemma too_few_files_rejected_witness :
  process env_ok scenarioA 0 [jpeg "only.jpg" 10 10] new_World
  = (Throw "At least 2 images required", new_World).
Proof.
  assert (H : (length (files {| files := [jpeg "only.jpg" 10 10];
                                processor := scenarioA; errorText := None;
                                shownResult := None; generateDisabled := false |}) < 2)%nat)
    by (simpl; lia).
  exact (proj1 (too_few_files_rejected env_ok scenarioA 0 Double.NaN Double.NaN _
                  new_World H)).
Defined.

(** ** The calls into the engine *)

Lemma engine_events_app (a b : list Event) :
  engine_events (a ++ b) = engine_events a ++ engine_events b.
Proof. apply filter_app. Qed.

Lemma engine_events_progress who updates :
  engine_events (StateManager.progress_events who updates) = [].
Proof.
  induction updates as [|u us IH]; [done|].
  simpl. rewrite engine_events_app, IH. by destruct u.
Qed.

Lemma engine_calls_refl w : engine_calls [] w w.
Proof. exists []. by rewrite app_nil_r. Qed.

Lemma engine_calls_trans a b w w1 w2 :
  engine_calls a w w1 -> engine_calls b w1 w2 -> engine_calls (a ++ b) w w2.
Proof.
  intros (n1 & E1 & Q1) (n2 & E2 & Q2). exists (n1 ++ n2).
  by rewrite E2, E1, <- app_assoc, engine_events_app, Q1, Q2.
Qed.

Lemma engine_calls_setState es who updates w w1 :
  engine_calls es w w1 -> engine_calls es w (StateManager.setState who updates w1).
Proof.
  intros H. rewrite <- (app_nil_r es). eapply engine_calls_trans; [exact H|].
  exists (StateManager.progress_events who updates).
  split; [apply setState_trace | apply engine_events_progress].
Qed.

Lemma engine_calls_progress_events es rs w w1 :
  engine_calls es w w1 ->
  engine_calls es w (foldl (fun w r => on_progress r w) w1 rs).
Proof.
  revert w1. induction rs as [|r rs IH]; intros w1 H; [done|].
  simpl. apply IH. unfold on_progress. by apply engine_calls_setState.
Qed.

Lemma engine_calls_log es e w w1 :
  is_engine_event e = true ->
  engine_calls es w w1 -> engine_calls (es ++ [e]) w (log [e] w1).
Proof.
  intros He H. eapply engine_calls_trans; [exact H|].
  exists [e]. split; [done|]. unfold engine_events. simpl.
  destruct e; try done.
Qed.

Lemma initialize_Return_calls env caller w ready w' :
  initialize env caller w = (Return ready, w') ->
  ready = true ->
  loaded w' = true
  /\ engine_calls (if loaded w then [] else [EngineLoad]) w w'.
Proof.
  unfold initialize, initialize_begin, initialize_resume.
  destruct (loaded w) eqn:Hl.
  { intros H _. injection H as _ <-. split; [done | apply engine_calls_refl]. }
  destruct (ffmpegLoading (state w)); [done|].
  destruct (sharedArrayBuffer env); simpl.
  2:{ intros H ->. discriminate H. }
  destruct (load_ok env); simpl.
  2:{ intros H ->. discriminate H. }
  intros H _. injection H as _ <-. split; [by rewrite setState_loaded|].
  apply engine_calls_setState.
  apply (engine_calls_progress_events [EngineLoad] (load_progress env) w).
  apply (engine_calls_log [] EngineLoad); [done|].
  apply engine_calls_setState, engine_calls_refl.
Qed.











(** ** The canvas *)

Lemma even_side_spec (side : Z) :
  0 <= side -> Z.Even (even_side side) /\ side <= even_side side <= side + 1.
Proof.
  intros H. unfold even_side. rewrite Z.rem_mod_nonneg by lia.
  pose proof (Z.div_mod side 2 ltac:(lia)) as Hd.
  pose proof (Z.mod_pos_bound side 2 ltac:(lia)) as Hm.
  split; [|lia]. exists (side / 2 + side mod 2). lia.
Qed.

(** For images whose natural sizes are not negative, the canvas that
    [process] derives from the analysis has even sides, holds every
    image, and exceeds the largest width and the largest height by at
    most one pixel. *)
Theorem canvas_even_and_covering (files : list File) (w : World) (maxWidth maxHeight : Z) :
  files <> [] ->
  (forall f x y, f ∈ files -> file_dims f = Some (x, y) -> 0 <= x /\ 0 <= y) ->
  analyzeImages files w = (Return (maxWidth, maxHeight), w) ->
  Z.Even (even_side maxWidth)
  /\ Z.Even (even_side maxHeight)
  /\ even_side maxWidth <= maxWidth + 1
  /\ even_side maxHeight <= maxHeight + 1
  /\ (forall f x y, f ∈ files -> file_dims f = Some (x, y) ->
        x <= even_side maxWidth /\ y <= even_side maxHeight).
Proof.
  intros Hne Hpos Han.
  assert (Hall : Forall (fun f => is_Some (file_dims f)) files).
  { apply Forall_forall. intros f Hf.
    destruct (file_dims f) eqn:E; [by eexists|].
    assert (Hex : Exists (fun f => file_dims f = None) files)
      by (apply Exists_exists; eauto).
    apply (proj2 (analyzeImages_cases files w Hne)) in Hex. congruence. }
  destruct (proj1 (analyzeImages_cases files w Hne) Hall)
    as (mw & mh & E & Hle & (f & y & Hf & Hfd) & (g & x & Hg & Hgd)).
  rewrite E in Han. injection Han as -> ->.
  destruct (Hpos f maxWidth y Hf Hfd) as [Hw _].
  destruct (Hpos g x maxHeight Hg Hgd) as [_ Hh].
  destruct (even_side_spec maxWidth Hw) as [Ew Bw].
  destruct (even_side_spec maxHeight Hh) as [Eh Bh].
  repeat split; try done; try lia.
  - destruct (Hle f0 x0 y0 H H0). lia.
  - destruct (Hle f0 x0 y0 H H0). lia.
Qed.

Lemma canvas_even_and_covering_witness :
  analyzeImages scenarioA_files new_World = (Return (300, 200), new_World)
  /\ Z.Even (even_side 300) /\ Z.Even (even_side 200).
Proof.
  assert (H1 : scenarioA_files <> []) by discriminate.
  assert (H2 : forall f x y, f ∈ scenarioA_files -> file_dims f = Some (x, y) ->
                 0 <= x /\ 0 <= y).
  { intros f x y Hf Hd. unfold scenarioA_files in Hf.
    apply elem_of_cons in Hf as [->|Hf]; [injection Hd as <- <-; lia|].
    apply elem_of_cons in Hf as [->|Hf]; [injection Hd as <- <-; lia|].
    apply elem_of_cons in Hf as [->|Hf]; [injection Hd as <- <-; lia|].
    by apply elem_of_nil in Hf. }
  assert (H3 : analyzeImages scenarioA_files new_World = (Return (300, 200), new_World))
    by reflexivity.
  destruct (canvas_even_and_covering scenarioA_files new_World 300 200 H1 H2 H3)
    as (G1 & G2 & _).
  exact (conj H3 (conj G1 G2)).
Defined.

(** ** The staging band *)

(** While file i of N is staged the progress is set to a value in
    [20, 39] that does not decrease with i. *)
Theorem uploadProgress_band (i j total : nat) :
  (i <= j)%nat -> (j < total)%nat ->
  20 <= uploadProgress i total
  /\ uploadProgress i total <= uploadProgress j total
  /\ uploadProgress j total <= 39.
Proof.
  intros Hij Hj. split; [|split].
  - apply uploadProgress_range. lia.
  - by apply uploadProgress_mono.
  - unfold uploadProgress, Js.math_floor.
    assert (H : (inject_Z (Z.of_nat j) / inject_Z (Z.of_nat total) * 20 < 20)%Q).
    { assert (H1 : (inject_Z (Z.of_nat j) / inject_Z (Z.of_nat total) < 1)%Q).
      { apply Qlt_shift_div_r.
        - change 0%Q with (inject_Z 0). rewrite <- Zlt_Qlt. lia.
        - rewrite Qmult_1_l, <- Zlt_Qlt. lia. }
      lra. }
    pose proof (Qfloor_le (inject_Z (Z.of_nat j) / inject_Z (Z.of_nat total) * 20)) as Hf.
    assert (Hlt : (inject_Z (Qfloor (inject_Z (Z.of_nat j) / inject_Z (Z.of_nat total) * 20))
                   < inject_Z 20)%Q).
    { change (inject_Z 20) with 20%Q. lra. }
    rewrite <- Zlt_Qlt in Hlt. lia.
Qed.

Lemma uploadProgress_band_witness :
  (1 <= 2)%nat /\ (2 < 3)%nat
  /\ 20 <= uploadProgress 1 3
  /\ uploadProgress 1 3 <= uploadProgress 2 3
  /\ uploadProgress 2 3 <= 39.
Proof.
  assert (H1 : (1 <= 2)%nat) by lia.
  assert (H2 : (2 < 3)%nat) by lia.
  exact (conj H1 (conj H2 (uploadProgress_band 1 2 3 H1 H2))).
Defined.


(** ** setState and reset *)

Lemma apply_updates_keys (P : Update -> Prop) updates s keys :
  Forall P keys -> Forall P updates ->
  Forall P (foldl StateManager.apply_update (s, keys) updates).2.
Proof.
  revert s keys. induction updates as [|u us IH]; intros s keys Hk Hu; [done|].
  apply Forall_cons in Hu as [Hu Hus]. simpl.
  destruct (StateManager.changed s u); apply IH; try done.
  apply Forall_app. split; [done | by constructor].
Qed.

Lemma apply_updates_unchanged updates s keys :
  Forall (fun u => StateManager.changed s u = false) updates ->
  foldl StateManager.apply_update (s, keys) updates = (s, keys).
Proof.
  induction updates as [|u us IH]; intros H; [done|].
  apply Forall_cons in H as [Hu Hus]. simpl. rewrite Hu. by apply IH.
Qed.

Lemma notify_other_keys (keys : list Update) (w : World) :
  Forall (fun u => sets_ffmpegLoaded u = false) keys ->
  foldl StateManager.notify w keys = w.
Proof.
  revert w. induction keys as [|u us IH]; intros w H; [done|].
  apply Forall_cons in H as [Hu Hus]. simpl.
  replace (StateManager.notify w u) with w by (by destruct u). by apply IH.
Qed.

(** [setState] leaves every given value in the state, whether it was
    there before or not; and when every given value was there before,
    no key counts as changed and nothing at all happens (the model also
    records the progress values in its trace). *)
Theorem setState_assigns_and_skips_equal (who : Origin) (updates : list Update) (w : World) :
  state (StateManager.setState who updates w) = foldl StateManager.assign (state w) updates
  /\ (Forall (fun u => StateManager.changed (state w) u = false) updates ->
      foldl StateManager.apply_update (state w, []) updates = (state w, [])
      /\ StateManager.setState who updates w
         = log (StateManager.progress_events who updates) w).
Proof.
  split; [apply setState_state|]. intros H.
  pose proof (apply_updates_unchanged updates (state w) [] H) as E.
  split; [exact E|]. unfold StateManager.setState. rewrite E. simpl.
  by destruct w.
Qed.

Lemma setState_other_keys_waiters (who : Origin) (updates : list Update) (w : World) :
  Forall (fun u => sets_ffmpegLoaded u = false) updates ->
  waiting (StateManager.setState who updates w) = waiting w
  /\ resolved (StateManager.setState who updates w) = resolved w.
Proof.
  intros H. unfold StateManager.setState.
  pose proof (apply_updates_keys _ updates (state w) [] (Forall_nil_2 _) H) as Hk.
  destruct (foldl StateManager.apply_update (state w, []) updates) as [s keys].
  simpl in Hk. rewrite (notify_other_keys keys _ Hk). done.
Qed.

(** The promises that wait in [initialize] are settled by [setState]
    exactly when the value of 'ffmpegLoaded' changes: all of them at
    once, with the new value.  Updates of other keys, and an update of
    'ffmpegLoaded' to the value it has, leave them waiting. *)
Theorem setState_settles_waiters (who : Origin) (updates : list Update) (w : World) :
  (Forall (fun u => sets_ffmpegLoaded u = false) updates ->
   waiting (StateManager.setState who updates w) = waiting w
   /\ resolved (StateManager.setState who updates w) = resolved w)
  /\ (forall b rest,
        updates = ffmpegLoaded_to b :: rest ->
        Forall (fun u => sets_ffmpegLoaded u = false) rest ->
        if Bool.eqb (ffmpegLoaded (state w)) b
        then waiting (StateManager.setState who updates w) = waiting w
             /\ resolved (StateManager.setState who updates w) = resolved w
        else waiting (StateManager.setState who updates w) = []
             /\ resolved (StateManager.setState who updates w)
                = resolved w ++ map (fun c => (c, b)) (waiting w)).
Proof.
  split.
  - apply setState_other_keys_waiters.
  - intros b rest -> Hrest. unfold StateManager.setState.
    change (foldl StateManager.apply_update (state w, []) (ffmpegLoaded_to b :: rest))
      with (foldl StateManager.apply_update
              (StateManager.apply_update (state w, []) (ffmpegLoaded_to b)) rest).
    assert (Hfirst : StateManager.apply_update (state w, []) (ffmpegLoaded_to b)
                     = if Bool.eqb (ffmpegLoaded (state w)) b then (state w, [])
                       else (StateManager.assign (state w) (ffmpegLoaded_to b),
                             [ffmpegLoaded_to b])).
    { unfold StateManager.apply_update, StateManager.changed.
      by destruct (Bool.eqb (ffmpegLoaded (state w)) b). }
    rewrite Hfirst.
    destruct (Bool.eqb (ffmpegLoaded (state w)) b) eqn:E.
    + pose proof (apply_updates_keys _ rest (state w) [] (Forall_nil_2 _) Hrest) as Hk.
      destruct (foldl StateManager.apply_update (state w, []) rest) as [s keys].
      simpl in Hk. rewrite (notify_other_keys keys _ Hk). done.
    + assert (Hk : exists s keys,
                 foldl StateManager.apply_update
                   (StateManager.assign (state w) (ffmpegLoaded_to b), [ffmpegLoaded_to b])
                   rest
                 = (s, ffmpegLoaded_to b :: keys)
                 /\ Forall (fun u => sets_ffmpegLoaded u = false) keys).
      { clear E. generalize (StateManager.assign (state w) (ffmpegLoaded_to b)).
        assert (G : forall acc s0,
                   Forall (fun u => sets_ffmpegLoaded u = false) acc ->
                   exists s keys,
                     foldl StateManager.apply_update (s0, ffmpegLoaded_to b :: acc) rest
                     = (s, ffmpegLoaded_to b :: keys)
                     /\ Forall (fun u => sets_ffmpegLoaded u = false) keys).
        { induction rest as [|u us IH]; intros acc s0 Hacc.
          - by exists s0, acc.
          - apply Forall_cons in Hrest as [Hu Hus]. simpl.
            destruct (StateManager.changed s0 u).
            + apply (IH Hus (acc ++ [u])). apply Forall_app. split; [done | by constructor].
            + by apply IH. }
        intros s0. apply (G [] s0). constructor. }
      destruct Hk as (s & keys & -> & Hkeys). simpl.
      rewrite (notify_other_keys keys _ Hkeys). done.
Qed.

(** [reset] puts the run keys back to their initial values and does not
    touch the engine: its flags, its storage and the callers that wait
    for it stay as they are.  In particular it clears a [processing]
    flag that a failed acquisition has left set. *)
Theorem reset_clears_run_keys (w : World) :
  processing (state (reset w)) = false
  /\ progress (state (reset w)) = 0
  /\ progressMessage (state (reset w)) = ""
  /\ error (state (reset w)) = None
  /\ ffmpegLoaded (state (reset w)) = ffmpegLoaded (state w)
  /\ ffmpegLoading (state (reset w)) = ffmpegLoading (state w)
  /\ loaded (reset w) = loaded w
  /\ vfs (reset w) = vfs w
  /\ waiting (reset w) = waiting w
  /\ resolved (reset w) = resolved w
  /\ state (reset (reset w)) = state (reset w).
Proof.
  unfold reset.
  destruct (setState_other_keys_waiters UserInterface
                     [processing_to false; progress_to 0; progressMessage_to "";
                      error_to None] w) as [Hw Hr].
  { repeat constructor. }
  rewrite !setState_state, setState_loaded, setState_vfs, Hw, Hr. simpl. done.
Qed.

(** ** The engine handle *)

Lemma progress_events_state_fields (rs : list Q) (w : World) :
  ffmpegLoaded (state (foldl (fun w r => on_progress r w) w rs)) = ffmpegLoaded (state w)
  /\ ffmpegLoading (state (foldl (fun w r => on_progress r w) w rs))
     = ffmpegLoading (state w)
  /\ error (state (foldl (fun w r => on_progress r w) w rs)) = error (state w)
  /\ waiting (foldl (fun w r => on_progress r w) w rs) = waiting w
  /\ resolved (foldl (fun w r => on_progress r w) w rs) = resolved w.
Proof.
  revert w. induction rs as [|r rs IH]; intros w; [done|].
  simpl. destruct (IH (on_progress r w)) as (-> & -> & -> & -> & ->).
  unfold on_progress.
  destruct (setState_other_keys_waiters EngineCallback
              [progress_to
                 (Js.math_round (Double.mul (Double.round r) (Double.of_Z 100)))] w)
    as [-> ->].
  { repeat constructor. }
  by rewrite setState_state.
Qed.

(** Once [initialize] has returned [true] the engine is loaded, and any
    later call, by anyone, returns [true] at once: it starts no load and
    changes nothing.  When that first call did the loading itself, it
    leaves 'ffmpegLoaded' set, 'ffmpegLoading' cleared and the progress
    at 100. *)
Theorem initialize_idempotent (env env' : Env) (caller caller' : nat) (w w' : World) :
  initialize env caller w = (Return true, w') ->
  loaded w' = true
  /\ initialize env' caller' w' = (Return true, w')
  /\ (loaded w = false ->
      ffmpegLoaded (state w') = true
      /\ ffmpegLoading (state w') = false
      /\ progress (state w') = 100).
Proof.
  intros H.
  destruct (initialize_Return_calls env caller w true w' H eq_refl) as [Hl _].
  split; [exact Hl|]. split.
  - unfold initialize, initialize_begin. by rewrite Hl.
  - intros Hnl. revert H. unfold initialize, initialize_begin, initialize_resume.
    rewrite Hnl. destruct (ffmpegLoading (state w)); [done|].
    destruct (sharedArrayBuffer env); simpl; [|done].
    destruct (load_ok env); simpl; [|done].
    intros H. injection H as <-. by rewrite setState_state.
Qed.

Lemma initialize_idempotent_witness :
  initialize env_ok 1 new_World = (Return true, (initialize env_ok 1 new_World).2)
  /\ initialize env_no_sab 2 (initialize env_ok 1 new_World).2
     = (Return true, (initialize env_ok 1 new_World).2).
Proof.
  assert (H : initialize env_ok 1 new_World
              = (Return true, (initialize env_ok 1 new_World).2))
    by (vm_compute; reflexivity).
  destruct (initialize_idempotent env_ok env_no_sab 1 2 new_World _ H) as (_ & G & _).
  exact (conj H G).
Defined.

(** When [initialize] returns [false], the engine is not loaded, no load
    is marked as in flight, so the next call tries again, and the state
    carries the message of the failure; the callers that were waiting are
    still waiting. *)
Theorem initialize_failure_state (env : Env) (caller : nat) (w w' : World) :
  initialize env caller w = (Return false, w') ->
  loaded w' = false
  /\ ffmpegLoading (state w') = false
  /\ ffmpegLoaded (state w') = ffmpegLoaded (state w)
  /\ (error (state w') = Some MESSAGES.ERROR_NO_SHAREDARRAYBUFFER
      \/ error (state w') = Some MESSAGES.ERROR_FFMPEG_LOAD)
  /\ waiting w' = waiting w
  /\ resolved w' = resolved w
  /\ vfs w' = vfs w.
Proof.
  unfold initialize, initialize_begin, initialize_resume.
  destruct (loaded w) eqn:Hl; [done|].
  destruct (ffmpegLoading (state w)) eqn:Hg; [done|].
  destruct (sharedArrayBuffer env); simpl.
  - destruct (load_ok env); simpl; [done|]. intros H. injection H as <-.
    set (w1 := log [EngineLoad]
                 (StateManager.setState Manager
                    [ffmpegLoading_to true; progressMessage_to MESSAGES.LOADING_FFMPEG;
                     progress_to 0] w)).
    destruct (progress_events_state_fields (load_progress env) w1)
      as (Hf1 & Hf2 & Hf3 & Hf4 & Hf5).
    destruct (progress_events_fields (load_progress env) w1) as (Hv & Hl1 & _).
    destruct (setState_other_keys_waiters Manager
                       [ffmpegLoading_to false; error_to (Some MESSAGES.ERROR_FFMPEG_LOAD)]
                       (foldl (fun w r => on_progress r w) w1 (load_progress env)))
      as [Hw Hr]; [repeat constructor|].
    destruct (setState_other_keys_waiters Manager
                       [ffmpegLoading_to true; progressMessage_to MESSAGES.LOADING_FFMPEG;
                        progress_to 0] w) as [Hw0 Hr0]; [repeat constructor|].
    rewrite setState_loaded, setState_state, setState_vfs, Hw, Hr, Hl1, Hv, Hf4, Hf5.
    simpl. rewrite Hf1. unfold w1. simpl.
    rewrite setState_loaded, setState_state, setState_vfs, Hw0, Hr0. simpl.
    repeat split; try done. by right.
  - intros H. injection H as <-.
    destruct (setState_other_keys_waiters Manager
                       [error_to (Some MESSAGES.ERROR_NO_SHAREDARRAYBUFFER)] w)
      as [Hw Hr]; [repeat constructor|].
    rewrite setState_loaded, setState_state, setState_vfs, Hw, Hr. simpl.
    repeat split; try done. by left.
Qed.

Lemma initialize_failure_state_witness :
  initialize env_load_rejects 1 new_World
  = (Return false, (initialize env_load_rejects 1 new_World).2)
  /\ loaded (initialize env_load_rejects 1 new_World).2 = false
  /\ ffmpegLoading (state (initialize env_load_rejects 1 new_World).2) = false.
Proof.
  assert (H : initialize env_load_rejects 1 new_World
              = (Return false, (initialize env_load_rejects 1 new_World).2))
    by (vm_compute; reflexivity).
  destruct (initialize_failure_state env_load_rejects 1 new_World _ H) as (G1 & G2 & _).
  exact (conj H (conj G1 G2)).
Defined.

(** On an engine that is not loaded, [execute], [writeFile] and
    [readFile] throw 'FFmpeg not loaded' and [cleanup] returns without an
    error; none of them reaches the engine or changes anything. *)
Theorem engine_not_loaded (env : Env) (w : World)
    (args filenames : list string) (filename : string) (data : Bytes) :
  loaded w = false ->
  execute env args w = (Throw "FFmpeg not loaded", w)
  /\ writeFile env filename data w = (Throw "FFmpeg not loaded", w)
  /\ readFile filename w = (Throw "FFmpeg not loaded", w)
  /\ deleteFile filename w = (Return tt, w)
  /\ cleanup filenames w = (Return tt, w).
Proof.
  intros Hl. unfold execute, writeFile, readFile, deleteFile. rewrite Hl. simpl.
  repeat split.
  induction filenames as [|f fs IH]; [done|].
  simpl. unfold bind, deleteFile. rewrite Hl. simpl. exact IH.
Qed.

Lemma engine_not_loaded_witness :
  loaded new_World = false
  /\ cleanup ["input0.jpg"; "slideshow.mp4"] new_World = (Return tt, new_World)
  /\ readFile "slideshow.mp4" new_World = (Throw "FFmpeg not loaded", new_World).
Proof.
  assert (H : loaded new_World = false) by reflexivity.
  destruct (engine_not_loaded env_ok new_World [] ["input0.jpg"; "slideshow.mp4"]
              "slideshow.mp4" [] H) as (_ & _ & G1 & _ & G2).
  exact (conj H (conj G2 G1)).
Defined.

(** ** Any schedule of callers *)

Lemma loads_step_trace (t new : list Event) :
  length (filter (fun e => e = EngineLoad) (t ++ new))
  = (length (filter (fun e => e = EngineLoad) t)
     + length (filter (fun e => e = EngineLoad) new))%nat.
Proof. by rewrite filter_app, length_app. Qed.

Lemma loads_progress_events who updates :
  filter (fun e => e = EngineLoad) (StateManager.progress_events who updates) = [].
Proof.
  induction updates as [|u us IH]; [done|].
  simpl. rewrite filter_app, IH. by destruct u.
Qed.

Lemma loads_setState who updates w :
  length (filter (fun e => e = EngineLoad) (trace (StateManager.setState who updates w)))
  = length (filter (fun e => e = EngineLoad) (trace w)).
Proof.
  rewrite setState_trace, loads_step_trace, loads_progress_events. simpl. lia.
Qed.

Lemma run_snoc env steps e :
  Scheduler.run env (steps ++ [e]) = Scheduler.step env (Scheduler.run env steps) e.
Proof. unfold Scheduler.run. by rewrite foldl_snoc. Qed.

Lemma settlements_snoc steps e :
  settlements (steps ++ [e])
  = (settlements steps + if is_settlement e then 1 else 0)%nat.
Proof.
  unfold settlements. rewrite filter_app, length_app. f_equal.
  destruct e; reflexivity.
Qed.

Lemma scheduler_invariant env steps :
  let s := Scheduler.run env steps in
  (is_Some (Scheduler.owner s) ->
   ffmpegLoading (state (Scheduler.world s)) = true
   /\ loaded (Scheduler.world s) = false)
  /\ (Scheduler.loads s <= settlements steps + in_flight s)%nat.
Proof.
  induction steps as [|e steps IH] using rev_ind.
  - split; [by intros [? ?] | vm_compute; lia].
  - rewrite run_snoc, settlements_snoc. cbv zeta in *.
    destruct IH as [Ha Hb]. set (s := Scheduler.run env steps) in *. clearbody s.
    unfold in_flight, Scheduler.loads in *.
    destruct e as [caller|ok]; simpl.
    + unfold initialize_begin.
      destruct (loaded (Scheduler.world s)) eqn:Hl; simpl.
      { split; [|lia]. intros Hsome. destruct (Ha Hsome) as [_ ?]. done. }
      destruct (ffmpegLoading (state (Scheduler.world s))) eqn:Hg; simpl.
      { split; [|lia]. intros _. by rewrite Hg, Hl. }
      assert (Hown : Scheduler.owner s = None).
      { destruct (Scheduler.owner s) eqn:E; [|done].
        destruct (Ha ltac:(by eexists)) as [? _]. congruence. }
      rewrite Hown in Hb |- *.
      destruct (sharedArrayBuffer env); simpl.
      * split.
        -- intros _. by rewrite setState_state, setState_loaded.
        -- rewrite loads_step_trace, loads_setState. simpl. lia.
      * split; [by intros [? ?]|]. rewrite loads_setState. lia.
    + destruct (Scheduler.owner s) eqn:Hown; simpl.
      * unfold initialize_resume. destruct ok; simpl.
        -- split; [by intros [? ?]|]. rewrite loads_setState. simpl. lia.
        -- split; [by intros [? ?]|]. rewrite loads_setState. lia.
      * rewrite Hown. split; [by intros [? ?] | lia].
Qed.

(** Whatever the callers and the loads do, in whatever order: the
    number of loads started never exceeds the number of loads that have
    settled by more than the one that may be pending; and a caller that
    enters while a load is pending starts none, returns nothing yet and
    is put on the waiting list. *)
Theorem at_most_one_load_in_flight (env : Env) (steps : list Scheduler.Step) :
  let s := Scheduler.run env steps in
  (Scheduler.loads s <= settlements steps + in_flight s)%nat
  /\ (in_flight s <= 1)%nat
  /\ (is_Some (Scheduler.owner s) ->
      forall caller,
        let s' := Scheduler.step env s (Scheduler.Call caller) in
        Scheduler.loads s' = Scheduler.loads s
        /\ Scheduler.owner s' = Scheduler.owner s
        /\ Scheduler.returned s' = Scheduler.returned s
        /\ caller ∈ waiting (Scheduler.world s')).
Proof.
  destruct (scheduler_invariant env steps) as [Ha Hb]. cbv zeta in *.
  split; [exact Hb|].
  split; [unfold in_flight; destruct (Scheduler.owner _); lia|].
  intros Hown caller.
  destruct (Ha Hown) as [Hg Hl]. simpl.
  rewrite (initialize_begin_waits env caller _ Hl Hg).
  repeat split. simpl. apply elem_of_app. right. apply list_elem_of_here.
Qed.

(** ** The progress bar over a run of updates *)





Lemma complete_invariant (ops : list ProgressBar.Op) :
  ProgressBar.complete (ProgressBar.run ops)
  = (100 <=? ProgressBar.currentProgress (ProgressBar.run ops)).
Proof.
  unfold ProgressBar.run. induction ops as [|op ops IH] using rev_ind; [done|].
  rewrite foldl_snoc. destruct op as [p | m | |]; simpl; try exact IH.
  - unfold ProgressBar.updateProgress.
    destruct (ProgressBar.clamp p <? _); [exact IH | done].
  - done.
Qed.

(** In every state that the bar can reach, the fill carries the class
    'complete' exactly when the percentage on display is 100.  [hide]
    puts the bar back into the state in which it was constructed,
    whatever it showed, so that the next update is displayed even when
    it is lower than the last value of the run before. *)
Theorem progress_bar_complete_and_hide (ops : list ProgressBar.Op) :
  let b := ProgressBar.run ops in
  (ProgressBar.complete b = true <-> ProgressBar.percentage b = 100)
  /\ ProgressBar.hide b = ProgressBar.new
  /\ (forall progress,
        ProgressBar.percentage (ProgressBar.updateProgress progress (ProgressBar.hide b))
        = ProgressBar.clamp progress).
Proof.
  intros b.
  destruct (ProgressBarFacts.run_consistent ops) as (Hp & _ & Hr). fold b in Hp, Hr.
  assert (Hh : ProgressBar.hide b = ProgressBar.new) by reflexivity.
  split; [|split; [exact Hh|]].
  - unfold b. rewrite complete_invariant. fold b. rewrite Z.leb_le. lia.
  - intros progress. rewrite Hh. unfold ProgressBar.updateProgress. simpl.
    pose proof (ProgressBarFacts.clamp_range progress).
    destruct (Z.ltb_spec (ProgressBar.clamp progress) 0); [lia | done].
Qed.

(** ** [generate] once its checks have passed *)





(** ** The event bus *)

Module EventBusFacts.

Import EventBus.

Lemma called_snoc (log : list Log) (l : Log) :
  called (log ++ [l]) = called log ++ called [l].
Proof. unfold called. by rewrite flat_map_app. Qed.

Lemma called_emit_fold (throws : nat -> bool) (event : string) (callbacks : list nat)
    (log : list Log) :
  called (foldl (fun log callback =>
                   if throws callback
                   then log ++ [Called callback; ErrorLogged event callback]
                   else log ++ [Called callback]) log callbacks)
  = called log ++ callbacks.
Proof.
  revert log. induction callbacks as [|c callbacks IH]; intros log; simpl.
  { by rewrite app_nil_r. }
  rewrite IH. destruct (throws c).
  - unfold called. rewrite flat_map_app. simpl. by rewrite <- app_assoc.
  - unfold called. rewrite flat_map_app. simpl. by rewrite <- app_assoc.
Qed.

Lemma called_emit (throws : nat -> bool) (event : string) (bus : gmap string (list nat)) :
  called (emit throws event bus) = default [] (bus !! event).
Proof.
  unfold emit. destruct (bus !! event) as [callbacks|]; [|done].
  by rewrite called_emit_fold.
Qed.

Lemma on_lookup (event other : string) (callback : nat) (bus : gmap string (list nat)) :
  on event callback bus !! other
  = if decide (other = event)
    then Some (set_add callback (default [] (bus !! event)))
    else bus !! other.
Proof.
  unfold on. cbv zeta. destruct (bus !! event) as [callbacks|] eqn:E; cbv beta iota.
  - rewrite E. destruct (decide (other = event)) as [->|Hne].
    + by rewrite lookup_insert_eq.
    + by rewrite lookup_insert_ne.
  - rewrite lookup_insert_eq. destruct (decide (other = event)) as [->|Hne].
    + by rewrite lookup_insert_eq.
    + by rewrite !lookup_insert_ne.
Qed.

Lemma off_lookup (event other : string) (callback : nat) (bus : gmap string (list nat)) :
  off event callback bus !! other
  = if decide (other = event)
    then set_delete callback <$> (bus !! event)
    else bus !! other.
Proof.
  unfold off. destruct (bus !! event) as [callbacks|] eqn:E.
  - destruct (decide (other = event)) as [->|Hne].
    + by rewrite lookup_insert_eq.
    + by rewrite lookup_insert_ne.
  - destruct (decide (other = event)) as [->|Hne]; [by rewrite E | done].
Qed.

Lemma clear_lookup (event : option string) (other : string) (bus : gmap string (list nat)) :
  clear event bus !! other
  = match event with
    | Some name =>
        if decide (name = "") then None
        else if decide (other = name) then None else bus !! other
    | None => None
    end.
Proof.
  unfold clear. destruct event as [name|]; [|done].
  destruct (String.eqb_spec name "") as [->|Hne].
  - by destruct (decide _).
  - destruct (decide (name = "")); [done|].
    destruct (decide (other = name)) as [->|Hne'].
    + by rewrite lookup_delete_eq.
    + by rewrite lookup_delete_ne.
Qed.

Lemma set_add_NoDup (callback : nat) (callbacks : list nat) :
  NoDup callbacks -> NoDup (set_add callback callbacks).
Proof.
  intros H. unfold set_add. case_bool_decide as Hin; [done|].
  apply NoDup_app. split; [done|]. split; [|apply NoDup_singleton].
  intros x Hx Hx'. apply list_elem_of_singleton in Hx' as ->. done.
Qed.

Lemma set_delete_NoDup (callback : nat) (callbacks : list nat) :
  NoDup callbacks -> NoDup (set_delete callback callbacks).
Proof. intros H. by apply NoDup_filter. Qed.

Lemma run_NoDup (ops : list Op) (event : string) :
  NoDup (default [] (run ops !! event)).
Proof.
  unfold run. induction ops as [|op ops IH] using rev_ind in event |- *.
  { simpl. unfold new. rewrite lookup_empty. constructor. }
  rewrite foldl_snoc. destruct op as [e c | e c | e]; simpl.
  - rewrite on_lookup. destruct (decide (event = e)) as [->|]; [|apply IH].
    simpl. apply set_add_NoDup, IH.
  - rewrite off_lookup. destruct (decide (event = e)) as [->|]; [|apply IH].
    specialize (IH e). destruct (foldl step new ops !! e); simpl in *.
    + by apply set_delete_NoDup.
    + constructor.
  - rewrite clear_lookup. destruct e as [name|]; [|constructor].
    destruct (decide (name = "")); [constructor|].
    destruct (decide (event = name)); [constructor | apply IH].
Qed.

End EventBusFacts.

(** On every bus that [on], [off] and [clear] can build, [emit] calls
    each callback registered for the event once, in the order of
    registration, whether or not callbacks throw.  [on] appends a
    callback that is not yet registered and changes nothing for one that
    is; [off] removes the callback and keeps the others in order; and
    neither changes what is called for another event. *)
Theorem event_bus_subscriptions (ops : list EventBus.Op) (throws : nat -> bool)
    (event : string) (callback : nat) :
  let bus := EventBus.run ops in
  let handlers := EventBus.called (EventBus.emit throws event bus) in
  NoDup handlers
  /\ handlers = EventBus.called (EventBus.emit (fun _ => false) event bus)
  /\ EventBus.called (EventBus.emit throws event (EventBus.on event callback bus))
     = (if decide (callback ∈ handlers) then handlers else (handlers ++ [callback]))
  /\ (EventBus.called (EventBus.emit throws event (EventBus.off event callback bus))
      = filter (fun c => c <> callback) handlers)
  /\ (callback ∉ EventBus.called
                   (EventBus.emit throws event (EventBus.off event callback bus)))
  /\ (forall other, other <> event ->
        EventBus.emit throws other (EventBus.on event callback bus)
        = EventBus.emit throws other bus
        /\ EventBus.emit throws other (EventBus.off event callback bus)
           = EventBus.emit throws other bus).
Proof.
  intros bus handlers. unfold handlers.
  rewrite !EventBusFacts.called_emit.
  rewrite EventBusFacts.on_lookup, EventBusFacts.off_lookup.
  destruct (decide (event = event)) as [_|?]; [|done].
  split; [apply EventBusFacts.run_NoDup|].
  split; [done|].
  split.
  { simpl. unfold EventBus.set_add. case_bool_decide.
    - by rewrite decide_True.
    - by rewrite decide_False. }
  assert (E : default [] (EventBus.set_delete callback <$> bus !! event)
              = filter (fun c => c <> callback) (default [] (bus !! event))).
  { by destruct (bus !! event). }
  split; [exact E|].
  split.
  { rewrite E. intros Hin. apply list_elem_of_filter in Hin as [Hne _]. done. }
  intros other Hne. unfold EventBus.emit.
  rewrite EventBusFacts.on_lookup, EventBusFacts.off_lookup.
  by rewrite !decide_False by done.
Qed.

(** [clear] without an argument removes every callback of every event.
    So does [clear] with the empty string as the event name, since the
    test [if (event)] takes the empty string for a missing argument.
    With any other name it removes the callbacks of that event and leaves
    the other events as they were. *)
Theorem event_bus_clear (bus : gmap string (list nat)) (throws : nat -> bool) (event : string) :
  EventBus.emit throws event (EventBus.clear None bus) = []
  /\ EventBus.emit throws event (EventBus.clear (Some "") bus) = []
  /\ (forall name, name <> "" ->
        EventBus.emit throws name (EventBus.clear (Some name) bus) = []
        /\ (event <> name ->
            EventBus.emit throws event (EventBus.clear (Some name) bus)
            = EventBus.emit throws event bus)).
Proof.
  unfold EventBus.emit.
  split; [by rewrite EventBusFacts.clear_lookup|].
  split; [by rewrite EventBusFacts.clear_lookup|].
  intros name Hne. rewrite !EventBusFacts.clear_lookup.
  destruct (decide (name = "")); [done|].
  destruct (decide (name = name)); [|done].
  split; [done|]. intros Hne'. by destruct (decide (event = name)).
Qed.
